(** * The Wine preloader (loader/preloader.c): a shallow embedding

    The development follows the Linux build of the preloader, for both
    architectures the source supports ([__i386__] and [__x86_64__]); the
    [__APPLE__] branches are not embedded.

    Conventions.
    - A C [unsigned long], [size_t], [ElfW(Addr)], [ElfW(Off)] or pointer is
      a [Z] in [0, 2^w) with [w] the word width of the architecture; every
      operation that can leave that range is wrapped explicitly ([wrap]).
    - A C string is the list of its bytes, without the terminating NUL.
    - System calls are recorded as events; what the kernel answers is read
      from an explicit [kernel] record.
    - Behaviour the C standard leaves undefined (reading past an array,
      overflowing the 256-byte message buffer) is the outcome [Undefined]
      (or [None]), never silently given a meaning. *)

From Stdlib Require Import ZArith Lia List String Ascii Bool Permutation.
From stdpp Require Import base list.
Import ListNotations.
Local Open Scope Z_scope.

(* ================================================================== *)
(** * Part I: the embedding *)
(* ================================================================== *)

(** ** Architectures and machine words *)

Inductive arch := I386 | X86_64.

(** [sizeof(unsigned long)], which is also [sizeof(void * )] and
    [sizeof(ElfW(Addr))]. *)
Definition word_bytes (a : arch) : Z :=
  match a with I386 => 4 | X86_64 => 8 end.

Definition word_bits (a : arch) : Z := 8 * word_bytes a.

Definition word_mod (a : arch) : Z := 2 ^ word_bits a.

(** Wrap-around of word arithmetic. *)
Definition wrap (a : arch) (x : Z) : Z := x mod word_mod a.

(** [x & ~m] on words. *)
Definition and_not (a : arch) (x m : Z) : Z :=
  Z.land x (Z.lxor (word_mod a - 1) m).

(** ** Characters and strings *)

Definition ch (c : ascii) : Z := Z.of_N (N_of_ascii c).

Definition bytes_of_string (s : string) : list Z :=
  List.map ch (list_ascii_of_string s).

(** The character the source writes as a backslash followed by n. *)
Definition newline : string := String "010"%char EmptyString.

(** ** Formatted output: [wld_vsprintf] *)

(** One variadic argument: an integer or pointer, or a [char *] given by
    the string it points to. *)
Inductive varg :=
| VInt (x : Z)
| VStr (s : list Z).

Definition hex_chars : list Z := bytes_of_string "0123456789abcdef".

(** [for (i = n - 1; i >= 0; i--) *str++ = hex_chars[(x>>(i*4))&0xf];] *)
Fixpoint hex_loop (n : nat) (x : Z) : list Z :=
  match n with
  | O => []
  | S i =>
      nth (Z.to_nat (Z.land (Z.shiftr x (Z.of_nat i * 4)) 15)) hex_chars 0
      :: hex_loop i x
  end.

(** [%x]: an [unsigned int], [2 * sizeof(unsigned int)] digits. *)
Definition hex_uint (x : Z) : list Z := hex_loop 8 (x mod 2 ^ 32).

(** [%lx] and [%p]: an [unsigned long], [2 * sizeof(unsigned long)] digits. *)
Definition hex_ulong (a : arch) (x : Z) : list Z :=
  hex_loop (Z.to_nat (2 * word_bytes a)) (wrap a x).

(** The statement [*str++ = *p++] that ends every iteration which began
    with a ['%']: [p] is what follows the conversion.  When that is the
    terminating NUL, the NUL is copied and [p] moves past the end of the
    format, so the next test [*p] reads outside the string: [None]. *)
Definition ch_percent : Z := ch "%".
Definition ch_x : Z := ch "x".
Definition ch_l : Z := ch "l".
Definition ch_p : Z := ch "p".
Definition ch_s : Z := ch "s".

(** [wld_vsprintf]: the bytes written to [buffer] before the final NUL.
    [None] is undefined behaviour: a [va_arg] of the wrong kind or past
    the last argument, or a read past the end of the format. *)
Fixpoint wld_vsprintf (a : arch) (fmt : list Z) (args : list varg)
  : option (list Z) :=
  match fmt with
  | [] => Some []
  | c :: p1 =>
      if c =? ch_percent then
        match p1 with
        | [] => Some []                          (* else if( *p == 0 ) break; *)
        | c1 :: p2 =>
            if c1 =? ch_x then
              match args, p2 with
              | VInt x :: args', d :: p3 =>
                  option_map (fun r => hex_uint x ++ d :: r)
                             (wld_vsprintf a p3 args')
              | _, _ => None
              end
            else if (c1 =? ch_l) && (hd 0 p2 =? ch_x) then
              match args, p2 with
              | VInt x :: args', _ :: d :: p4 =>
                  option_map (fun r => hex_ulong a x ++ d :: r)
                             (wld_vsprintf a p4 args')
              | _, _ => None
              end
            else if c1 =? ch_p then
              match args, p2 with
              | VInt x :: args', d :: p3 =>
                  option_map (fun r => hex_ulong a x ++ d :: r)
                             (wld_vsprintf a p3 args')
              | _, _ => None
              end
            else if c1 =? ch_s then
              match args, p2 with
              | VStr s :: args', d :: p3 =>
                  option_map (fun r => s ++ d :: r)
                             (wld_vsprintf a p3 args')
              | _, _ => None
              end
            else
              (* no conversion: the character is skipped *)
              match p2 with
              | d :: p3 => option_map (cons d) (wld_vsprintf a p3 args)
              | [] => None
              end
        end
      else option_map (cons c) (wld_vsprintf a p1 args)
  end.

(** The four conversions [wld_vsprintf] knows, the characters that select
    them, and what each writes for an argument of the right kind. *)
Inductive conversion := ConvX | ConvLX | ConvP | ConvS.

Definition conv_spec (c : conversion) : list Z :=
  match c with
  | ConvX => [ch_x]
  | ConvLX => [ch_l; ch_x]
  | ConvP => [ch_p]
  | ConvS => [ch_s]
  end.

Definition conv_output (a : arch) (c : conversion) (v : varg)
  : option (list Z) :=
  match c, v with
  | ConvX, VInt x => Some (hex_uint x)
  | ConvLX, VInt x | ConvP, VInt x => Some (hex_ulong a x)
  | ConvS, VStr s => Some s
  | _, _ => None
  end.

(** ** System calls, traces and outcomes *)

Inductive event :=
| EvOpen (name : list Z)
| EvRead (fd len : Z)
| EvClose (fd : Z)
| EvWrite (fd : Z) (buf : list Z)
| EvMmap (start len prot flags fd off : Z)
| EvMprotect (start len prot : Z)
| EvMemset (dst len : Z).

(** What a call does: it returns a value, it ends the process through
    [wld_exit], or its behaviour is undefined.  The trace lists the system
    calls made, oldest first. *)
Inductive outcome (A : Type) :=
| Returns (tr : list event) (x : A)
| Exits (tr : list event) (code : Z)
| Undefined.
Arguments Returns {A} tr x.
Arguments Exits {A} tr code.
Arguments Undefined {A}.

Definition bind {A B} (o : outcome A) (k : A -> outcome B) : outcome B :=
  match o with
  | Returns tr x =>
      match k x with
      | Returns tr' y => Returns (tr ++ tr') y
      | Exits tr' c => Exits (tr ++ tr') c
      | Undefined => Undefined
      end
  | Exits tr c => Exits tr c
  | Undefined => Undefined
  end.

Notation "'let*' x ':=' o 'in' k" := (bind o (fun x => k))
  (at level 10, x name, o at level 200, k at level 200).

Definition ret {A} (x : A) : outcome A := Returns [] x.
Definition emit (e : event) : outcome unit := Returns [e] tt.

(** [char buffer[256]]: the formatted bytes and the final NUL must fit. *)
Definition buffer_size : Z := 256.

Definition format_message (a : arch) (fmt : string) (args : list varg)
  : option (list Z) :=
  match wld_vsprintf a (bytes_of_string fmt) args with
  | Some msg => if Z.of_nat (length msg) <? buffer_size then Some msg else None
  | None => None
  end.

(** [wld_printf]: format, then [wld_write(2, buffer, len)]. *)
Definition wld_printf (a : arch) (fmt : string) (args : list varg)
  : outcome unit :=
  match format_message a fmt args with
  | Some msg => emit (EvWrite 2 msg)
  | None => Undefined
  end.

(** [fatal_error]: the same, then [wld_exit(1)]. *)
Definition fatal_error {A} (a : arch) (fmt : string) (args : list varg)
  : outcome A :=
  match format_message a fmt args with
  | Some msg => Exits [EvWrite 2 msg] 1
  | None => Undefined
  end.

(** ** The reservation list *)

(** Modelled from the spec: [struct wine_preload_info] is declared in
    main.h, which is not among the sources; the spec's PreloadRange is "an
    address/size pair", "byte length (0 terminates the list)", and the
    source reads the fields [addr] and [size]. *)
Record wine_preload_info := { addr : Z; size : Z }.

(** The initial value of the static array [preload_info]. *)
Definition preload_info_init (a : arch) : list wine_preload_info :=
  match a with
  | I386 =>
      [ {| addr := 0x00000000; size := 0x00001000 |};   (* first page *)
        {| addr := 0x00001000; size := 0x0000f000 |};   (* low 64k *)
        {| addr := 0x00010000; size := 0x00100000 |};   (* DOS area *)
        {| addr := 0x00110000; size := 0x67ef0000 |};   (* low memory area *)
        {| addr := 0x7f000000; size := 0x03000000 |};   (* top-down allocations *)
        {| addr := 0; size := 0 |};                     (* WINEPRELOADRESERVE *)
        {| addr := 0; size := 0 |} ]                    (* end of list *)
  | X86_64 =>
      [ {| addr := 0x000000010000; size := 0x00100000 |};   (* DOS area *)
        {| addr := 0x000000110000; size := 0x67ef0000 |};   (* low memory area *)
        {| addr := 0x00007ff00000; size := 0x000f0000 |};   (* shared user data *)
        {| addr := 0x7ffffe000000; size := 0x01ff0000 |};   (* top-down allocations *)
        {| addr := 0; size := 0 |};
        {| addr := 0; size := 0 |} ]
  end.

(** The globals [page_mask], [preloader_start] and [preloader_end], set
    once by [wld_start]. *)
Record globals := {
  page_mask : Z;
  preloader_start : Z;
  preloader_end : Z
}.

Definition page_size (g : globals) : Z := page_mask g + 1.

(** *** [preload_reserve] *)

Definition in_range (lo hi c : Z) : bool := (lo <=? c) && (c <=? hi).

(** The parsing loop of [preload_reserve], from the character [p] points
    to; [None] is [goto error]. *)
Fixpoint parse_loop (a : arch) (g : globals) (p : list Z)
  (result start : Z) (first : bool) : option (Z * Z * bool) :=
  match p with
  | [] => Some (result, start, first)
  | c :: p' =>
      if in_range (ch "0") (ch "9") c then
        parse_loop a g p' (wrap a (result * 16 + c - ch "0")) start first
      else if in_range (ch "a") (ch "f") c then
        parse_loop a g p' (wrap a (result * 16 + c - ch "a" + 10)) start first
      else if in_range (ch "A") (ch "F") c then
        parse_loop a g p' (wrap a (result * 16 + c - ch "A" + 10)) start first
      else if c =? ch "-" then
        if first then parse_loop a g p' 0 (and_not a result (page_mask g)) false
        else None
      else None
  end.

(** The two sanity checks that follow the parse. *)
Definition sanity_checks (a : arch) (g : globals) (start end_ : Z)
  : outcome (Z * Z) :=
  if end_ <=? start then ret (0, 0)
  else if (preloader_start g <? end_) && (start <=? preloader_end g) then
    let* _ :=
      wld_printf a
        ("WINEPRELOADRESERVE range %p-%p overlaps preloader %p-%p" ++ newline)
        [VInt start; VInt end_;
         VInt (preloader_start g); VInt (preloader_end g)] in
    ret (0, 0)
  else ret (start, end_).

(** The boundary below which a static range counts as a low memory area. *)
Definition low_memory_limit : Z := 0x00110000.

(** The loop that checks for overlap with low memory areas; [rest] is the
    array from index [i] on.  The result is the index the loop stops at
    and the new [start] and [end]; [None] when the loop runs past the end
    of the array. *)
Fixpoint low_memory_loop (a : arch) (rest : list wine_preload_info)
  (i : nat) (start end_ : Z) : option (nat * (Z * Z)) :=
  match rest with
  | [] => None
  | r :: rest' =>
      if size r =? 0 then Some (i, (start, end_))
      else if low_memory_limit <? addr r then Some (i, (start, end_))
      else if end_ <=? wrap a (addr r + size r) then Some (i, (0, 0))
      else
        low_memory_loop a rest' (S i)
          (if start <? wrap a (addr r + size r)
           then wrap a (addr r + size r) else start)
          end_
  end.

(** [while (preload_info[i].size) i++;] *)
Fixpoint skip_to_end (rest : list wine_preload_info) (i : nat) : option nat :=
  match rest with
  | [] => None
  | r :: rest' => if size r =? 0 then Some i else skip_to_end rest' (S i)
  end.

Definition record_range (a : arch) (info : list wine_preload_info)
  (start end_ : Z) : outcome (list wine_preload_info) :=
  match low_memory_loop a info 0 start end_ with
  | None => Undefined
  | Some (i, (start', end')) =>
      match skip_to_end (drop i info) i with
      | None => Undefined
      | Some i' =>
          ret (<[i' := {| addr := start'; size := wrap a (end' - start') |}]> info)
      end
  end.

Definition fmt_invalid_reserve : string :=
  "invalid WINEPRELOADRESERVE value '%s'" ++ newline.

Definition preload_reserve (a : arch) (g : globals) (str : list Z)
  (info : list wine_preload_info) : outcome (list wine_preload_info) :=
  match parse_loop a g str 0 0 true with
  | None => fatal_error a fmt_invalid_reserve [VStr str]
  | Some (result, start, first) =>
      if first && negb (result =? 0) then
        fatal_error a fmt_invalid_reserve [VStr str]
      else
        let end_ :=
          if first then 0
          else and_not a (wrap a (result + page_mask g)) (page_mask g) in
        let* se := sanity_checks a g start end_ in
        record_range a info (fst se) (snd se)
  end.

(** *** Reading a reservation string *)

(** The characters the parsing loop takes for digits, their values, and
    the number a string of digits denotes. *)
Definition is_hex_digit (c : Z) : bool :=
  in_range (ch "0") (ch "9") c
  || in_range (ch "a") (ch "f") c
  || in_range (ch "A") (ch "F") c.

Definition digit_value (c : Z) : Z :=
  if in_range (ch "0") (ch "9") c then c - ch "0"
  else if in_range (ch "a") (ch "f") c then c - ch "a" + 10
  else c - ch "A" + 10.

Fixpoint hex_number_from (s : list Z) (acc : Z) : Z :=
  match s with
  | [] => acc
  | c :: s' => hex_number_from s' (acc * 16 + digit_value c)
  end.

Definition hex_number (s : list Z) : Z := hex_number_from s 0.

Definition all_hex (s : list Z) : Prop :=
  Forall (fun c => is_hex_digit c = true) s.

(** The bounds [preload_reserve] computes for [START-END]. *)
Definition parsed_start (a : arch) (g : globals) (s1 : list Z) : Z :=
  and_not a (wrap a (hex_number s1)) (page_mask g).

Definition parsed_end (a : arch) (g : globals) (s2 : list Z) : Z :=
  and_not a (wrap a (wrap a (hex_number s2) + page_mask g)) (page_mask g).

(** The slot of the initial list that takes the WINEPRELOADRESERVE range,
    and the end of the last static range that lies at or below
    [low_memory_limit]. *)
Definition reserve_slot (a : arch) : nat :=
  match a with I386 => 5%nat | X86_64 => 4%nat end.

Definition low_memory_end : Z := 0x68000000.


(** *** [remove_preload_range] *)

(** The loop of [remove_preload_range]; [None] when it reads past the end
    of the array.  The fuel is the number of slots: the index grows with
    every round, so the loop leaves the array before the fuel runs out. *)
Fixpoint remove_loop (fuel : nat) (info : list wine_preload_info) (i : nat)
  : option (list wine_preload_info) :=
  match fuel with
  | O => None
  | S fuel' =>
      match info !! i with
      | None => None
      | Some r =>
          if size r =? 0 then Some info
          else
            match info !! S i with
            | None => None
            | Some r' => remove_loop fuel' (<[i := r']> info) (S i)
            end
      end
  end.

Definition remove_preload_range (info : list wine_preload_info) (i : nat)
  : option (list wine_preload_info) :=
  remove_loop (S (length info)) info i.

(** The ranges of the list: the entries before the first of size zero. *)
Fixpoint ranges_of (info : list wine_preload_info) : list wine_preload_info :=
  match info with
  | [] => []
  | r :: rest => if size r =? 0 then [] else r :: ranges_of rest
  end.

(** ** The ELF mapper: [map_so_lib] *)

(** Constants of the system headers <elf.h>, <sys/mman.h> and <fcntl.h>
    (Linux, x86), which the source includes and does not define itself;
    [MAP_COPY] is defined by the source as [MAP_PRIVATE]. *)
Module ElfH.
Definition EM_386 : Z := 3.
Definition EM_X86_64 : Z := 62.
Definition ET_EXEC : Z := 2.
Definition ET_DYN : Z := 3.
Definition PT_LOAD : Z := 1.
Definition PT_DYNAMIC : Z := 2.
Definition PT_INTERP : Z := 3.
Definition PT_PHDR : Z := 6.
Definition PF_X : Z := 1.
Definition PF_W : Z := 2.
Definition PF_R : Z := 4.
Definition PROT_NONE : Z := 0.
Definition PROT_READ : Z := 1.
Definition PROT_WRITE : Z := 2.
Definition PROT_EXEC : Z := 4.
Definition PROT_READ_WRITE : Z := Z.lor PROT_READ PROT_WRITE.
Definition PROT_READ_EXEC : Z := Z.lor PROT_READ PROT_EXEC.
Definition MAP_FILE : Z := 0.
Definition MAP_PRIVATE : Z := 2.
Definition MAP_COPY : Z := MAP_PRIVATE.
Definition MAP_FIXED : Z := 0x10.
Definition MAP_ANON : Z := 0x20.
Definition DT_NULL : Z := 0.
Definition DT_HASH : Z := 4.
Definition DT_STRTAB : Z := 5.
Definition DT_SYMTAB : Z := 6.
Definition DT_GNU_HASH : Z := 0x6ffffef5.
Definition STB_GLOBAL : Z := 1.
Definition STT_OBJECT : Z := 1.
Definition AT_NULL : Z := 0.
Definition AT_SYSINFO : Z := 32.
Definition AT_SYSINFO_EHDR : Z := 33.
End ElfH.
Import ElfH.

(** What the kernel answers: [wld_open] gives a descriptor or -1;
    [wld_read] fails or gives the bytes read (its return value is their
    number); [wld_mmap] gives an address or [(void * )-1]. *)
Record kernel := {
  k_open : list Z -> Z;
  k_read : Z -> Z -> option (list Z);
  k_mmap : Z -> Z -> Z -> Z -> Z -> Z -> Z
}.

(** [sizeof(buf)] for [unsigned char buf[0x800]]. *)
Definition header_buf_size : Z := 0x800.

(** Little-endian fields of the header buffer. *)
Fixpoint le_value (bs : list Z) : Z :=
  match bs with
  | [] => 0
  | b :: r => b + 256 * le_value r
  end.

Definition field (buf : list Z) (off : Z) (n : Z) : Z :=
  le_value (take (Z.to_nat n) (drop (Z.to_nat off) buf)).

(** The fields of [ElfW(Ehdr)] the source reads, at their offsets in
    Elf32_Ehdr and Elf64_Ehdr. *)
Record Ehdr := {
  e_ident : list Z;
  e_type : Z;
  e_machine : Z;
  e_entry : Z;
  e_phoff : Z;
  e_phnum : Z
}.

Definition read_ehdr (a : arch) (buf : list Z) : Ehdr :=
  {| e_ident := take 4 buf;
     e_type := field buf 16 2;
     e_machine := field buf 18 2;
     e_entry := field buf 24 (word_bytes a);
     e_phoff := field buf (24 + word_bytes a) (word_bytes a);
     e_phnum := field buf (match a with I386 => 44 | X86_64 => 56 end) 2 |}.

(** The fields of [ElfW(Phdr)]; [sizeof(ElfW(Phdr))] is 32 or 56. *)
Record Phdr := {
  p_type : Z;
  p_flags : Z;
  p_offset : Z;
  p_vaddr : Z;
  p_filesz : Z;
  p_memsz : Z;
  p_align : Z
}.

Definition phdr_size (a : arch) : Z :=
  match a with I386 => 32 | X86_64 => 56 end.

(** The program header at offset [off] of the buffer; [None] when it does
    not lie inside the buffer. *)
Definition read_phdr (a : arch) (buf : list Z) (off : Z) : option Phdr :=
  if off + phdr_size a <=? header_buf_size then
    Some
      match a with
      | I386 =>
          {| p_type := field buf off 4;
             p_offset := field buf (off + 4) 4;
             p_vaddr := field buf (off + 8) 4;
             p_filesz := field buf (off + 16) 4;
             p_memsz := field buf (off + 20) 4;
             p_flags := field buf (off + 24) 4;
             p_align := field buf (off + 28) 4 |}
      | X86_64 =>
          {| p_type := field buf off 4;
             p_flags := field buf (off + 4) 4;
             p_offset := field buf (off + 8) 8;
             p_vaddr := field buf (off + 16) 8;
             p_filesz := field buf (off + 32) 8;
             p_memsz := field buf (off + 40) 8;
             p_align := field buf (off + 48) 8 |}
      end
  else None.

Record wld_link_map := {
  l_addr : Z;
  l_ld : Z;
  l_phdr : Z;
  l_entry : Z;
  l_ldnum : Z;
  l_phnum : Z;
  l_map_start : Z;
  l_map_end : Z;
  l_interp : Z
}.

Definition with_l_addr (l : wld_link_map) (v : Z) : wld_link_map :=
  {| l_addr := v; l_ld := l_ld l; l_phdr := l_phdr l; l_entry := l_entry l;
     l_ldnum := l_ldnum l; l_phnum := l_phnum l;
     l_map_start := l_map_start l; l_map_end := l_map_end l;
     l_interp := l_interp l |}.

Definition with_l_ld (l : wld_link_map) (ld ldnum : Z) : wld_link_map :=
  {| l_addr := l_addr l; l_ld := ld; l_phdr := l_phdr l; l_entry := l_entry l;
     l_ldnum := ldnum; l_phnum := l_phnum l;
     l_map_start := l_map_start l; l_map_end := l_map_end l;
     l_interp := l_interp l |}.

Definition with_l_phdr (l : wld_link_map) (v : Z) : wld_link_map :=
  {| l_addr := l_addr l; l_ld := l_ld l; l_phdr := v; l_entry := l_entry l;
     l_ldnum := l_ldnum l; l_phnum := l_phnum l;
     l_map_start := l_map_start l; l_map_end := l_map_end l;
     l_interp := l_interp l |}.

Definition with_l_entry (l : wld_link_map) (v : Z) : wld_link_map :=
  {| l_addr := l_addr l; l_ld := l_ld l; l_phdr := l_phdr l; l_entry := v;
     l_ldnum := l_ldnum l; l_phnum := l_phnum l;
     l_map_start := l_map_start l; l_map_end := l_map_end l;
     l_interp := l_interp l |}.

Definition with_l_interp (l : wld_link_map) (v : Z) : wld_link_map :=
  {| l_addr := l_addr l; l_ld := l_ld l; l_phdr := l_phdr l;
     l_entry := l_entry l; l_ldnum := l_ldnum l; l_phnum := l_phnum l;
     l_map_start := l_map_start l; l_map_end := l_map_end l;
     l_interp := v |}.

Definition with_l_map (l : wld_link_map) (s e : Z) : wld_link_map :=
  {| l_addr := l_addr l; l_ld := l_ld l; l_phdr := l_phdr l;
     l_entry := l_entry l; l_ldnum := l_ldnum l; l_phnum := l_phnum l;
     l_map_start := s; l_map_end := e; l_interp := l_interp l |}.

(** [struct loadcmd]. *)
Record loadcmd := {
  mapstart : Z;
  mapend : Z;
  dataend : Z;
  allocend : Z;
  mapoff : Z;
  prot : Z
}.

(** [sizeof(loadcmds)/sizeof(loadcmds[0])]. *)
Definition max_loadcmds : Z := 16.

(** The machine the build accepts. *)
Definition build_machine (a : arch) : Z :=
  match a with I386 => EM_386 | X86_64 => EM_X86_64 end.

Definition machine_name (a : arch) : string :=
  match a with I386 => "i386" | X86_64 => "x86-64" end.

Definition elf_magic : list Z := [0x7f; ch "E"; ch "L"; ch "F"].

(** Opening the file, reading the first 2 KiB and validating the header:
    the descriptor and the buffer. *)
Definition read_header (a : arch) (k : kernel) (name : list Z)
  : outcome (Z * list Z) :=
  let* _ := emit (EvOpen name) in
  let fd := k_open k name in
  if fd =? -1 then
    fatal_error a ("%s: could not open" ++ newline) [VStr name]
  else
    let* _ := emit (EvRead fd header_buf_size) in
    match k_read k fd header_buf_size with
    | None =>
        fatal_error a ("%s: failed to read ELF header" ++ newline) [VStr name]
    | Some buf =>
        if negb (Z.of_nat (length buf) =? header_buf_size) then
          fatal_error a ("%s: failed to read ELF header" ++ newline)
            [VStr name]
        else
          let header := read_ehdr a buf in
          if negb (bool_decide (e_ident header = elf_magic)) then
            fatal_error a
              ("%s: not an ELF binary... don't know how to load it" ++ newline)
              [VStr name]
          else if negb (e_machine header =? build_machine a) then
            fatal_error a
              ("%s: not an " ++ machine_name a
               ++ " ELF binary... don't know how to load it" ++ newline)
              [VStr name]
          else if max_loadcmds <? e_phnum header then
            fatal_error a
              ("%s: oops... not enough space for load commands" ++ newline)
              [VStr name]
          else if header_buf_size
                  <? wrap a (e_phoff header + e_phnum header * phdr_size a)
          then
            fatal_error a
              ("%s: oops... not enough space for ELF headers" ++ newline)
              [VStr name]
          else ret (fd, buf)
    end.

(** The body of the loop over the program headers. *)
Definition scan_phdr (a : arch) (g : globals) (name : list Z) (ph : Phdr)
  (st : wld_link_map * list loadcmd) : outcome (wld_link_map * list loadcmd) :=
  let (l, cmds) := st in
  if p_type ph =? PT_DYNAMIC then
    ret (with_l_ld l (p_vaddr ph) ((p_memsz ph / 8) mod 2 ^ 16), cmds)
  else if p_type ph =? PT_PHDR then
    ret (with_l_phdr l (p_vaddr ph), cmds)
  else if p_type ph =? PT_LOAD then
    if negb (Z.land (p_align ph) (page_mask g) =? 0) then
      fatal_error a
        ("%s: ELF load command alignment not page-aligned" ++ newline)
        [VStr name]
    else if negb (Z.land (wrap a (p_vaddr ph - p_offset ph))
                         (wrap a (p_align ph - 1)) =? 0) then
      fatal_error a
        ("%s: ELF load command address/offset not properly aligned" ++ newline)
        [VStr name]
    else
      let c :=
        {| mapstart := and_not a (p_vaddr ph) (wrap a (p_align ph - 1));
           mapend :=
             and_not a (wrap a (p_vaddr ph + p_filesz ph + page_mask g))
                     (page_mask g);
           dataend := wrap a (p_vaddr ph + p_filesz ph);
           allocend := wrap a (p_vaddr ph + p_memsz ph);
           mapoff := and_not a (p_offset ph) (wrap a (p_align ph - 1));
           prot :=
             Z.lor (if Z.land (p_flags ph) PF_R =? 0 then 0 else PROT_READ)
               (Z.lor (if Z.land (p_flags ph) PF_W =? 0 then 0 else PROT_WRITE)
                  (if Z.land (p_flags ph) PF_X =? 0 then 0 else PROT_EXEC)) |}
      in
      ret (l, cmds ++ [c])
  else if p_type ph =? PT_INTERP then
    ret (with_l_interp l (p_vaddr ph), cmds)
  else ret (l, cmds).

(** [for (ph = phdr; ph < &phdr[l->l_phnum]; ++ph)], with [n] headers left
    and [ph] at offset [off] of the buffer. *)
Fixpoint scan_phdrs (a : arch) (g : globals) (name : list Z) (buf : list Z)
  (n : nat) (off : Z) (st : wld_link_map * list loadcmd)
  : outcome (wld_link_map * list loadcmd) :=
  match n with
  | O => ret st
  | S n' =>
      match read_phdr a buf off with
      | None => Undefined
      | Some ph =>
          let* st' := scan_phdr a g name ph st in
          scan_phdrs a g name buf n' (off + phdr_size a) st'
      end
  end.

(** The link map after the header is accepted, and the scan of the
    program header table. *)
Definition scan_headers (a : arch) (g : globals) (name : list Z)
  (buf : list Z) (l0 : wld_link_map) : outcome (wld_link_map * list loadcmd) :=
  let header := read_ehdr a buf in
  let l :=
    {| l_addr := 0; l_ld := 0; l_phdr := 0; l_entry := e_entry header;
       l_ldnum := l_ldnum l0; l_phnum := e_phnum header;
       l_map_start := l_map_start l0; l_map_end := l_map_end l0;
       l_interp := 0 |} in
  scan_phdrs a g name buf (Z.to_nat (e_phnum header)) (e_phoff header) (l, []).

(** After the label [postmap]: the segment that holds the program header
    table gives [l_phdr]. *)
Definition locate_phdr (a : arch) (header : Ehdr) (l : wld_link_map)
  (c : loadcmd) : wld_link_map :=
  if (l_phdr l =? 0)
     && (mapoff c <=? e_phoff header)
     && (wrap a (e_phoff header + e_phnum header * phdr_size a)
         <=? wrap a (mapend c - mapstart c + mapoff c))
  then with_l_phdr l (wrap a (mapstart c + e_phoff header - mapoff c))
  else l.

(** The zero pages at the end of a segment. *)
Definition zero_fill (a : arch) (g : globals) (l : wld_link_map) (c : loadcmd)
  : outcome unit :=
  if dataend c <? allocend c then
    let zero := wrap a (l_addr l + dataend c) in
    let zeroend :=
      and_not a (wrap a (wrap a (l_addr l + allocend c) + page_mask g))
              (page_mask g) in
    let zeropage0 := and_not a (wrap a (zero + page_mask g)) (page_mask g) in
    let zeropage := if zeroend <? zeropage0 then zeroend else zeropage0 in
    let read_only := Z.land (prot c) PROT_WRITE =? 0 in
    let* _ :=
      (if zero <? zeropage then
         let* _ :=
           (if read_only then
              emit (EvMprotect (and_not a zero (page_mask g)) (page_size g)
                      (Z.lor (prot c) PROT_WRITE))
            else ret tt) in
         let* _ := emit (EvMemset zero (zeropage - zero)) in
         if read_only then
           emit (EvMprotect (and_not a zero (page_mask g)) (page_size g)
                   (prot c))
         else ret tt
       else ret tt) in
    if zeropage <? zeroend then
      emit (EvMmap zeropage (zeroend - zeropage) (prot c)
              (Z.lor MAP_ANON (Z.lor MAP_PRIVATE MAP_FIXED)) (-1) 0)
    else ret tt
  else ret tt.

(** The mapping of one load command at its fixed place. *)
Definition map_fixed (a : arch) (fd : Z) (l : wld_link_map) (c : loadcmd)
  : event :=
  EvMmap (wrap a (l_addr l + mapstart c)) (wrap a (mapend c - mapstart c))
    (prot c) (Z.lor MAP_FIXED (Z.lor MAP_COPY MAP_FILE)) fd (mapoff c).

(** [while (c < &loadcmds[nloadcmds])].  [at_postmap] is set when the loop
    is entered by [goto postmap]: the first round then starts at the
    label, after the mapping of the segment. *)
Fixpoint map_loop (a : arch) (g : globals) (fd : Z) (header : Ehdr)
  (cs : list loadcmd) (at_postmap : bool) (l : wld_link_map)
  : outcome wld_link_map :=
  match cs with
  | [] => ret l
  | c :: cs' =>
      let* _ :=
        (if at_postmap then ret tt
         else if mapstart c <? mapend c then emit (map_fixed a fd l c)
         else ret tt) in
      let l' := locate_phdr a header l c in
      let* _ := zero_fill a g l' c in
      map_loop a g fd header cs' false l'
  end.

(** From "Now process the load commands" to the end of the loop. *)
Definition map_segments (a : arch) (g : globals) (k : kernel) (name : list Z)
  (fd : Z) (header : Ehdr) (l : wld_link_map) (cmds : list loadcmd)
  : outcome wld_link_map :=
  match cmds with
  | [] => fatal_error a ("%s: no segments to load" ++ newline) [VStr name]
  | c :: _ =>
      let last_end := allocend (List.last cmds c) in
      let maplength := wrap a (last_end - mapstart c) in
      if e_type header =? ET_DYN then
        let mappref := mapstart c in
        let* _ :=
          emit (EvMmap mappref maplength (prot c) (Z.lor MAP_COPY MAP_FILE)
                  fd (mapoff c)) in
        let map_start :=
          wrap a (k_mmap k mappref maplength (prot c)
                    (Z.lor MAP_COPY MAP_FILE) fd (mapoff c)) in
        let l1 := with_l_map l map_start (wrap a (map_start + maplength)) in
        let l2 := with_l_addr l1 (wrap a (map_start - mapstart c)) in
        let* _ :=
          emit (EvMprotect (wrap a (l_addr l2 + mapend c))
                  (wrap a (last_end - mapend c)) PROT_NONE) in
        map_loop a g fd header cmds true l2
      else if (preloader_start g <? wrap a (mapstart c + maplength))
              && (mapstart c <=? preloader_end g) then
        fatal_error a ("%s: binary overlaps preloader (%p-%p)" ++ newline)
          [VStr name; VInt (mapstart c); VInt (wrap a (mapstart c + maplength))]
      else
        let map_start := wrap a (mapstart c + l_addr l) in
        let l1 := with_l_map l map_start (wrap a (map_start + maplength)) in
        map_loop a g fd header cmds false l1
  end.

Definition map_so_lib (a : arch) (g : globals) (k : kernel) (name : list Z)
  (l0 : wld_link_map) : outcome wld_link_map :=
  let* fb := read_header a k name in
  let fd := fst fb in
  let buf := snd fb in
  let header := read_ehdr a buf in
  let* st := scan_headers a g name buf l0 in
  let* l := map_segments a g k name fd header (fst st) (snd st) in
  if l_phdr l =? 0 then fatal_error a ("no program header" ++ newline) []
  else
    let l' := with_l_phdr l (wrap a (l_phdr l + l_addr l)) in
    let l'' := with_l_entry l' (wrap a (l_entry l' + l_addr l')) in
    let* _ := emit (EvClose fd) in
    ret l''.

(** Whether an event maps a file (a mapping without [MAP_ANON]). *)
Definition is_file_mapping (e : event) : bool :=
  match e with
  | EvMmap _ _ _ flags _ _ => Z.land flags MAP_ANON =? 0
  | _ => false
  end.

Definition is_mapping (e : event) : bool :=
  match e with
  | EvMmap _ _ _ _ _ _ => true
  | _ => false
  end.

Definition trace_of {A} (o : outcome A) : list event :=
  match o with
  | Returns tr _ => tr
  | Exits tr _ => tr
  | Undefined => []
  end.

(** *** Sample objects *)

(** The bytes of a little-endian field. *)
Fixpoint le_bytes (n : nat) (v : Z) : list Z :=
  match n with
  | O => []
  | S n' => v mod 256 :: le_bytes n' (v / 256)
  end.

(** An Elf64_Ehdr and an Elf64_Phdr as they lie in a file. *)
Definition elf64_ehdr (type machine entry phoff phnum : Z) : list Z :=
  elf_magic ++ [2; 1; 1; 0] ++ repeat 0 8%nat
  ++ le_bytes 2 type ++ le_bytes 2 machine ++ le_bytes 4 1
  ++ le_bytes 8 entry ++ le_bytes 8 phoff ++ le_bytes 8 0
  ++ le_bytes 4 0 ++ le_bytes 2 64 ++ le_bytes 2 56 ++ le_bytes 2 phnum
  ++ le_bytes 2 0 ++ le_bytes 2 0 ++ le_bytes 2 0.

Definition elf64_phdr (ph : Phdr) : list Z :=
  le_bytes 4 (p_type ph) ++ le_bytes 4 (p_flags ph)
  ++ le_bytes 8 (p_offset ph) ++ le_bytes 8 (p_vaddr ph)
  ++ le_bytes 8 (p_vaddr ph) ++ le_bytes 8 (p_filesz ph)
  ++ le_bytes 8 (p_memsz ph) ++ le_bytes 8 (p_align ph).

(** The first 2 KiB of a file that starts with [bytes]. *)
Definition first_2k (bytes : list Z) : list Z :=
  take 2048%nat (bytes ++ repeat 0 2048%nat).

(** A position-independent object with a text and a data segment. *)
Definition sample_text : Phdr :=
  {| p_type := PT_LOAD; p_flags := Z.lor PF_R PF_X; p_offset := 0;
     p_vaddr := 0; p_filesz := 0x1800; p_memsz := 0x1800;
     p_align := 0x1000 |}.

Definition sample_data : Phdr :=
  {| p_type := PT_LOAD; p_flags := Z.lor PF_R PF_W; p_offset := 0x2000;
     p_vaddr := 0x3000; p_filesz := 0x400; p_memsz := 0x2800;
     p_align := 0x1000 |}.

Definition sample_file (type phoff : Z) : list Z :=
  first_2k (elf64_ehdr type EM_X86_64 0x1040 phoff 2
            ++ elf64_phdr sample_text ++ elf64_phdr sample_data).

(** A kernel that opens every file as descriptor 3, reads [file] from it
    and places every mapping without a fixed address at [base]. *)
Definition sample_kernel (file : list Z) (base : Z) : kernel :=
  {| k_open := fun _ => 3;
     k_read := fun _ _ => Some file;
     k_mmap := fun start _ _ flags _ _ =>
                 if Z.land flags MAP_FIXED =? 0 then base else start |}.

Definition sample_globals : globals :=
  {| page_mask := 0xfff;
     preloader_start := 0x7d400000;
     preloader_end := 0x7d7f0000 |}.

Definition empty_link_map : wld_link_map :=
  {| l_addr := 0; l_ld := 0; l_phdr := 0; l_entry := 0; l_ldnum := 0;
     l_phnum := 0; l_map_start := 0; l_map_end := 0; l_interp := 0 |}.

Definition sample_name : list Z := bytes_of_string "wine".

(** A header whose program header offset makes the sum with the table
    size wrap around: one program header at offset 2^64 - 56. *)
Definition wrapping_file : list Z :=
  first_2k (elf64_ehdr ET_EXEC EM_X86_64 0x1040 (2 ^ 64 - 56) 1
            ++ elf64_phdr sample_text).




(** The mappings the loop makes for the load commands [cs]. *)
Definition fixed_mappings (a : arch) (fd : Z) (l : wld_link_map)
  (cs : list loadcmd) : list event :=
  List.map (map_fixed a fd l)
           (List.filter (fun c => mapstart c <? mapend c) cs).

(** The length of the sections to be loaded. *)
Definition map_length (a : arch) (c : loadcmd) (cmds : list loadcmd) : Z :=
  wrap a (allocend (List.last (c :: cmds) c) - mapstart c).


(** ** Memory *)

(** The address space, byte by byte; a cell is read modulo 256, so that
    every function from addresses to integers is a memory. *)
Definition mem := Z -> Z.

Definition load8 (m : mem) (p : Z) : Z := m p mod 256.

(** A little-endian value of [n] bytes. *)
Fixpoint load_bytes (n : nat) (m : mem) (p : Z) : Z :=
  match n with
  | O => 0
  | S n' => load8 m p + 256 * load_bytes n' m (p + 1)
  end.

Definition store_bytes (n : nat) (m : mem) (p v : Z) : mem :=
  fun q =>
    if (p <=? q) && (q <? p + Z.of_nat n)
    then (v / 256 ^ (q - p)) mod 256
    else m q.

Definition word_size (a : arch) : nat := Z.to_nat (word_bytes a).

Definition load_word (a : arch) (m : mem) (p : Z) : Z :=
  load_bytes (word_size a) m p.

Definition store_word (a : arch) (m : mem) (p v : Z) : mem :=
  store_bytes (word_size a) m p v.

Definition load32 (m : mem) (p : Z) : Z := load_bytes 4 m p.

(** ** The auxiliary vector: [set_auxiliary_values] *)

(** [struct wld_auxv]: two words. *)
Record wld_auxv := { a_type : Z; a_val : Z }.

Definition auxv_size (a : arch) : Z := 2 * word_bytes a.

Definition get_type (a : arch) (m : mem) (av i : Z) : Z :=
  load_word a m (av + i * auxv_size a).

Definition get_val (a : arch) (m : mem) (av i : Z) : Z :=
  load_word a m (av + i * auxv_size a + word_bytes a).

Definition set_type (a : arch) (m : mem) (av i v : Z) : mem :=
  store_word a m (av + i * auxv_size a) v.

Definition set_val (a : arch) (m : mem) (av i v : Z) : mem :=
  store_word a m (av + i * auxv_size a + word_bytes a) v.

(** [while (av[av_count].a_type != AT_NULL) av_count++;] *)
Fixpoint count_auxv (a : arch) (fuel : nat) (m : mem) (av av_count : Z)
  : option Z :=
  match fuel with
  | O => None
  | S fuel' =>
      if get_type a m av av_count =? AT_NULL then Some av_count
      else count_auxv a fuel' m av (av_count + 1)
  end.

(** [for (i = ...; i < av_count; i++) if (av[i].a_type == t) break;] with
    [k] entries left: the value of [i] after the loop. *)
Fixpoint find_type (a : arch) (k : nat) (m : mem) (av t i : Z) : Z :=
  match k with
  | O => i
  | S k' =>
      if get_type a m av i =? t then i
      else find_type a k' m av t (i + 1)
  end.

(** The loop that deletes unwanted values; the vectors [delete_av] and
    [new_av] are given by their entries, and a loop that does not meet
    an [AT_NULL] entry reads past the vector: [None]. *)
Fixpoint delete_loop (a : arch) (delete_av : list wld_auxv) (m : mem)
  (av av_count delete_count : Z) : option (mem * Z * Z) :=
  match delete_av with
  | [] => None
  | d :: rest =>
      if a_type d =? AT_NULL then Some (m, av_count, delete_count)
      else
        let i := find_type a (Z.to_nat av_count) m av (a_type d) 0 in
        if i <? av_count then
          let m1 := set_type a m av i (get_type a m av (av_count - 1)) in
          let m2 := set_val a m1 av i (get_val a m1 av (av_count - 1)) in
          let m3 := set_type a m2 av (av_count - 1) AT_NULL in
          delete_loop a rest m3 av (av_count - 1) (delete_count + 1)
        else delete_loop a rest m av av_count delete_count
  end.

(** The loop that counts the values of [new_av] that are not in [av]. *)
Fixpoint count_new (a : arch) (new_av : list wld_auxv) (m : mem)
  (av av_count new_count : Z) : option Z :=
  match new_av with
  | [] => None
  | e :: rest =>
      if a_type e =? AT_NULL then Some new_count
      else
        let i := find_type a (Z.to_nat av_count) m av (a_type e) 0 in
        count_new a rest m av av_count
          (if i =? av_count then new_count + 1 else new_count)
  end.

(** [for (i = 0; i < len; i++) dst[i] = src[i];] from index [i] on, with
    [n] bytes left. *)
Fixpoint copy_forward (n : nat) (m : mem) (dst src i : Z) : mem :=
  match n with
  | O => m
  | S n' =>
      copy_forward n'
        (fun q => if q =? dst + i then m (src + i) else m q) dst src (i + 1)
  end.

(** [for (i = len - 1; i >= 0; i--) dst[i] = src[i];] with [n = i + 1]. *)
Fixpoint copy_backward (n : nat) (m : mem) (dst src : Z) : mem :=
  match n with
  | O => m
  | S i =>
      copy_backward i
        (fun q => if q =? dst + Z.of_nat i then m (src + Z.of_nat i) else m q)
        dst src
  end.

(** The loop that sets the values. *)
Fixpoint set_loop (a : arch) (new_av : list wld_auxv) (m : mem)
  (av av_count : Z) : option (mem * Z) :=
  match new_av with
  | [] => None
  | e :: rest =>
      if a_type e =? AT_NULL then Some (m, av_count)
      else
        let i := find_type a (Z.to_nat av_count) m av (a_type e) 0 in
        if i <? av_count then
          set_loop a rest (set_val a m av i (a_val e)) av av_count
        else
          let m1 := set_type a m av av_count (a_type e) in
          let m2 := set_val a m1 av av_count (a_val e) in
          set_loop a rest m2 av (av_count + 1)
  end.

(** A value of type [int]. *)
Definition to_int (x : Z) : Z := (x + 2 ^ 31) mod 2 ^ 32 - 2 ^ 31.

(** What [set_auxiliary_values] leaves behind: the memory, the pointer
    written to [*stack], and the final values of its variables [av] and
    [av_count]. *)
Record auxv_state := {
  s_mem : mem;
  s_stack : Z;
  s_av : Z;
  s_count : Z
}.

(** The stack top after the shift: the net growth is taken off and the
    result is aligned down to 16 bytes. *)
Definition new_stack_top (a : arch) (src new_count delete_count : Z) : Z :=
  and_not a (wrap a (src - (new_count - delete_count) * auxv_size a)) 15.

(** [set_auxiliary_values]; [stack] is the value of [*stack] at the call.
    [None] when the fuel of the first loop runs out or a vector is read
    past its end. *)
Definition set_auxiliary_values (a : arch) (fuel : nat) (m : mem) (av : Z)
  (new_av delete_av : list wld_auxv) (stack : Z) : option auxv_state :=
  match count_auxv a fuel m av 0 with
  | None => None
  | Some n0 =>
      match delete_loop a delete_av m av n0 0 with
      | None => None
      | Some (m1, av_count, delete_count) =>
          match count_new a new_av m1 av av_count 0 with
          | None => None
          | Some new_count =>
              let src := stack in
              let dst := new_stack_top a src new_count delete_count in
              let len := to_int (av + (av_count + 1) * auxv_size a - src) in
              let m2 :=
                if dst <? src then copy_forward (Z.to_nat len) m1 dst src 0
                else if src <? dst then
                  copy_backward (Z.to_nat len) m1 dst src
                else m1 in
              let av' := av + (dst - src) in
              match set_loop a new_av m2 av' av_count with
              | None => None
              | Some (m3, av_count') =>
                  Some {| s_mem := m3; s_stack := dst;
                          s_av := av'; s_count := av_count' |}
              end
          end
      end
  end.

(** The first [n] entries of the vector at [av]. *)
Definition read_auxv (a : arch) (m : mem) (av : Z) (n : nat) : list wld_auxv :=
  List.map (fun i => {| a_type := get_type a m av (Z.of_nat i);
                        a_val := get_val a m av (Z.of_nat i) |})
           (List.seq 0 n).

(** *** The vector as a list *)

(** The index of the first entry of type [t]. *)
Fixpoint type_index (l : list wld_auxv) (t : Z) : option nat :=
  match l with
  | [] => None
  | e :: rest =>
      if a_type e =? t then Some 0%nat
      else option_map S (type_index rest t)
  end.

(** What one round of the deleting loop does to the entries: the first
    entry of type [t] is overwritten with the last entry, and the last
    entry is cut off. *)
Definition delete_entry (l : list wld_auxv) (t : Z) : list wld_auxv :=
  match type_index l t, l !! (length l - 1)%nat with
  | Some i, Some e => take (length l - 1) (<[i := e]> l)
  | _, _ => l
  end.

(** What one round of the setting loop does to the entries: the value of
    the first entry of the same type is overwritten, or the entry is
    appended. *)
Definition set_entry (a : arch) (l : list wld_auxv) (e : wld_auxv)
  : list wld_auxv :=
  let stored := {| a_type := wrap a (a_type e); a_val := wrap a (a_val e) |} in
  match type_index l (a_type e) with
  | Some i => <[i := stored]> l
  | None => l ++ [stored]
  end.

(** The entry of the vector at [av] with index [i]. *)
Definition entry_at (a : arch) (m : mem) (av : Z) (i : nat) : wld_auxv :=
  {| a_type := get_type a m av (Z.of_nat i);
     a_val := get_val a m av (Z.of_nat i) |}.

Definition types_of (l : list wld_auxv) : list Z := List.map a_type l.

(** A value that fits a word. *)
Definition is_word (a : arch) (x : Z) : Prop := 0 <= x < word_mod a.

(** How often the type [t] occurs in a list of types. *)
Definition occurrences (t : Z) (ts : list Z) : nat := count_occ Z.eq_dec ts t.

Definition word_typed (a : arch) (l : list wld_auxv) : Prop :=
  Forall (fun e => is_word a (a_type e)) l.

(** A vector placed in memory, for the examples. *)
Fixpoint put_auxv (a : arch) (m : mem) (av : Z) (l : list wld_auxv) : mem :=
  match l with
  | [] => m
  | e :: rest =>
      put_auxv a
        (store_word a (store_word a m av (a_type e))
           (av + word_bytes a) (a_val e))
        (av + auxv_size a) rest
  end.

Definition zero_mem : mem := fun _ => 0.

(** *** Sample vectors *)



Definition AT_PHDR : Z := 3.
Definition AT_PAGESZ : Z := 6.
Definition AT_UID : Z := 11.
Definition AT_EXECFN : Z := 31.

Definition null_entry : wld_auxv := {| a_type := AT_NULL; a_val := 0 |}.

(** A kernel vector of four entries on an x86-64 stack: the vector at
    0x7ffd0100, the stack top ([argc] removed) at 0x7ffd0008. *)
Definition sample_auxv : list wld_auxv :=
  [ {| a_type := AT_PHDR; a_val := 0x400040 |};
    {| a_type := AT_SYSINFO_EHDR; a_val := 0xfffe000 |};
    {| a_type := AT_PAGESZ; a_val := 4096 |};
    {| a_type := AT_EXECFN; a_val := 0x7ffd0fe0 |} ].

Definition sample_av : Z := 0x7ffd0100.
Definition sample_stack : Z := 0x7ffd0008.

Definition sample_mem : mem :=
  put_auxv X86_64 zero_mem sample_av (sample_auxv ++ [null_entry]).

Definition sample_delete : list wld_auxv :=
  [ {| a_type := AT_SYSINFO; a_val := 0 |};
    {| a_type := AT_SYSINFO_EHDR; a_val := 0 |};
    null_entry ].

Definition sample_new : list wld_auxv :=
  [ {| a_type := AT_PAGESZ; a_val := 8192 |}; null_entry ].

(** ** The symbol lookup: [find_symbol] *)

(** [wld_elf_hash] and [gnu_hash], on [unsigned int]. *)
Fixpoint elf_hash_loop (name : list Z) (hash : Z) : Z :=
  match name with
  | [] => hash
  | c :: name' =>
      let hash1 := (Z.shiftl hash 4 + c) mod 2 ^ 32 in
      let hi := Z.land hash1 0xf0000000 in
      let hash2 := Z.lxor hash1 hi in
      elf_hash_loop name' (Z.lxor hash2 (Z.shiftr hi 24))
  end.

Definition wld_elf_hash (name : list Z) : Z := elf_hash_loop name 0.

Fixpoint gnu_hash_loop (name : list Z) (h : Z) : Z :=
  match name with
  | [] => h
  | c :: name' => gnu_hash_loop name' ((h * 33 + c) mod 2 ^ 32)
  end.

Definition gnu_hash (name : list Z) : Z := gnu_hash_loop name 5381.

(** The value of a byte read through a [char], which is signed on both
    architectures. *)
Definition signed_char (b : Z) : Z := if b <? 128 then b else b - 256.

(** [wld_strcmp] of the string at [str1] in memory with the string
    [str2]: the loop ends no later than [str2] does. *)
Fixpoint wld_strcmp (m : mem) (str1 : Z) (str2 : list Z) : Z :=
  match str2 with
  | [] => signed_char (load8 m str1)
  | c :: str2' =>
      if load8 m str1 =? 0 then 0 - signed_char c
      else if load8 m str1 =? c then wld_strcmp m (str1 + 1) str2'
      else signed_char (load8 m str1) - signed_char c
  end.

(** The fields of [ElfW(Sym)] the source reads, at their offsets in
    Elf32_Sym and Elf64_Sym. *)
Definition sym_size (a : arch) : Z :=
  match a with I386 => 16 | X86_64 => 24 end.

Definition st_name (a : arch) (m : mem) (symtab idx : Z) : Z :=
  load32 m (symtab + idx * sym_size a).

Definition st_info (a : arch) (m : mem) (symtab idx : Z) : Z :=
  load8 m (symtab + idx * sym_size a
           + match a with I386 => 12 | X86_64 => 4 end).

Definition st_value (a : arch) (m : mem) (symtab idx : Z) : Z :=
  load_word a m (symtab + idx * sym_size a
                 + match a with I386 => 4 | X86_64 => 8 end).

(** The pointers [find_symbol] collects from the dynamic section. *)
Record dyn_tables := {
  strings : Z;
  symtab : Z;
  hashtab : Z;
  gnu_hashtab : Z
}.

Definition no_tables : dyn_tables :=
  {| strings := 0; symtab := 0; hashtab := 0; gnu_hashtab := 0 |}.

(** The loop over the program headers of the loaded image: the address
    of the dynamic section, or 0. *)
Fixpoint find_dynamic (a : arch) (m : mem) (l_addr : Z) (n : nat) (ph : Z)
  : Z :=
  match n with
  | O => 0
  | S n' =>
      if load32 m ph =? PT_DYNAMIC then
        wrap a (load_word a m (ph + match a with I386 => 8 | X86_64 => 16 end)
                + l_addr)
      else find_dynamic a m l_addr n' (ph + phdr_size a)
  end.

(** [while( dyn->d_tag )]; [None] when the fuel runs out. *)
Fixpoint read_dynamic (a : arch) (fuel : nat) (m : mem) (l_addr dyn : Z)
  (t : dyn_tables) : option dyn_tables :=
  match fuel with
  | O => None
  | S fuel' =>
      let tag := load_word a m dyn in
      if tag =? DT_NULL then Some t
      else
        let ptr := wrap a (load_word a m (dyn + word_bytes a) + l_addr) in
        let t1 :=
          if tag =? DT_STRTAB then
            {| strings := ptr; symtab := symtab t; hashtab := hashtab t;
               gnu_hashtab := gnu_hashtab t |}
          else t in
        let t2 :=
          if tag =? DT_SYMTAB then
            {| strings := strings t1; symtab := ptr; hashtab := hashtab t1;
               gnu_hashtab := gnu_hashtab t1 |}
          else t1 in
        let t3 :=
          if tag =? DT_HASH then
            {| strings := strings t2; symtab := symtab t2; hashtab := ptr;
               gnu_hashtab := gnu_hashtab t2 |}
          else t2 in
        let t4 :=
          if tag =? DT_GNU_HASH then
            {| strings := strings t3; symtab := symtab t3;
               hashtab := hashtab t3; gnu_hashtab := ptr |}
          else t3 in
        read_dynamic a fuel' m l_addr (dyn + 2 * word_bytes a) t4
  end.

(** The test both walks apply to the symbol [idx]: global binding, the
    requested type, the requested name. *)
Definition sym_matches (a : arch) (m : mem) (t : dyn_tables) (var : list Z)
  (type idx : Z) : bool :=
  (Z.shiftr (st_info a m (symtab t) idx) 4 =? STB_GLOBAL)
  && (Z.land (st_info a m (symtab t) idx) 0xf =? type)
  && (wld_strcmp m (strings t + st_name a m (symtab t) idx) var =? 0).

(** The word of the GNU chain for [idx], and the test of the hash it
    stores. *)
Definition gnu_chain_word (m : mem) (chains idx : Z) : Z :=
  load32 m (chains + 4 * idx).

Definition gnu_hash_matches (m : mem) (chains hash idx : Z) : bool :=
  Z.land (gnu_chain_word m chains idx) 0xfffffffe =? Z.land hash 0xfffffffe.

(** The [do ... while] walk of a GNU chain.  The result of a walk is the
    index found, if any; [None] when the fuel runs out. *)
Fixpoint gnu_chain_loop (a : arch) (fuel : nat) (m : mem) (t : dyn_tables)
  (chains hash : Z) (var : list Z) (type idx : Z) : option (option Z) :=
  match fuel with
  | O => None
  | S fuel' =>
      if gnu_hash_matches m chains hash idx && sym_matches a m t var type idx
      then Some (Some idx)
      else if Z.land (gnu_chain_word m chains idx) 1 =? 0 then
        gnu_chain_loop a fuel' m t chains hash var type ((idx + 1) mod 2 ^ 32)
      else Some None
  end.

(** Where the GNU hash table keeps its buckets and chains. *)
Definition gnu_buckets (a : arch) (m : mem) (t : dyn_tables) : Z :=
  gnu_hashtab t + 16 + load32 m (gnu_hashtab t + 8) * word_bytes a.

Definition gnu_chains (a : arch) (m : mem) (t : dyn_tables) : Z :=
  gnu_buckets a m t + 4 * load32 m (gnu_hashtab t)
  - 4 * load32 m (gnu_hashtab t + 4).

Definition gnu_first (a : arch) (m : mem) (t : dyn_tables) (var : list Z) : Z :=
  load32 m (gnu_buckets a m t
            + 4 * (gnu_hash var mod load32 m (gnu_hashtab t))).

(** The new style hash table; a table without buckets makes the source
    take a remainder by zero: [None]. *)
Definition lookup_gnu_hash (a : arch) (fuel : nat) (m : mem) (t : dyn_tables)
  (var : list Z) (type : Z) : option (option Z) :=
  if load32 m (gnu_hashtab t) =? 0 then None
  else if gnu_first a m t var =? 0 then Some None
  else
    gnu_chain_loop a fuel m t (gnu_chains a m t) (gnu_hash var) var type
      (gnu_first a m t var).

(** The [for] walk of a classical chain. *)
Fixpoint elf_chain_loop (a : arch) (fuel : nat) (m : mem) (t : dyn_tables)
  (chains : Z) (var : list Z) (type idx : Z) : option (option Z) :=
  match fuel with
  | O => None
  | S fuel' =>
      if idx =? 0 then Some None
      else if sym_matches a m t var type idx then Some (Some idx)
      else
        elf_chain_loop a fuel' m t chains var type (load32 m (chains + 4 * idx))
  end.

Definition elf_chains (m : mem) (t : dyn_tables) : Z :=
  hashtab t + 8 + 4 * load32 m (hashtab t).

Definition elf_first (m : mem) (t : dyn_tables) (var : list Z) : Z :=
  load32 m (hashtab t + 8 + 4 * (wld_elf_hash var mod load32 m (hashtab t))).

(** The old style hash table. *)
Definition lookup_elf_hash (a : arch) (fuel : nat) (m : mem) (t : dyn_tables)
  (var : list Z) (type : Z) : option (option Z) :=
  if load32 m (hashtab t) =? 0 then None
  else elf_chain_loop a fuel m t (elf_chains m t) var type (elf_first m t var).

(** The part of [find_symbol] after the dynamic section has been read:
    the pointer returned, 0 for NULL. *)
Definition lookup_symbol (a : arch) (fuel : nat) (m : mem) (t : dyn_tables)
  (l_addr : Z) (var : list Z) (type : Z) : option Z :=
  if (symtab t =? 0) || (strings t =? 0) then Some 0
  else
    let walk :=
      if negb (gnu_hashtab t =? 0) then lookup_gnu_hash a fuel m t var type
      else if negb (hashtab t =? 0) then lookup_elf_hash a fuel m t var type
      else Some None in
    match walk with
    | None => None
    | Some None => Some 0
    | Some (Some idx) => Some (wrap a (st_value a m (symtab t) idx + l_addr))
    end.

(** [find_symbol]: the pointer returned; [None] when the fuel runs out or
    the behaviour is undefined. *)
Definition dynamic_of (a : arch) (m : mem) (map : wld_link_map) : Z :=
  find_dynamic a m (l_addr map) (Z.to_nat (l_phnum map)) (l_phdr map).

Definition find_symbol (a : arch) (fuel : nat) (m : mem) (map : wld_link_map)
  (var : list Z) (type : Z) : option Z :=
  let dyn := dynamic_of a m map in
  if dyn =? 0 then Some 0
  else
    match read_dynamic a fuel m (l_addr map) dyn no_tables with
    | None => None
    | Some t => lookup_symbol a fuel m t (l_addr map) var type
    end.

(** *** The chains as lists *)

(** The symbol indexes a walk visits, in order; [None] when the chain
    does not end within the fuel. *)
Fixpoint elf_chain (fuel : nat) (m : mem) (chains idx : Z)
  : option (list Z) :=
  match fuel with
  | O => None
  | S fuel' =>
      if idx =? 0 then Some []
      else
        option_map (cons idx)
          (elf_chain fuel' m chains (load32 m (chains + 4 * idx)))
  end.

Fixpoint gnu_chain (fuel : nat) (m : mem) (chains idx : Z)
  : option (list Z) :=
  match fuel with
  | O => None
  | S fuel' =>
      if Z.land (gnu_chain_word m chains idx) 1 =? 0 then
        option_map (cons idx)
          (gnu_chain fuel' m chains ((idx + 1) mod 2 ^ 32))
      else Some [idx]
  end.

(** *** The lookup in the words of the specification *)

(** The string at [p] is [s]. *)
Fixpoint string_at (m : mem) (p : Z) (s : list Z) : bool :=
  match s with
  | [] => load8 m p =? 0
  | c :: s' => (load8 m p =? c) && string_at m (p + 1) s'
  end.

(** The symbol [idx] is a global symbol of the requested type and
    name. *)
Definition exports (a : arch) (m : mem) (t : dyn_tables) (var : list Z)
  (type idx : Z) : bool :=
  (Z.shiftr (st_info a m (symtab t) idx) 4 =? STB_GLOBAL)
  && (Z.land (st_info a m (symtab t) idx) 0xf =? type)
  && string_at m (strings t + st_name a m (symtab t) idx) var.

(** [st_value] plus the load bias of the symbol found, null for none. *)
Definition symbol_address (a : arch) (m : mem) (t : dyn_tables) (l_addr : Z)
  (found : option Z) : Z :=
  match found with
  | Some idx => wrap a (st_value a m (symtab t) idx + l_addr)
  | None => 0
  end.

(** The symbols a hash table lists for the name [var]: the chain of the
    bucket of its hash; in the GNU table, those whose stored hash is that
    of [var].  [None] when the table has no bucket or the chain does not
    end within the fuel. *)
Definition elf_indexed (fuel : nat) (m : mem) (t : dyn_tables) (var : list Z)
  : option (list Z) :=
  if load32 m (hashtab t) =? 0 then None
  else elf_chain fuel m (elf_chains m t) (elf_first m t var).

Definition gnu_indexed (a : arch) (fuel : nat) (m : mem) (t : dyn_tables)
  (var : list Z) : option (list Z) :=
  if load32 m (gnu_hashtab t) =? 0 then None
  else if gnu_first a m t var =? 0 then Some []
  else
    option_map
      (List.filter (gnu_hash_matches m (gnu_chains a m t) (gnu_hash var)))
      (gnu_chain fuel m (gnu_chains a m t) (gnu_first a m t var)).

(** The symbols listed by the table the lookup uses. *)
Definition indexed (a : arch) (fuel : nat) (m : mem) (t : dyn_tables)
  (var : list Z) : option (list Z) :=
  if negb (gnu_hashtab t =? 0) then gnu_indexed a fuel m t var
  else if negb (hashtab t =? 0) then elf_indexed fuel m t var
  else Some [].

(** The same tables without the GNU hash table. *)
Definition without_gnu (t : dyn_tables) : dyn_tables :=
  {| strings := strings t; symtab := symtab t; hashtab := hashtab t;
     gnu_hashtab := 0 |}.

(** *** Sample images *)

Fixpoint put_bytes (m : mem) (p : Z) (l : list Z) : mem :=
  match l with
  | [] => m
  | b :: rest => put_bytes (store_bytes 1 m p b) (p + 1) rest
  end.

(** An Elf64_Sym, an Elf64_Dyn and a table of 32-bit words as bytes. *)
Definition elf64_sym (name info value : Z) : list Z :=
  le_bytes 4 name ++ [info; 0] ++ le_bytes 2 1 ++ le_bytes 8 value
  ++ le_bytes 8 8.

Definition elf64_dyn (tag ptr : Z) : list Z := le_bytes 8 tag ++ le_bytes 8 ptr.

Definition words32 (l : list Z) : list Z := List.concat (List.map (le_bytes 4) l).

Definition global_object : Z := Z.lor (Z.shiftl STB_GLOBAL 4) STT_OBJECT.

Definition name_foo : list Z := bytes_of_string "foo".
Definition name_bar : list Z := bytes_of_string "bar".

(** An image loaded at [sample_bias] with two global objects, a string
    table at offset 0x1000, a symbol table at 0x2000, a classical hash
    table at 0x3000, a GNU hash table at 0x4000 (one bucket each), two
    dynamic sections at 0x5000 (classical table only) and 0x5800 (both
    tables), and a program header for each at 0x6000 and 0x6800.  The two
    symbols are named [n1] and [n2]. *)
Definition sample_bias : Z := 0x100000.

Definition sample_image (symbias : Z) (syms : list Z) (gnu_words : list Z)
  : mem :=
  let b := sample_bias in
  let m1 := put_bytes zero_mem (b + 0x1000)
              ([0] ++ name_foo ++ [0] ++ name_bar ++ [0]) in
  let m2 := put_bytes m1 (b + 0x2000) syms in
  let m3 := put_bytes m2 (b + 0x3000) (words32 [1; 3; 2; 0; 0; 1]) in
  let m4 := put_bytes m3 (b + 0x4000)
              (words32 [1; symbias; 1; 0; 0; 0] ++ words32 gnu_words) in
  let m5 := put_bytes m4 (b + 0x5000)
              (elf64_dyn DT_STRTAB 0x1000 ++ elf64_dyn DT_SYMTAB 0x2000
               ++ elf64_dyn DT_HASH 0x3000 ++ elf64_dyn DT_NULL 0) in
  let m6 := put_bytes m5 (b + 0x5800)
              (elf64_dyn DT_STRTAB 0x1000 ++ elf64_dyn DT_SYMTAB 0x2000
               ++ elf64_dyn DT_HASH 0x3000 ++ elf64_dyn DT_GNU_HASH 0x4000
               ++ elf64_dyn DT_NULL 0) in
  let dynamic vaddr :=
    elf64_phdr {| p_type := PT_DYNAMIC; p_flags := 6; p_offset := vaddr;
                  p_vaddr := vaddr; p_filesz := 0x50; p_memsz := 0x50;
                  p_align := 8 |} in
  put_bytes (put_bytes m6 (b + 0x6000) (dynamic 0x5000))
            (b + 0x6800) (dynamic 0x5800).

(** Two symbols with different names. *)
Definition image_two_names : mem :=
  sample_image 1
    (elf64_sym 0 0 0 ++ elf64_sym 1 global_object 0x4010
     ++ elf64_sym 5 global_object 0x4020)
    [1; Z.land (gnu_hash name_foo) 0xfffffffe; Z.lor (gnu_hash name_bar) 1].

(** Two global objects of the same name, as two versions of a symbol. *)
Definition image_same_name : mem :=
  sample_image 1
    (elf64_sym 0 0 0 ++ elf64_sym 1 global_object 0x4010
     ++ elf64_sym 1 global_object 0x4020)
    [1; Z.land (gnu_hash name_foo) 0xfffffffe; Z.lor (gnu_hash name_foo) 1].

(** An undefined (imported) global object [foo] below the first symbol of
    the GNU table, and a defined one, [bar]. *)
Definition image_import : mem :=
  sample_image 2
    (elf64_sym 0 0 0 ++ elf64_sym 1 global_object 0
     ++ elf64_sym 5 global_object 0x4020)
    [2; Z.lor (gnu_hash name_bar) 1].

(** The link maps of the sample image: with the classical table only,
    and with both tables. *)
Definition map_classical : wld_link_map :=
  {| l_addr := sample_bias; l_ld := 0; l_phdr := sample_bias + 0x6000;
     l_entry := 0; l_ldnum := 0; l_phnum := 1; l_map_start := 0;
     l_map_end := 0; l_interp := 0 |}.

Definition map_gnu : wld_link_map :=
  {| l_addr := sample_bias; l_ld := 0; l_phdr := sample_bias + 0x6800;
     l_entry := 0; l_ldnum := 0; l_phnum := 1; l_map_start := 0;
     l_map_end := 0; l_interp := 0 |}.

Definition sample_tables (gnu : bool) : dyn_tables :=
  {| strings := sample_bias + 0x1000; symtab := sample_bias + 0x2000;
     hashtab := sample_bias + 0x3000;
     gnu_hashtab := if gnu then sample_bias + 0x4000 else 0 |}.

(** ** The replacements for libc functions *)

(** [wld_strncmp] of the string at [str1] in memory with the string
    [str2]; [k] is the value of [len] after its first decrement, the
    number of times the loop may still advance. *)
Fixpoint strncmp_loop (k : nat) (m : mem) (str1 : Z) (str2 : list Z) : Z :=
  match k with
  | O => signed_char (load8 m str1) - signed_char (hd 0 str2)
  | S k' =>
      if negb (load8 m str1 =? 0) && (load8 m str1 =? hd 0 str2) then
        strncmp_loop k' m (str1 + 1) (tl str2)
      else signed_char (load8 m str1) - signed_char (hd 0 str2)
  end.

Definition wld_strncmp (m : mem) (str1 : Z) (str2 : list Z) (len : Z) : Z :=
  if len <=? 0 then 0
  else strncmp_loop (Z.to_nat (len - 1)) m str1 str2.

(** [wld_memset]: the memory it leaves and the pointer it returns. *)
Fixpoint memset_loop (len : nat) (m : mem) (dst val : Z) : mem :=
  match len with
  | O => m
  | S len' => memset_loop len' (store_bytes 1 m dst val) (dst + 1) val
  end.

Definition wld_memset (m : mem) (dest val len : Z) : mem * Z :=
  (memset_loop (Z.to_nat len) m dest val, dest).

(** The memory at [p] starts with the bytes [s]. *)
Fixpoint starts_with (m : mem) (p : Z) (s : list Z) : bool :=
  match s with
  | [] => true
  | c :: s' => (load8 m p =? c) && starts_with m (p + 1) s'
  end.

(** The C string at [p]: its bytes up to the NUL; [None] when no NUL is
    met within the fuel. *)
Fixpoint read_string (fuel : nat) (m : mem) (p : Z) : option (list Z) :=
  match fuel with
  | O => None
  | S fuel' =>
      if load8 m p =? 0 then Some []
      else option_map (cons (load8 m p)) (read_string fuel' m (p + 1))
  end.

(** ** Reading the auxiliary vector and the reservation list *)

(** [get_auxiliary]: [type] and [def_val] are [int]s, the result is the
    value converted to [int]; [None] when no [AT_NULL] entry is met
    within the fuel. *)
Fixpoint get_auxiliary (a : arch) (fuel : nat) (m : mem) (av type def_val : Z)
  : option Z :=
  match fuel with
  | O => None
  | S fuel' =>
      if get_type a m av 0 =? AT_NULL then Some def_val
      else if get_type a m av 0 =? wrap a type then
        Some (to_int (get_val a m av 0))
      else get_auxiliary a fuel' m (av + auxv_size a) type def_val
  end.

(** Whether [p] lies in the range [r]. *)
Definition covers (a : arch) (p : Z) (r : wine_preload_info) : bool :=
  (addr r <=? p) && (p <? wrap a (addr r + size r)).

(** [is_addr_reserved]; [None] when the loop runs past the end of the
    array. *)
Fixpoint is_addr_reserved (a : arch) (info : list wine_preload_info) (p : Z)
  : option bool :=
  match info with
  | [] => None
  | r :: rest =>
      if size r =? 0 then Some false
      else if covers a p r then Some true
      else is_addr_reserved a rest p
  end.


(** The value of the first entry of type [t] in a list of entries. *)
Fixpoint first_of_type (l : list wld_auxv) (t : Z) : option Z :=
  match l with
  | [] => None
  | e :: rest => if a_type e =? t then Some (a_val e) else first_of_type rest t
  end.

(** ** Parts of [wld_start] *)




(** A [long]: a word read as a signed number. *)
Definition to_long (a : arch) (x : Z) : Z :=
  if x <? word_mod a / 2 then x else x - word_mod a.

(** [static const char res[] = "WINEPRELOADRESERVE="]; its length is
    [sizeof(res) - 1]. *)
Definition reserve_key : list Z := bytes_of_string "WINEPRELOADRESERVE=".

(** The loop of [wld_start] that skips over the environment, from the
    entry [p] points to: the value of [reserve] and the final [p]; [None]
    when no null pointer is met within the fuel. *)
Fixpoint scan_environment (a : arch) (fuel : nat) (m : mem) (p reserve : Z)
  : option (Z * Z) :=
  match fuel with
  | O => None
  | S fuel' =>
      let s := load_word a m p in
      if s =? 0 then Some (reserve, p)
      else
        scan_environment a fuel' m (p + word_bytes a)
          (if wld_strncmp m s reserve_key (Z.of_nat (length reserve_key)) =? 0
           then s + Z.of_nat (length reserve_key)
           else reserve)
  end.

(** One round of the loop over the environment. *)
Definition take_reserve (m : mem) (reserve s : Z) : Z :=
  if starts_with m s reserve_key then s + Z.of_nat (length reserve_key)
  else reserve.

(** The message for a call without a binary to run. *)
Definition usage_message (argv0 : list Z) : list Z :=
  bytes_of_string "Usage: " ++ argv0
  ++ bytes_of_string (" wine_binary [args]" ++ newline).

(** What the first statements of [wld_start] compute: [pargc], [argv],
    [reserve], [av], and the globals [page_size], [page_mask],
    [preloader_start] and [preloader_end]. *)
Record start_frame := {
  f_pargc : Z;
  f_argv : Z;
  f_reserve : Z;
  f_av : Z;
  f_page_size : Z;
  f_globals : globals
}.

Definition fmt_usage : string := "Usage: %s wine_binary [args]" ++ newline.

(** [wld_start] up to the computation of the preloader's own range.
    [stack] is the argument of [wld_start]; [start_] and [end_] are the
    addresses of the symbols [_start] and [_end]. *)
Definition wld_start_arguments (a : arch) (fuel : nat) (m : mem)
  (stack start_ end_ : Z) : outcome start_frame :=
  let pargc := load_word a m stack in
  let argc := to_long a (load_word a m pargc) in
  let argv := pargc + word_bytes a in
  let* _ :=
    (if argc <? 2 then
       match read_string fuel m (load_word a m argv) with
       | Some argv0 => fatal_error a fmt_usage [VStr argv0]
       | None => Undefined
       end
     else ret tt) in
  match scan_environment a fuel m (argv + (argc + 1) * word_bytes a) 0 with
  | None => Undefined
  | Some (reserve, p) =>
      let av := p + word_bytes a in
      match get_auxiliary a fuel m av AT_PAGESZ 4096 with
      | None => Undefined
      | Some pagesz =>
          let page_size := wrap a pagesz in
          let page_mask := wrap a (page_size - 1) in
          ret {| f_pargc := pargc; f_argv := argv; f_reserve := reserve;
                 f_av := av; f_page_size := page_size;
                 f_globals :=
                   {| page_mask := page_mask;
                      preloader_start :=
                        wrap a (start_ - Z.land start_ page_mask);
                      preloader_end :=
                        and_not a (wrap a (end_ + page_mask)) page_mask |} |}
      end
  end.

(** [MAP_NORESERVE] of <sys/mman.h> (Linux), and the flags of the
    reservations. *)
Definition MAP_NORESERVE : Z := 0x4000.

Definition reserve_flags : Z :=
  Z.lor MAP_FIXED (Z.lor MAP_PRIVATE (Z.lor MAP_ANON MAP_NORESERVE)).

Definition fmt_reserve_warning : string :=
  "preloader: Warning: failed to reserve range %p-%p" ++ newline.

(** The test that keeps a range which holds the stack (from [pargc] to
    [av]) out of the reservations, and the test of the result of
    [wld_mmap]. *)
Definition holds_stack (a : arch) (pargc av : Z) (r : wine_preload_info)
  : bool :=
  (addr r <=? av) && (pargc <=? wrap a (addr r + size r)).

Definition reserve_call (r : wine_preload_info) : event :=
  EvMmap (addr r) (size r) PROT_NONE reserve_flags (-1) 0.

Definition mmap_fails (a : arch) (k : kernel) (r : wine_preload_info) : bool :=
  wrap a (k_mmap k (addr r) (size r) PROT_NONE reserve_flags (-1) 0)
  =? wrap a (-1).

(** The loop of [wld_start] that reserves the ranges, at index [i].  A
    round either moves to the next entry or removes a range, so the loop
    ends or leaves the array before a fuel of one more than the number
    of entries runs out. *)
Fixpoint reserve_loop (a : arch) (fuel : nat) (k : kernel) (pargc av : Z)
  (info : list wine_preload_info) (i : nat)
  : outcome (list wine_preload_info) :=
  match fuel with
  | O => Undefined
  | S fuel' =>
      match info !! i with
      | None => Undefined
      | Some r =>
          if size r =? 0 then ret info
          else if holds_stack a pargc av r then
            match remove_preload_range info i with
            | None => Undefined
            | Some info' => reserve_loop a fuel' k pargc av info' i
            end
          else
            let* _ := emit (reserve_call r) in
            if mmap_fails a k r then
              let* _ :=
                (if 0x10000 <=? addr r then
                   wld_printf a fmt_reserve_warning
                     [VInt (addr r); VInt (wrap a (addr r + size r))]
                 else ret tt) in
              match remove_preload_range info i with
              | None => Undefined
              | Some info' => reserve_loop a fuel' k pargc av info' i
              end
            else reserve_loop a fuel' k pargc av info (S i)
      end
  end.

Definition reserve_ranges (a : arch) (k : kernel) (pargc av : Z)
  (info : list wine_preload_info) : outcome (list wine_preload_info) :=
  reserve_loop a (S (length info)) k pargc av info 0.

(** *** The reservations in the words of the ranges *)

(** The message of the warning for a range. *)
Definition reserve_warning (a : arch) (r : wine_preload_info) : list Z :=
  bytes_of_string "preloader: Warning: failed to reserve range "
  ++ hex_ulong a (addr r) ++ bytes_of_string "-"
  ++ hex_ulong a (wrap a (addr r + size r)) ++ bytes_of_string newline.

(** The calls made for a range, and whether it stays in the list. *)
Definition reserve_calls (a : arch) (k : kernel) (pargc av : Z)
  (r : wine_preload_info) : list event :=
  if holds_stack a pargc av r then []
  else
    reserve_call r
    :: (if mmap_fails a k r && (0x10000 <=? addr r)
        then [EvWrite 2 (reserve_warning a r)] else []).

Definition stays_reserved (a : arch) (k : kernel) (pargc av : Z)
  (r : wine_preload_info) : bool :=
  negb (holds_stack a pargc av r) && negb (mmap_fails a k r).

(** The pointers of a null-terminated array of [n] pointers at [p]. *)
Definition read_words (a : arch) (m : mem) (p : Z) (n : nat) : list Z :=
  List.map (fun i => load_word a m (p + Z.of_nat i * word_bytes a))
           (List.seq 0 n).

(** *** A sample stack *)

Fixpoint put_words (a : arch) (m : mem) (p : Z) (l : list Z) : mem :=
  match l with
  | [] => m
  | w :: rest => put_words a (store_word a m p w) (p + word_bytes a) rest
  end.

(** An x86-64 stack as the kernel leaves it: the argument of [wld_start]
    at 0x7ffd0000 points to [argc] at 0x7ffd0010, followed by two
    arguments, two environment strings and the vector [sample_auxv]. *)
Definition sample_stack_mem : mem :=
  let m1 := put_words X86_64 zero_mem 0x7ffd0000 [0x7ffd0010] in
  let m2 := put_words X86_64 m1 0x7ffd0010
              [2; 0x7ffd0f00; 0x7ffd0f10; 0;
               0x7ffd0f20; 0x7ffd0f30; 0] in
  let m3 := put_auxv X86_64 m2 0x7ffd0048 (sample_auxv ++ [null_entry]) in
  let m4 := put_bytes m3 0x7ffd0f00 (bytes_of_string "wine-preloader") in
  let m5 := put_bytes m4 0x7ffd0f10 (bytes_of_string "/usr/bin/wine") in
  let m6 := put_bytes m5 0x7ffd0f20 (bytes_of_string "HOME=/root") in
  put_bytes m6 0x7ffd0f30
    (bytes_of_string "WINEPRELOADRESERVE=68000000-70000000").

(** A kernel that refuses to map the page at address 0 and the low
    memory area, and maps every other range where it is asked to. *)
Definition refusing_kernel : kernel :=
  {| k_open := fun _ => 3;
     k_read := fun _ _ => None;
     k_mmap := fun start _ _ _ _ _ =>
                 if (start =? 0) || (start =? 0x110000) then -1 else start |}.

(** ** [set_process_name] *)

(** [for (p = name = argv[1]; *p; p++) if (p[0] == '/' && p[1]) name = p + 1;]
    from [p] on: the final [name]. *)
Fixpoint name_loop (fuel : nat) (m : mem) (p name : Z) : option Z :=
  match fuel with
  | O => None
  | S fuel' =>
      if load8 m p =? 0 then Some name
      else
        name_loop fuel' m (p + 1)
          (if (load8 m p =? ch "/") && negb (load8 m (p + 1) =? 0)
           then p + 1 else name)
  end.

(** [while ( *end ) end++;] *)
Fixpoint string_end (fuel : nat) (m : mem) (end_ : Z) : option Z :=
  match fuel with
  | O => None
  | S fuel' =>
      if load8 m end_ =? 0 then Some end_
      else string_end fuel' m (end_ + 1)
  end.

(** [for (p = argv[1]; p <= end; p++) *(p - off) = *p;] with [n] rounds
    left. *)
Fixpoint shift_down (n : nat) (m : mem) (p off : Z) : mem :=
  match n with
  | O => m
  | S n' =>
      shift_down n' (fun q => if q =? p - off then m p else m q) (p + 1) off
  end.

(** [for (i = 1; i < argc; i++) argv[i] -= off;] from [i] on, with [n]
    rounds left. *)
Fixpoint adjust_argv (a : arch) (n : nat) (m : mem) (argv i off : Z) : mem :=
  match n with
  | O => m
  | S n' =>
      adjust_argv a n'
        (store_word a m (argv + i * word_bytes a)
           (load_word a m (argv + i * word_bytes a) - off))
        argv (i + 1) off
  end.

(** [set_process_name]: the pointer passed to [prctl(PR_SET_NAME)] and
    the memory the function leaves.  [prctl] is what the kernel answers
    for a name; [None] when a string does not end within the fuel. *)
Definition set_process_name (a : arch) (fuel : nat) (prctl : Z -> Z) (m : mem)
  (argc argv : Z) : option (Z * mem) :=
  let argv1 := load_word a m (argv + word_bytes a) in
  match name_loop fuel m argv1 argv1 with
  | None => None
  | Some name =>
      if prctl name =? -1 then Some (name, m)
      else
        match string_end fuel m
                (load_word a m (argv + (argc - 1) * word_bytes a)) with
        | None => None
        | Some end_ =>
            let off := (argv1 - load_word a m argv) mod 2 ^ 32 in
            let m1 := shift_down (Z.to_nat (end_ - argv1 + 1)) m argv1 off in
            let m2 := fst (wld_memset m1 (end_ - off) 0 off) in
            Some (name, adjust_argv a (Z.to_nat (argc - 1)) m2 argv 1 off)
        end
  end.

(** The position after the last ['/'] of a string that is followed by
    another character, if there is one. *)
Fixpoint after_last_slash (s : list Z) : option nat :=
  match s with
  | [] => None
  | c :: s' =>
      match after_last_slash s' with
      | Some k => Some (S k)
      | None =>
          if (c =? ch "/") && negb (bool_decide (s' = [])) then Some 1%nat
          else None
      end
  end.

(** ** [wld_start]: the values handed to the dynamic linker *)

(** *** The new auxiliary values *)

(** More types of <elf.h>. *)
Definition AT_PHENT : Z := 4.
Definition AT_PHNUM : Z := 5.
Definition AT_BASE : Z := 7.
Definition AT_FLAGS : Z := 8.
Definition AT_ENTRY : Z := 9.
Definition AT_EUID : Z := 12.
Definition AT_GID : Z := 13.
Definition AT_EGID : Z := 14.

(** What [wld_getuid], [wld_geteuid], [wld_getgid] and [wld_getegid]
    answer. *)
Record process_ids := { id_uid : Z; id_euid : Z; id_gid : Z; id_egid : Z }.

(** The array [new_av] as the [SET_NEW_AV] statements of [wld_start]
    fill it; the values taken from the kernel's vector pass through the
    [int] that [get_auxiliary] returns. *)
Definition new_auxv (a : arch) (fuel : nat) (m : mem) (av : Z)
  (main_binary_map ld_so_map : wld_link_map) (page_size : Z)
  (ids : process_ids) : option (list wld_auxv) :=
  match get_auxiliary a fuel m av AT_FLAGS 0,
        get_auxiliary a fuel m av AT_UID (to_int (id_uid ids)),
        get_auxiliary a fuel m av AT_EUID (to_int (id_euid ids)),
        get_auxiliary a fuel m av AT_GID (to_int (id_gid ids)),
        get_auxiliary a fuel m av AT_EGID (to_int (id_egid ids)) with
  | Some flags, Some uid, Some euid, Some gid, Some egid =>
      Some [ {| a_type := AT_PHDR; a_val := l_phdr main_binary_map |};
             {| a_type := AT_PHENT; a_val := phdr_size a |};
             {| a_type := AT_PHNUM; a_val := l_phnum main_binary_map |};
             {| a_type := AT_PAGESZ; a_val := page_size |};
             {| a_type := AT_BASE; a_val := l_addr ld_so_map |};
             {| a_type := AT_FLAGS; a_val := flags |};
             {| a_type := AT_ENTRY; a_val := l_entry main_binary_map |};
             {| a_type := AT_UID; a_val := uid |};
             {| a_type := AT_EUID; a_val := euid |};
             {| a_type := AT_GID; a_val := gid |};
             {| a_type := AT_EGID; a_val := egid |};
             {| a_type := AT_NULL; a_val := 0 |} ]
  | _, _, _, _, _ => None
  end.

(** The types [wld_start] sets. *)
Definition new_types : list Z :=
  [AT_PHDR; AT_PHENT; AT_PHNUM; AT_PAGESZ; AT_BASE; AT_FLAGS; AT_ENTRY;
   AT_UID; AT_EUID; AT_GID; AT_EGID].

(** The value of the first entry of type [t] after it has passed through
    an [int], with [def_val] for a missing entry. *)
Definition int_value (entries : list wld_auxv) (t def_val : Z) : Z :=
  match first_of_type entries t with
  | Some v => to_int v
  | None => def_val
  end.

(** A kernel vector as Linux hands it to a process of user 1000, with
    the vDSO at 0x7ffff7fc1000; the binary [wld_start] has loaded at
    0x7d400000 and its interpreter at 0x7f000000. *)
Definition kernel_auxv : list wld_auxv :=
  [ {| a_type := AT_SYSINFO_EHDR; a_val := 0x7ffff7fc1000 |};
    {| a_type := AT_PAGESZ; a_val := 4096 |};
    {| a_type := AT_PHDR; a_val := 0x7c400040 |};
    {| a_type := AT_PHENT; a_val := 56 |};
    {| a_type := AT_PHNUM; a_val := 9 |};
    {| a_type := AT_BASE; a_val := 0 |};
    {| a_type := AT_FLAGS; a_val := 0 |};
    {| a_type := AT_ENTRY; a_val := 0x7c400ce0 |};
    {| a_type := AT_UID; a_val := 1000 |};
    {| a_type := AT_EUID; a_val := 1000 |};
    {| a_type := AT_GID; a_val := 100 |};
    {| a_type := AT_EGID; a_val := 100 |};
    {| a_type := AT_EXECFN; a_val := 0x7ffd0fe0 |} ].

Definition kernel_mem : mem :=
  put_auxv X86_64 zero_mem sample_av (kernel_auxv ++ [null_entry]).

Definition loaded_binary : wld_link_map :=
  {| l_addr := 0; l_ld := 0x7d601e00; l_phdr := 0x7d400040;
     l_entry := 0x7d400890; l_ldnum := 28; l_phnum := 10;
     l_map_start := 0x7d400000; l_map_end := 0x7d603000;
     l_interp := 0x7d400270 |}.

Definition loaded_interpreter : wld_link_map :=
  {| l_addr := 0x7f000000; l_ld := 0x7f226e00; l_phdr := 0x7f000040;
     l_entry := 0x7f001090; l_ldnum := 23; l_phnum := 7;
     l_map_start := 0x7f000000; l_map_end := 0x7f229000;
     l_interp := 0 |}.

Definition root_ids : process_ids :=
  {| id_uid := 0; id_euid := 0; id_gid := 0; id_egid := 0 |}.

(* ================================================================== *)
(** * Part II: properties *)
(* ================================================================== *)

(** ** [wld_vsprintf] *)

Lemma wld_vsprintf_plain a c fmt args :
  c <> ch_percent ->
  wld_vsprintf a (c :: fmt) args = option_map (cons c) (wld_vsprintf a fmt args).
Proof.
  intros Hc. cbn [wld_vsprintf]. destruct (c =? ch_percent) eqn:E.
  - apply Z.eqb_eq in E. congruence.
  - reflexivity.
Qed.

Lemma wld_vsprintf_conversion a c v d rest args :
  wld_vsprintf a (ch_percent :: conv_spec c ++ d :: rest) (v :: args) =
  match conv_output a c v with
  | Some out => option_map (fun r => out ++ d :: r) (wld_vsprintf a rest args)
  | None => None
  end.
Proof. destruct c, v; reflexivity. Qed.

Lemma wld_vsprintf_spec_chars a c rest args :
  wld_vsprintf a (conv_spec c ++ rest) args =
  option_map (app (conv_spec c)) (wld_vsprintf a rest args).
Proof.
  destruct c; cbn [conv_spec app];
    repeat (rewrite wld_vsprintf_plain by (vm_compute; discriminate));
    destruct (wld_vsprintf a rest args); reflexivity.
Qed.

(** C10.  Once a conversion ([%x], [%lx], [%p] or [%s]) has been carried
    out, the character [d] that follows it is copied to the output as it
    is, whatever it is, and formatting resumes after [d].  In particular,
    when a second conversion follows at once, its ['%'] and its conversion
    characters are output literally and its argument is not consumed: the
    arguments left for the rest of the format are still [args]. *)
Theorem wld_vsprintf_copies_char_after_conversion :
  forall a c v d rest args,
    wld_vsprintf a (ch_percent :: conv_spec c ++ d :: rest) (v :: args) =
    match conv_output a c v with
    | Some out =>
        option_map (fun r => out ++ d :: r) (wld_vsprintf a rest args)
    | None => None
    end
    /\
    forall c2,
      wld_vsprintf a
        (ch_percent :: conv_spec c ++ ch_percent :: conv_spec c2 ++ rest)
        (v :: args) =
      match conv_output a c v with
      | Some out =>
          option_map (fun r => out ++ ch_percent :: conv_spec c2 ++ r)
                     (wld_vsprintf a rest args)
      | None => None
      end.
Proof.
  intros a c v d rest args. split.
  - apply wld_vsprintf_conversion.
  - intros c2. rewrite wld_vsprintf_conversion.
    destruct (conv_output a c v) as [out|]; [|reflexivity].
    rewrite wld_vsprintf_spec_chars.
    destruct (wld_vsprintf a rest args); reflexivity.
Qed.

(** The format ["%x%s!"] of the claim, on both architectures. *)
Example wld_vsprintf_x_then_s :
  forall a,
    wld_vsprintf a (bytes_of_string "%x%s!") [VInt 255; VStr (bytes_of_string "abc")]
    = Some (bytes_of_string "000000ff%s!").
Proof. intros []; reflexivity. Qed.

(** ** [remove_preload_range] *)

Lemma insert_middle {A} (l1 l2 : list A) (x y : A) :
  <[length l1 := y]> (l1 ++ x :: l2) = l1 ++ y :: l2.
Proof.
  rewrite insert_app_r_alt by lia. rewrite Nat.sub_diag. reflexivity.
Qed.

Lemma remove_loop_shift fuel (pre mid rest : list wine_preload_info) x t :
  Forall (fun r => size r <> 0) (x :: mid) ->
  size t = 0 ->
  (length mid < fuel)%nat ->
  remove_loop (S fuel) (pre ++ x :: mid ++ t :: rest) (length pre)
  = Some (pre ++ mid ++ t :: t :: rest).
Proof.
  revert fuel pre x. induction mid as [|y mid IH]; intros fuel pre x Hnz Ht Hf.
  - cbn [app]. cbn [remove_loop].
    rewrite list_lookup_middle by reflexivity.
    inversion Hnz as [|? ? Hx _]; subst.
    destruct (size x =? 0) eqn:E; [apply Z.eqb_eq in E; contradiction|].
    replace (pre ++ x :: t :: rest) with ((pre ++ [x]) ++ t :: rest)
      by (rewrite <- app_assoc; reflexivity).
    rewrite list_lookup_middle by (rewrite length_app; cbn; lia).
    rewrite <- app_assoc. cbn [app].
    rewrite insert_middle.
    destruct fuel as [|fuel]; [lia|]. cbn [remove_loop].
    replace (pre ++ t :: t :: rest) with ((pre ++ [t]) ++ t :: rest)
      by (rewrite <- app_assoc; reflexivity).
    rewrite list_lookup_middle by (rewrite length_app; cbn; lia).
    rewrite Ht. cbn. reflexivity.
  - cbn [app]. cbn [remove_loop].
    rewrite list_lookup_middle by reflexivity.
    inversion Hnz as [|? ? Hx Hrest]; subst.
    destruct (size x =? 0) eqn:E; [apply Z.eqb_eq in E; contradiction|].
    replace (pre ++ x :: y :: mid ++ t :: rest)
      with ((pre ++ [x]) ++ y :: mid ++ t :: rest)
      by (rewrite <- app_assoc; reflexivity).
    rewrite list_lookup_middle by (rewrite length_app; cbn; lia).
    rewrite <- app_assoc. cbn [app].
    rewrite insert_middle.
    destruct fuel as [|fuel]; [cbn in Hf; lia|].
    replace (pre ++ y :: y :: mid ++ t :: rest)
      with ((pre ++ [y]) ++ y :: mid ++ t :: rest)
      by (rewrite <- app_assoc; reflexivity).
    replace (S (length pre)) with (length (pre ++ [y]))
      by (rewrite length_app; cbn; lia).
    rewrite IH; [|assumption|assumption|cbn in Hf; lia].
    rewrite <- app_assoc. reflexivity.
Qed.

Lemma ranges_of_app (l : list wine_preload_info) t rest :
  Forall (fun r => size r <> 0) l ->
  size t = 0 ->
  ranges_of (l ++ t :: rest) = l.
Proof.
  intros Hl Ht. induction Hl as [|x l Hx Hl IH]; cbn.
  - rewrite Ht. reflexivity.
  - destruct (size x =? 0) eqn:E; [apply Z.eqb_eq in E; contradiction|].
    rewrite IH. reflexivity.
Qed.

(** C9.  For a list [l ++ t :: rest] whose ranges [l] all have a size and
    whose entry [t] is the terminator, and for an index [i] of a range:
    [remove_preload_range] returns, every entry after [i] -- the
    terminator included -- has moved down one slot, the entries before
    [i] are untouched, and the ranges of the list are those of [l]
    without the one at [i], in their order, still followed by a
    terminator. *)
Theorem remove_preload_range_shifts_tail_down :
  forall (l : list wine_preload_info) t rest (i : nat),
    Forall (fun r => size r <> 0) l ->
    size t = 0 ->
    (i < length l)%nat ->
    exists info',
      remove_preload_range (l ++ t :: rest) i = Some info'
      /\ info' = take i l ++ drop (S i) l ++ t :: t :: rest
      /\ (forall j, (i <= j < length l)%nat ->
                    info' !! j = (l ++ t :: rest) !! S j)
      /\ (forall j, (j < i)%nat -> info' !! j = (l ++ t :: rest) !! j)
      /\ ranges_of info' = take i l ++ drop (S i) l
      /\ length info' = length (l ++ t :: rest).
Proof.
  intros l t rest i Hl Ht Hi.
  destruct (lookup_lt_is_Some_2 l i Hi) as [x Hx].
  pose proof (take_drop_middle l i x Hx) as Hsplit.
  assert (Hlen : length (take i l) = i) by (rewrite length_take; lia).
  assert (Hnz : Forall (fun r => size r <> 0) (x :: drop (S i) l)).
  { rewrite <- Hsplit in Hl. apply Forall_app in Hl. tauto. }
  exists (take i l ++ drop (S i) l ++ t :: t :: rest).
  split; [|split; [reflexivity|]].
  - unfold remove_preload_range.
    rewrite <- Hsplit at 2. rewrite <- app_assoc. cbn [app].
    rewrite <- Hlen at 3.
    apply remove_loop_shift; [assumption|assumption|].
    rewrite length_app, length_drop. cbn. lia.
  - repeat split.
    + intros j Hj.
      replace (l ++ t :: rest)
        with ((take i l ++ x :: drop (S i) l) ++ t :: rest)
        by (rewrite Hsplit; reflexivity).
      rewrite <- app_assoc. cbn [app].
      rewrite lookup_app_r by lia.
      rewrite (lookup_app_r (take i l)) by lia. rewrite Hlen.
      replace (S j - i)%nat with (S (j - i)) by lia. cbn [lookup list_lookup].
      assert (Hd : length (drop (S i) l) = (length l - S i)%nat)
        by apply length_drop.
      destruct (decide (j - i < length (drop (S i) l))%nat) as [Hlt|Hge].
      * rewrite (lookup_app_l _ (t :: t :: rest)) by lia.
        rewrite (lookup_app_l _ (t :: rest)) by lia. reflexivity.
      * rewrite (lookup_app_r _ (t :: t :: rest)) by lia.
        rewrite (lookup_app_r _ (t :: rest)) by lia.
        replace (j - i - length (drop (S i) l))%nat with 0%nat by lia.
        reflexivity.
    + intros j Hj.
      replace (l ++ t :: rest)
        with ((take i l ++ x :: drop (S i) l) ++ t :: rest)
        by (rewrite Hsplit; reflexivity).
      rewrite <- app_assoc.
      rewrite !lookup_app_l by lia. reflexivity.
    + rewrite app_assoc. apply ranges_of_app; [|assumption].
      rewrite <- Hsplit in Hl. apply Forall_app in Hl as [H1 H2].
      apply Forall_app. split; [assumption|].
      inversion H2; assumption.
    + replace (l ++ t :: rest)
        with ((take i l ++ x :: drop (S i) l) ++ t :: rest)
        by (rewrite Hsplit; reflexivity).
      repeat (rewrite length_app; cbn [length]). lia.
Qed.

Lemma remove_preload_range_shifts_tail_down_witness :
  exists info',
    remove_preload_range (preload_info_init I386) 1 = Some info'
    /\ ranges_of info'
       = [ {| addr := 0x00000000; size := 0x00001000 |};
           {| addr := 0x00010000; size := 0x00100000 |};
           {| addr := 0x00110000; size := 0x67ef0000 |};
           {| addr := 0x7f000000; size := 0x03000000 |} ].
Proof.
  destruct (remove_preload_range_shifts_tail_down
              (take 5 (preload_info_init I386))
              {| addr := 0; size := 0 |}
              [ {| addr := 0; size := 0 |} ] 1%nat)
    as (info' & H1 & _ & _ & _ & H2 & _).
  - repeat constructor; cbn; lia.
  - reflexivity.
  - cbn. lia.
  - exists info'. split; [exact H1 | exact H2].
Defined.

(** At the terminator itself nothing is removed. *)
Lemma remove_preload_range_at_end (l : list wine_preload_info) t rest :
  size t = 0 ->
  remove_preload_range (l ++ t :: rest) (length l) = Some (l ++ t :: rest).
Proof.
  intros Ht. unfold remove_preload_range. cbn [remove_loop].
  rewrite list_lookup_middle by reflexivity. rewrite Ht. reflexivity.
Qed.

(** ** [preload_reserve] *)

Lemma wrap_wrap_digit a r d :
  wrap a (wrap a r * 16 + d) = wrap a (r * 16 + d).
Proof.
  unfold wrap.
  rewrite <- (Zplus_mod_idemp_l (r mod word_mod a * 16)).
  rewrite Zmult_mod_idemp_l.
  rewrite Zplus_mod_idemp_l. reflexivity.
Qed.

Lemma parse_loop_digits a g s rest r start first :
  all_hex s ->
  parse_loop a g (s ++ rest) (wrap a r) start first
  = parse_loop a g rest (wrap a (hex_number_from s r)) start first.
Proof.
  intros Hs. revert r. induction Hs as [|c s Hc Hs IH]; intros r.
  - reflexivity.
  - cbn [app parse_loop hex_number_from]. unfold is_hex_digit in Hc.
    unfold digit_value.
    destruct (in_range (ch "0") (ch "9") c).
    { rewrite <- IH. f_equal. rewrite <- wrap_wrap_digit. f_equal. lia. }
    destruct (in_range (ch "a") (ch "f") c).
    { rewrite <- IH. f_equal. rewrite <- wrap_wrap_digit. f_equal. lia. }
    destruct (in_range (ch "A") (ch "F") c); [|discriminate].
    rewrite <- IH. f_equal. rewrite <- wrap_wrap_digit. f_equal. lia.
Qed.

Lemma wrap_0 a : wrap a 0 = 0.
Proof. destruct a; reflexivity. Qed.

Lemma parse_loop_all_hex a g s start first :
  all_hex s ->
  parse_loop a g s 0 start first = Some (wrap a (hex_number s), start, first).
Proof.
  intros Hs. rewrite <- (wrap_0 a) at 1.
  rewrite <- (app_nil_r s) at 1.
  rewrite parse_loop_digits by assumption. reflexivity.
Qed.

Lemma dash_not_hex : is_hex_digit (ch "-") = false.
Proof. reflexivity. Qed.

Lemma parse_loop_other a g c rest r start first :
  is_hex_digit c = false ->
  parse_loop a g (c :: rest) r start first
  = if c =? ch "-" then
      if first then parse_loop a g rest 0 (and_not a r (page_mask g)) false
      else None
    else None.
Proof.
  intros Hc. unfold is_hex_digit in Hc. cbn [parse_loop].
  destruct (in_range (ch "0") (ch "9") c); [discriminate|].
  destruct (in_range (ch "a") (ch "f") c); [discriminate|].
  destruct (in_range (ch "A") (ch "F") c); [discriminate|].
  reflexivity.
Qed.

Lemma parse_loop_range a g s1 s2 :
  all_hex s1 -> all_hex s2 ->
  parse_loop a g (s1 ++ ch "-" :: s2) 0 0 true
  = Some (wrap a (hex_number s2), parsed_start a g s1, false).
Proof.
  intros H1 H2. rewrite <- (wrap_0 a) at 1.
  rewrite parse_loop_digits by assumption.
  rewrite parse_loop_other by apply dash_not_hex.
  rewrite Z.eqb_refl. apply parse_loop_all_hex. assumption.
Qed.




(** One round of the low-memory loop: a range that does not end beyond
    the static range is discarded; otherwise its start is raised to the
    end of the static range when it lies below it. *)
Lemma low_memory_loop_step a r rest i start end_ :
  size r <> 0 ->
  addr r <= low_memory_limit ->
  low_memory_loop a (r :: rest) i start end_
  = if end_ <=? wrap a (addr r + size r) then Some (i, (0, 0))
    else low_memory_loop a rest (S i)
           (Z.max start (wrap a (addr r + size r))) end_.
Proof.
  intros Hs Ha. cbn [low_memory_loop].
  destruct (Z.eqb_spec (size r) 0); [contradiction|].
  destruct (Z.ltb_spec low_memory_limit (addr r)); [lia|].
  destruct (end_ <=? wrap a (addr r + size r)); [reflexivity|].
  f_equal. destruct (Z.ltb_spec start (wrap a (addr r + size r))); lia.
Qed.

Ltac split_ifs :=
  repeat match goal with
         | |- context [if ?x <=? ?y then _ else _] =>
             destruct (Z.leb_spec x y)
         | |- context [if ?x <? ?y then _ else _] =>
             destruct (Z.ltb_spec x y)
         end.

(** C7.  On the initial list of either architecture, whatever the bounds
    [start] and [end_] that reach the low-memory loop: a range that ends
    at or below the end of the low memory area -- so every range that
    lies inside a low static range, and every range that overlaps only
    the lower part of one -- is recorded with address 0 and size 0;
    any other range is recorded with its start raised to the end of the
    low memory area when it lay below it; nothing else in the list
    changes. *)
Theorem record_range_low_memory_areas :
  forall a start end_,
    record_range a (preload_info_init a) start end_
    = Returns []
        (<[reserve_slot a :=
             if end_ <=? low_memory_end then {| addr := 0; size := 0 |}
             else {| addr := Z.max start low_memory_end;
                     size := wrap a (end_ - Z.max start low_memory_end) |}]>
           (preload_info_init a)).
Proof.
  intros a start end_. unfold record_range, low_memory_end.
  destruct a; cbn [preload_info_init];
    repeat (rewrite low_memory_loop_step by (cbn; unfold low_memory_limit; lia);
            cbn [addr size]);
    repeat match goal with
           | |- context [wrap ?a (?x + ?y)] =>
               let v := eval vm_compute in (wrap a (x + y)) in
               change (wrap a (x + y)) with v
           end;
    repeat match goal with
           | |- context [Z.max (Z.max ?x ?c1) ?c2] =>
               replace (Z.max (Z.max x c1) c2) with (Z.max x c2) by lia
           end;
    split_ifs; try lia; reflexivity.
Qed.

Lemma bind_ret {A B} (x : A) (k : A -> outcome B) : bind (ret x) k = k x.
Proof. unfold bind, ret. destruct (k x); reflexivity. Qed.

Lemma sanity_checks_pass a g start end_ :
  start < end_ ->
  ~ (preloader_start g < end_ /\ start <= preloader_end g) ->
  sanity_checks a g start end_ = ret (start, end_).
Proof.
  intros Hlt Hno. unfold sanity_checks.
  destruct (Z.leb_spec end_ start); [lia|].
  destruct (Z.ltb_spec (preloader_start g) end_);
    destruct (Z.leb_spec start (preloader_end g)); cbn [andb];
    try reflexivity.
  exfalso. apply Hno. split; assumption.
Qed.

Lemma preload_reserve_range a g s1 s2 info :
  all_hex s1 -> all_hex s2 ->
  preload_reserve a g (s1 ++ ch "-" :: s2) info
  = (let* se :=
       sanity_checks a g (parsed_start a g s1) (parsed_end a g s2) in
     record_range a info (fst se) (snd se)).
Proof.
  intros H1 H2. unfold preload_reserve.
  rewrite parse_loop_range by assumption. reflexivity.
Qed.



Lemma all_hex_decide (s : list Z) :
  forallb is_hex_digit s = true -> all_hex s.
Proof.
  intros H. apply Forall_forall. intros c Hc.
  rewrite forallb_forall in H. apply H. apply list_elem_of_In. exact Hc.
Qed.



(** The claim promised that a range which partially overlaps a low static
    range has its start raised to the end of that range.  The range
    [0-20000] overlaps the DOS area [0x10000, 0x110000) without lying
    inside it; it is not recorded from 0x110000 but discarded.  The range
    [20000-200000] overlaps the DOS area from inside; it is discarded
    too, by the low memory area that follows. *)
Lemma preload_reserve_overlap_not_truncated :
  parsed_start X86_64 sample_globals (bytes_of_string "0") = 0
  /\ parsed_end X86_64 sample_globals (bytes_of_string "20000") = 0x20000
  /\ preload_info_init X86_64 !! 0%nat
     = Some {| addr := 0x10000; size := 0x100000 |}
  /\ (exists info',
         preload_reserve X86_64 sample_globals (bytes_of_string "0-20000")
           (preload_info_init X86_64) = Returns [] info'
         /\ info' !! reserve_slot X86_64 = Some {| addr := 0; size := 0 |})
  /\ (exists info',
         preload_reserve I386 sample_globals (bytes_of_string "20000-200000")
           (preload_info_init I386) = Returns [] info'
         /\ info' !! reserve_slot I386 = Some {| addr := 0; size := 0 |}).
Proof.
  repeat split; try (vm_compute; reflexivity);
    eexists; split; vm_compute; reflexivity.
Qed.

(** ** [map_so_lib] *)

Lemma bytes_of_string_app (s1 s2 : string) :
  bytes_of_string (s1 ++ s2) = bytes_of_string s1 ++ bytes_of_string s2.
Proof.
  unfold bytes_of_string. induction s1 as [|c s1 IH]; cbn; [reflexivity|].
  f_equal. exact IH.
Qed.

Lemma wld_vsprintf_literal a (l : list Z) args :
  forallb (fun c => negb (c =? ch_percent)) l = true ->
  wld_vsprintf a l args = Some l.
Proof.
  induction l as [|c l IH]; intros H; [reflexivity|].
  cbn [forallb] in H. apply andb_true_iff in H as [Hc Hl].
  rewrite wld_vsprintf_plain.
  - rewrite IH by assumption. reflexivity.
  - intros ->. rewrite Z.eqb_refl in Hc. discriminate.
Qed.

(** A fatal error whose format is ["%s"] followed by plain text. *)
Lemma fatal_error_with_name {A} a (fmt : string) (name tail : list Z) d :
  bytes_of_string fmt = ch_percent :: ch_s :: d :: tail ->
  forallb (fun c => negb (c =? ch_percent)) tail = true ->
  (length name + length tail < 255)%nat ->
  @fatal_error A a fmt [VStr name] = Exits [EvWrite 2 (name ++ d :: tail)] 1.
Proof.
  intros Hfmt Htail Hlen. unfold fatal_error, format_message.
  rewrite Hfmt.
  change (ch_percent :: ch_s :: d :: tail)
    with (ch_percent :: conv_spec ConvS ++ d :: tail).
  rewrite wld_vsprintf_conversion. cbn [conv_output].
  rewrite wld_vsprintf_literal by assumption. cbn [option_map].
  rewrite length_app. cbn [length]. unfold buffer_size.
  destruct (Z.ltb_spec (Z.of_nat (length name + S (length tail))) 256);
    [reflexivity | lia].
Qed.

Lemma fatal_error_never_returns {A} a fmt args tr (x : A) :
  fatal_error a fmt args <> Returns tr x.
Proof. unfold fatal_error. destruct (format_message a fmt args); discriminate. Qed.

Lemma bind_returns {A B} (o : outcome A) (k : A -> outcome B) tr y :
  bind o k = Returns tr y ->
  exists tr1 x tr2, o = Returns tr1 x /\ k x = Returns tr2 y /\ tr = tr1 ++ tr2.
Proof.
  unfold bind. destruct o as [tr1 x| |]; [|discriminate|discriminate].
  destruct (k x) as [tr2 y'| |] eqn:E; [|discriminate|discriminate].
  intros H. inversion H; subst. exists tr1, x, tr2. auto.
Qed.

(** What [read_header] has checked when it returns. *)
Lemma read_header_returns a k name tr fd buf :
  read_header a k name = Returns tr (fd, buf) ->
  tr = [EvOpen name; EvRead fd header_buf_size]
  /\ fd = k_open k name
  /\ k_read k fd header_buf_size = Some buf
  /\ Z.of_nat (length buf) = header_buf_size
  /\ e_ident (read_ehdr a buf) = elf_magic
  /\ e_machine (read_ehdr a buf) = build_machine a
  /\ e_phnum (read_ehdr a buf) <= max_loadcmds
  /\ wrap a (e_phoff (read_ehdr a buf)
             + e_phnum (read_ehdr a buf) * phdr_size a) <= header_buf_size.
Proof.
  unfold read_header. intros H.
  apply bind_returns in H as (tr1 & [] & tr2 & H1 & H2 & ->).
  inversion H1; subst tr1; clear H1.
  destruct (k_open k name =? -1);
    [exfalso; eapply fatal_error_never_returns; eassumption|].
  apply bind_returns in H2 as (tr1 & [] & tr3 & H1 & H2 & ->).
  inversion H1; subst tr1; clear H1.
  destruct (k_read k (k_open k name) header_buf_size) as [buf'|] eqn:Hread;
    [|exfalso; eapply fatal_error_never_returns; eassumption].
  destruct (Z.eqb_spec (Z.of_nat (length buf')) header_buf_size) as [Hlen|];
    cbn [negb] in H2;
    [|exfalso; eapply fatal_error_never_returns; eassumption].
  destruct (bool_decide (e_ident (read_ehdr a buf') = elf_magic)) eqn:Hmagic;
    cbn [negb] in H2;
    [|exfalso; eapply fatal_error_never_returns; eassumption].
  apply bool_decide_eq_true in Hmagic.
  destruct (Z.eqb_spec (e_machine (read_ehdr a buf')) (build_machine a));
    cbn [negb] in H2;
    [|exfalso; eapply fatal_error_never_returns; eassumption].
  destruct (Z.ltb_spec max_loadcmds (e_phnum (read_ehdr a buf')));
    [exfalso; eapply fatal_error_never_returns; eassumption|].
  match type of H2 with
  | (if ?x <? ?y then _ else _) = _ => destruct (Z.ltb_spec x y)
  end; [exfalso; eapply fatal_error_never_returns; eassumption|].
  unfold ret in H2. inversion H2; subst.
  cbn [app]. repeat split; assumption.
Qed.


Ltac fatal_with_name :=
  erewrite fatal_error_with_name;
  [ | reflexivity | reflexivity
    | match goal with
      | |- (length _ + length ?t < _)%nat =>
          let v := eval vm_compute in (length t) in
          change (length t) with v; lia
      end ].


(** C8 (the code departs from the claim).  The header of [wrapping_file]
    places its one program header at offset 2^64 - 56, so that the table
    would end 2^64 bytes into a buffer of 2 KiB; the sum the source
    compares with the size of the buffer wraps around to 0, the header is
    accepted, and the program header is then read outside the buffer. *)
Theorem read_header_accepts_wrapping_offset :
  e_phoff (read_ehdr X86_64 wrapping_file) = 2 ^ 64 - 56
  /\ e_phnum (read_ehdr X86_64 wrapping_file) = 1
  /\ header_buf_size
     < e_phoff (read_ehdr X86_64 wrapping_file)
       + e_phnum (read_ehdr X86_64 wrapping_file) * phdr_size X86_64
  /\ read_header X86_64 (sample_kernel wrapping_file 0) sample_name
     = Returns [EvOpen sample_name; EvRead 3 header_buf_size]
               (3, wrapping_file)
  /\ map_so_lib X86_64 sample_globals (sample_kernel wrapping_file 0)
       sample_name empty_link_map
     = Undefined.
Proof. repeat split; vm_compute; reflexivity. Qed.

Lemma scan_phdr_silent a g name ph st tr st' :
  scan_phdr a g name ph st = Returns tr st' -> tr = [].
Proof.
  unfold scan_phdr. destruct st as [l cmds].
  repeat match goal with
         | |- (if ?b then _ else _) = _ -> _ => destruct b
         end;
    unfold ret; intros H;
    try (inversion H; reflexivity);
    exfalso; eapply fatal_error_never_returns; eassumption.
Qed.

Lemma scan_phdrs_silent a g name buf n off st tr st' :
  scan_phdrs a g name buf n off st = Returns tr st' -> tr = [].
Proof.
  revert off st tr. induction n as [|n IH]; intros off st tr H.
  - inversion H. reflexivity.
  - cbn [scan_phdrs] in H.
    destruct (read_phdr a buf off); [|discriminate].
    apply bind_returns in H as (tr1 & st1 & tr2 & H1 & H2 & ->).
    apply scan_phdr_silent in H1. apply IH in H2. subst. reflexivity.
Qed.

Lemma scan_headers_silent a g name buf l0 tr st :
  scan_headers a g name buf l0 = Returns tr st -> tr = [].
Proof. apply scan_phdrs_silent. Qed.

(** [zero_fill] returns, maps no file, and reads only [l_addr]. *)
Lemma zero_fill_returns a g l c :
  exists tr,
    zero_fill a g l c = Returns tr tt
    /\ List.filter is_file_mapping tr = []
    /\ forall l', l_addr l' = l_addr l -> zero_fill a g l' c = Returns tr tt.
Proof.
  unfold zero_fill.
  destruct (dataend c <? allocend c).
  2: { exists []. repeat split. }
  match goal with
  | |- context [if ?x <? ?y then bind _ _ else ret tt] =>
      destruct (x <? y) eqn:E1
  end;
    destruct (Z.land (prot c) PROT_WRITE =? 0) eqn:E2;
    match goal with
    | |- context [if ?x <? ?y then emit _ else ret tt] =>
        destruct (x <? y) eqn:E3
    end;
    eexists; (split; [reflexivity|]);
    (split; [reflexivity|]);
    intros l' ->; rewrite ?E1, ?E2, ?E3; reflexivity.
Qed.

Lemma locate_phdr_l_addr a header l c :
  l_addr (locate_phdr a header l c) = l_addr l.
Proof. unfold locate_phdr. destruct (_ && _); reflexivity. Qed.

Lemma map_fixed_l_addr a fd l l' c :
  l_addr l' = l_addr l -> map_fixed a fd l' c = map_fixed a fd l c.
Proof. intros H. unfold map_fixed. rewrite H. reflexivity. Qed.

Lemma map_fixed_is_file a fd l c : is_file_mapping (map_fixed a fd l c) = true.
Proof. reflexivity. Qed.

(** The loop over the load commands returns; it leaves [l_addr] alone;
    the files it maps are one fixed mapping for each command that has
    something to map -- the first command excepted when the loop is
    entered at [postmap]. *)
Lemma map_loop_returns a g fd header cs :
  forall at_postmap l l0,
    l_addr l = l_addr l0 ->
    exists tr l',
      map_loop a g fd header cs at_postmap l = Returns tr l'
      /\ l_addr l' = l_addr l0
      /\ List.filter is_file_mapping tr
         = fixed_mappings a fd l0 (if at_postmap then tl cs else cs).
Proof.
  induction cs as [|c cs IH]; intros at_postmap l l0 Hl.
  - exists [], l. destruct at_postmap; repeat split; assumption.
  - cbn [map_loop].
    destruct (zero_fill_returns a g (locate_phdr a header l c) c)
      as (trz & Hz & Hfz & _).
    destruct (IH false (locate_phdr a header l c) l0) as (tr & l' & Hr & Ha & Hf).
    { rewrite locate_phdr_l_addr. exact Hl. }
    destruct at_postmap.
    + exists (trz ++ tr), l'. rewrite bind_ret. unfold bind at 1.
      rewrite Hz. rewrite Hr. cbn [tl].
      repeat split; [assumption|].
      rewrite List.filter_app, Hfz, Hf. reflexivity.
    + unfold fixed_mappings. cbn [List.filter].
      destruct (mapstart c <? mapend c).
      * exists (map_fixed a fd l c :: trz ++ tr), l'.
        unfold bind at 1. cbn [emit]. unfold bind at 1.
        rewrite Hz, Hr. repeat split; [assumption|].
        cbn [app List.filter List.map]. rewrite map_fixed_is_file.
        rewrite List.filter_app, Hfz, Hf.
        rewrite (map_fixed_l_addr a fd l0 l c Hl). reflexivity.
      * exists (trz ++ tr), l'. rewrite bind_ret. unfold bind at 1.
        rewrite Hz, Hr. repeat split; [assumption|].
        rewrite List.filter_app, Hfz, Hf. reflexivity.
Qed.

Lemma no_program_header_exits {A} a :
  exists msg, @fatal_error A a ("no program header" ++ newline) []
              = Exits [EvWrite 2 msg] 1.
Proof. eexists. reflexivity. Qed.

(** The outcome of [map_so_lib] once the header has been read and
    scanned, in terms of the outcome of [map_segments]. *)
Lemma map_so_lib_after_scan a g k name l0 tr1 fd buf tr2 l cmds tr3 l3 :
  read_header a k name = Returns tr1 (fd, buf) ->
  scan_headers a g name buf l0 = Returns tr2 (l, cmds) ->
  map_segments a g k name fd (read_ehdr a buf) l cmds = Returns tr3 l3 ->
  (exists msg,
      map_so_lib a g k name l0
      = Exits (tr1 ++ tr2 ++ tr3 ++ [EvWrite 2 msg]) 1)
  \/ (exists l',
         map_so_lib a g k name l0
         = Returns (tr1 ++ tr2 ++ tr3 ++ [EvClose fd]) l'
         /\ l_addr l' = l_addr l3).
Proof.
  intros H1 H2 H3. unfold map_so_lib. rewrite H1.
  cbn [bind fst snd]. rewrite H2. cbn [bind fst snd]. rewrite H3.
  cbn [bind].
  destruct (l_phdr l3 =? 0).
  - left. destruct (@no_program_header_exits wld_link_map a) as [msg ->].
    exists msg. reflexivity.
  - right. eexists. cbn [bind emit ret app]. split; reflexivity.
Qed.

(** C1.  For a position-independent object whose header has been read
    and scanned into the load commands [c :: cmds]: [map_so_lib] does
    map the whole extent once, privately, at an address the kernel
    chooses, and takes the load bias from the address returned; the first
    load command is not mapped again; but every further load command that
    has file contents is mapped from the file once more, at its fixed
    place inside the extent.  These are all the file mappings made. *)
Theorem map_so_lib_dyn_file_mappings :
  forall a g k name l0 tr1 fd buf tr2 l c cmds,
    read_header a k name = Returns tr1 (fd, buf) ->
    scan_headers a g name buf l0 = Returns tr2 (l, c :: cmds) ->
    e_type (read_ehdr a buf) = ET_DYN ->
    let whole :=
      EvMmap (mapstart c) (map_length a c cmds) (prot c)
             (Z.lor MAP_COPY MAP_FILE) fd (mapoff c) in
    let base :=
      wrap a (k_mmap k (mapstart c) (map_length a c cmds) (prot c)
                (Z.lor MAP_COPY MAP_FILE) fd (mapoff c)) in
    let bias := wrap a (base - mapstart c) in
    map_so_lib a g k name l0 <> Undefined
    /\ List.filter is_file_mapping (trace_of (map_so_lib a g k name l0))
       = whole :: fixed_mappings a fd (with_l_addr l bias) cmds
    /\ (forall tr l', map_so_lib a g k name l0 = Returns tr l' ->
                      l_addr l' = bias).
Proof.
  intros a g k name l0 tr1 fd buf tr2 l c cmds Hread Hscan Hdyn
         whole base bias.
  pose proof (read_header_returns _ _ _ _ _ _ Hread) as (Htr1 & _).
  pose proof (scan_headers_silent _ _ _ _ _ _ _ Hscan) as Htr2.
  set (l2 := with_l_addr
               (with_l_map l base (wrap a (base + map_length a c cmds)))
               bias).
  destruct (map_loop_returns a g fd (read_ehdr a buf) (c :: cmds) true l2
              (with_l_addr l bias))
    as (tr & l' & Hloop & Hbias & Hfiles); [reflexivity|].
  assert (Hseg :
    map_segments a g k name fd (read_ehdr a buf) l (c :: cmds)
    = Returns (whole
               :: EvMprotect (wrap a (bias + mapend c))
                    (wrap a (allocend (List.last (c :: cmds) c) - mapend c))
                    PROT_NONE
               :: tr) l').
  { unfold map_segments. rewrite Hdyn, Z.eqb_refl.
    fold (map_length a c cmds). fold base. fold bias. fold l2.
    cbn [bind emit]. cbn [l_addr with_l_addr]. rewrite Hloop. reflexivity. }
  assert (Hfilter : forall last_event,
    is_file_mapping last_event = false ->
    List.filter is_file_mapping
      (tr1 ++ tr2 ++ (whole :: EvMprotect (wrap a (bias + mapend c))
                        (wrap a (allocend (List.last (c :: cmds) c) - mapend c))
                        PROT_NONE :: tr) ++ [last_event])
    = whole :: fixed_mappings a fd (with_l_addr l bias) cmds).
  { intros e He. subst tr1 tr2.
    cbn [app List.filter is_file_mapping]. unfold whole.
    change (Z.land (Z.lor MAP_COPY MAP_FILE) MAP_ANON =? 0) with true.
    cbv iota. f_equal. rewrite List.filter_app, Hfiles.
    cbn [List.filter tl]. rewrite He. apply app_nil_r. }
  destruct (map_so_lib_after_scan _ _ _ _ _ _ _ _ _ _ _ _ _ Hread Hscan Hseg)
    as [[msg Hexit] | (l'' & Hret & Haddr)].
  - rewrite Hexit. repeat split.
    + discriminate.
    + cbn [trace_of]. apply Hfilter. reflexivity.
    + intros ? ? H. discriminate H.
  - rewrite Hret. repeat split.
    + discriminate.
    + cbn [trace_of]. apply Hfilter. reflexivity.
    + intros ? ? H. inversion H; subst. rewrite Haddr, Hbias. reflexivity.
Qed.

Lemma map_so_lib_dyn_file_mappings_witness :
  List.filter is_file_mapping
    (trace_of (map_so_lib X86_64 sample_globals
                 (sample_kernel (sample_file ET_DYN 64) 0x7f0000000000)
                 sample_name empty_link_map))
  = [ EvMmap 0 0x5800 5 2 3 0;
      EvMmap 0x7f0000003000 0x1000 3 0x12 3 0x2000 ].
Proof.
  pose proof (map_so_lib_dyn_file_mappings X86_64 sample_globals
                (sample_kernel (sample_file ET_DYN 64) 0x7f0000000000)
                sample_name empty_link_map
                [EvOpen sample_name; EvRead 3 header_buf_size] 3
                (sample_file ET_DYN 64) []) as H.
  edestruct H as (_ & Hfiles & _).
  - vm_compute. reflexivity.
  - vm_compute. reflexivity.
  - vm_compute. reflexivity.
  - rewrite Hfiles. vm_compute. reflexivity.
Defined.

(** The claim promised no further file mapping after the first.  The
    sample object has a text and a data segment; its data segment is
    mapped from the file a second time, with [MAP_FIXED], inside the
    extent the first mapping reserved. *)
Lemma map_so_lib_dyn_maps_second_segment :
  List.filter is_file_mapping
    (trace_of (map_so_lib X86_64 sample_globals
                 (sample_kernel (sample_file ET_DYN 64) 0x7f0000000000)
                 sample_name empty_link_map))
  = [ EvMmap 0 0x5800 PROT_READ_EXEC MAP_PRIVATE 3 0;
      EvMmap 0x7f0000003000 0x1000 PROT_READ_WRITE
             (Z.lor MAP_FIXED MAP_PRIVATE) 3 0x2000 ].
Proof. vm_compute. reflexivity. Qed.

Lemma length_hex_loop n x : length (hex_loop n x) = n.
Proof. induction n as [|n IH]; cbn [hex_loop length]; congruence. Qed.

Lemma length_hex_ulong a x : (length (hex_ulong a x) <= 16)%nat.
Proof. unfold hex_ulong. rewrite length_hex_loop. destruct a; cbn; lia. Qed.






(** ** Memory *)

Lemma load_bytes_ext n (m1 m2 : mem) p q :
  (forall i, 0 <= i < Z.of_nat n -> m1 (p + i) = m2 (q + i)) ->
  load_bytes n m1 p = load_bytes n m2 q.
Proof.
  revert p q. induction n as [|n IH]; intros p q H; [reflexivity|].
  cbn [load_bytes]. unfold load8.
  rewrite <- (Z.add_0_r p) at 1. rewrite <- (Z.add_0_r q) at 1.
  rewrite (H 0) by lia. f_equal. f_equal.
  apply IH. intros i Hi.
  replace (p + 1 + i) with (p + (1 + i)) by lia.
  replace (q + 1 + i) with (q + (1 + i)) by lia.
  apply H. lia.
Qed.

Lemma load_bytes_range n m p : 0 <= load_bytes n m p < 256 ^ Z.of_nat n.
Proof.
  revert p. induction n as [|n IH]; intros p.
  - cbn. lia.
  - cbn [load_bytes]. unfold load8.
    rewrite Nat2Z.inj_succ, Z.pow_succ_r by lia.
    pose proof (Z.mod_pos_bound (m p) 256 ltac:(lia)).
    specialize (IH (p + 1)). lia.
Qed.

Lemma store_bytes_outside n m p v q :
  q < p \/ p + Z.of_nat n <= q -> store_bytes n m p v q = m q.
Proof.
  intros H. unfold store_bytes.
  destruct (Z.leb_spec p q); destruct (Z.ltb_spec q (p + Z.of_nat n));
    cbn [andb]; try reflexivity; lia.
Qed.

Lemma load_store_other n k m p v q :
  q + Z.of_nat k <= p \/ p + Z.of_nat n <= q ->
  load_bytes k (store_bytes n m p v) q = load_bytes k m q.
Proof.
  intros H. apply load_bytes_ext. intros i Hi.
  apply store_bytes_outside. lia.
Qed.

Lemma load_bytes_of_value n (m : mem) p v :
  (forall i, 0 <= i < Z.of_nat n -> m (p + i) mod 256 = (v / 256 ^ i) mod 256) ->
  load_bytes n m p = v mod 256 ^ Z.of_nat n.
Proof.
  revert p v. induction n as [|n IH]; intros p v H.
  - cbn. symmetry. apply Z.mod_1_r.
  - cbn [load_bytes]. unfold load8.
    rewrite <- (Z.add_0_r p) at 1. rewrite (H 0) by lia.
    rewrite Z.pow_0_r, Z.div_1_r.
    rewrite (IH (p + 1) (v / 256)).
    + rewrite Nat2Z.inj_succ, Z.pow_succ_r by lia.
      symmetry. apply Z.rem_mul_r; lia.
    + intros i Hi. replace (p + 1 + i) with (p + (1 + i)) by lia.
      rewrite H by lia.
      rewrite Z.pow_add_r, Z.pow_1_r by lia.
      rewrite Z.div_div by lia. reflexivity.
Qed.

Lemma load_store_same n m p v :
  load_bytes n (store_bytes n m p v) p = v mod 256 ^ Z.of_nat n.
Proof.
  apply load_bytes_of_value. intros i Hi. unfold store_bytes.
  destruct (Z.leb_spec p (p + i)); [|lia].
  destruct (Z.ltb_spec (p + i) (p + Z.of_nat n)); [|lia].
  cbn [andb]. replace (p + i - p) with i by lia.
  apply Z.mod_mod. lia.
Qed.

Lemma word_size_bytes a : Z.of_nat (word_size a) = word_bytes a.
Proof. destruct a; reflexivity. Qed.

Lemma word_mod_bytes a : 256 ^ Z.of_nat (word_size a) = word_mod a.
Proof. destruct a; reflexivity. Qed.

Lemma word_bytes_pos a : 0 < word_bytes a.
Proof. destruct a; reflexivity. Qed.

Lemma load_word_range a m p : is_word a (load_word a m p).
Proof.
  unfold is_word, load_word. rewrite <- word_mod_bytes. apply load_bytes_range.
Qed.

Lemma wrap_word a x : is_word a x -> wrap a x = x.
Proof. intros H. apply Z.mod_small. exact H. Qed.

(** *** Entries of the vector *)

Section Entries.
Variable a : arch.

Lemma get_type_set_type m av i j v :
  get_type a (set_type a m av i v) av j
  = if i =? j then wrap a v else get_type a m av j.
Proof.
  unfold get_type, set_type, load_word, store_word, auxv_size.
  pose proof (word_bytes_pos a). pose proof (word_size_bytes a).
  destruct (Z.eqb_spec i j) as [->|Hne].
  - rewrite load_store_same. rewrite word_mod_bytes. reflexivity.
  - apply load_store_other.
    first [ destruct (Z_lt_le_dec j i); [left | right]; nia
          | destruct (Z_le_gt_dec j i); [left | right]; nia ].
Qed.

Lemma get_val_set_type m av i j v :
  get_val a (set_type a m av i v) av j = get_val a m av j.
Proof.
  unfold get_val, set_type, load_word, store_word, auxv_size.
  pose proof (word_bytes_pos a). pose proof (word_size_bytes a).
  apply load_store_other.
  first [ destruct (Z_lt_le_dec j i); [left | right]; nia
          | destruct (Z_le_gt_dec j i); [left | right]; nia ].
Qed.

Lemma get_type_set_val m av i j v :
  get_type a (set_val a m av i v) av j = get_type a m av j.
Proof.
  unfold get_type, set_val, load_word, store_word, auxv_size.
  pose proof (word_bytes_pos a). pose proof (word_size_bytes a).
  apply load_store_other.
  first [ destruct (Z_lt_le_dec j i); [left | right]; nia
          | destruct (Z_le_gt_dec j i); [left | right]; nia ].
Qed.

Lemma get_val_set_val m av i j v :
  get_val a (set_val a m av i v) av j
  = if i =? j then wrap a v else get_val a m av j.
Proof.
  unfold get_val, set_val, load_word, store_word, auxv_size.
  pose proof (word_bytes_pos a). pose proof (word_size_bytes a).
  destruct (Z.eqb_spec i j) as [->|Hne].
  - rewrite load_store_same. rewrite word_mod_bytes. reflexivity.
  - apply load_store_other.
    first [ destruct (Z_lt_le_dec j i); [left | right]; nia
          | destruct (Z_le_gt_dec j i); [left | right]; nia ].
Qed.

Lemma get_type_word m av i : is_word a (get_type a m av i).
Proof. apply load_word_range. Qed.

Lemma get_val_word m av i : is_word a (get_val a m av i).
Proof. apply load_word_range. Qed.

End Entries.

(** *** The vector in memory and as a list *)

Section Vector.
Variable a : arch.

Lemma length_read_auxv m av n : length (read_auxv a m av n) = n.
Proof. unfold read_auxv. rewrite length_map, length_seq. reflexivity. Qed.

Lemma read_auxv_lookup m av n i :
  (i < n)%nat -> read_auxv a m av n !! i = Some (entry_at a m av i).
Proof.
  intros Hi. unfold read_auxv.
  change (@List.map) with (@fmap list _).
  rewrite list_lookup_fmap.
  change (@List.seq) with seq.
  rewrite lookup_seq_lt by lia. reflexivity.
Qed.

(** A list is the vector read from memory when it has its length and its
    entries. *)
Lemma read_auxv_eq m av n (l : list wld_auxv) :
  length l = n ->
  (forall i, (i < n)%nat -> l !! i = Some (entry_at a m av i)) ->
  read_auxv a m av n = l.
Proof.
  intros Hlen Hl. apply list_eq. intros i.
  destruct (decide (i < n)%nat) as [Hi|Hi].
  - rewrite read_auxv_lookup by assumption. symmetry. apply Hl. assumption.
  - rewrite !lookup_ge_None_2; [reflexivity | lia |].
    rewrite length_read_auxv. lia.
Qed.

Lemma type_index_bound (l : list wld_auxv) t i :
  type_index l t = Some i ->
  exists e, l !! i = Some e /\ a_type e = t.
Proof.
  revert i. induction l as [|e l IH]; intros i H; [discriminate|].
  cbn [type_index] in H. destruct (Z.eqb_spec (a_type e) t).
  - inversion H; subst. exists e. split; reflexivity.
  - destruct (type_index l t) as [j|]; [|discriminate].
    inversion H; subst. destruct (IH j eq_refl) as (e' & He' & Ht).
    exists e'. split; assumption.
Qed.

Lemma type_index_none (l : list wld_auxv) t :
  type_index l t = None <-> ~ In t (types_of l).
Proof.
  induction l as [|e l IH]; cbn [type_index types_of List.map In].
  - tauto.
  - destruct (Z.eqb_spec (a_type e) t).
    + split; [discriminate | tauto].
    + destruct (type_index l t); cbn [option_map].
      * split; [discriminate|]. intros H.
        assert (Hn : ~ In t (types_of l)) by (intros Hin; apply H; right; exact Hin).
        apply IH in Hn. discriminate Hn.
      * split; [|reflexivity]. intros _ [H|H]; [contradiction|].
        revert H. apply IH. reflexivity.
Qed.

Lemma find_type_from m av t k j :
  find_type a k m av t (Z.of_nat j)
  = match type_index (List.map (entry_at a m av) (List.seq j k)) t with
    | Some i => Z.of_nat (j + i)
    | None => Z.of_nat (j + k)
    end.
Proof.
  revert j. induction k as [|k IH]; intros j.
  - cbn. f_equal. lia.
  - cbn [find_type List.seq List.map type_index entry_at a_type].
    destruct (get_type a m av (Z.of_nat j) =? t).
    + f_equal. lia.
    + replace (Z.of_nat j + 1) with (Z.of_nat (S j)) by lia.
      rewrite IH.
      destruct (type_index (List.map (entry_at a m av) (List.seq (S j) k)) t);
        cbn [option_map]; f_equal; lia.
Qed.

Lemma find_type_index m av t n :
  find_type a n m av t 0
  = match type_index (read_auxv a m av n) t with
    | Some i => Z.of_nat i
    | None => Z.of_nat n
    end.
Proof. apply (find_type_from m av t n 0). Qed.

(** One deletion, in memory and on the list. *)
Lemma delete_step m av n t i :
  type_index (read_auxv a m av n) t = Some i ->
  let last := Z.of_nat n - 1 in
  let m1 := set_type a m av (Z.of_nat i) (get_type a m av last) in
  let m2 := set_val a m1 av (Z.of_nat i) (get_val a m1 av last) in
  let m3 := set_type a m2 av last AT_NULL in
  (0 < n)%nat
  /\ read_auxv a m3 av (n - 1) = delete_entry (read_auxv a m av n) t
  /\ get_type a m3 av last = AT_NULL
  /\ get_val a m3 av last = get_val a m av last
  /\ (forall j, Z.of_nat n <= j ->
                get_type a m3 av j = get_type a m av j
                /\ get_val a m3 av j = get_val a m av j).
Proof.
  intros Hidx last m1 m2 m3.
  destruct (type_index_bound _ _ _ Hidx) as (e & He & _).
  apply lookup_lt_Some in He. rewrite length_read_auxv in He.
  assert (Hlast : last = Z.of_nat (n - 1)) by (unfold last; lia).
  assert (Gt : forall j, get_type a m3 av j
               = if last =? j then AT_NULL
                 else if Z.of_nat i =? j then get_type a m av last
                 else get_type a m av j).
  { intros j. unfold m3, m2, m1.
    rewrite get_type_set_type, get_type_set_val, get_type_set_type.
    rewrite (wrap_word a (get_type a m av last)) by apply get_type_word.
    destruct (last =? j); reflexivity. }
  assert (Gv : forall j, get_val a m3 av j
               = if Z.of_nat i =? j then get_val a m av last
                 else get_val a m av j).
  { intros j. unfold m3, m2, m1.
    rewrite get_val_set_type, get_val_set_val, !get_val_set_type.
    rewrite (wrap_word a (get_val a m av last)) by apply get_val_word.
    reflexivity. }
  split; [lia|]. split; [|split; [|split]].
  - unfold delete_entry. rewrite Hidx, length_read_auxv.
    rewrite read_auxv_lookup by lia.
    apply read_auxv_eq.
    + rewrite length_take, length_insert, length_read_auxv. lia.
    + intros j Hj. rewrite lookup_take_lt by lia.
      unfold entry_at at 2. rewrite Gt, Gv.
      destruct (Z.eqb_spec last (Z.of_nat j)); [lia|].
      destruct (Z.eqb_spec (Z.of_nat i) (Z.of_nat j)) as [E|E].
      * apply Nat2Z.inj in E. subst j.
        rewrite list_lookup_insert_eq by (rewrite length_read_auxv; lia).
        unfold entry_at. rewrite <- Hlast. reflexivity.
      * rewrite list_lookup_insert_ne by (intros ->; apply E; reflexivity).
        apply read_auxv_lookup. lia.
  - rewrite Gt, Z.eqb_refl. reflexivity.
  - rewrite Gv. destruct (Z.of_nat i =? last); reflexivity.
  - intros j Hj. rewrite Gt, Gv.
    destruct (Z.eqb_spec last j); [lia|].
    destruct (Z.eqb_spec (Z.of_nat i) j); [lia|]. split; reflexivity.
Qed.

End Vector.

(** The deleting loop, for a vector [delete_av] that is terminated. *)
Lemma delete_loop_spec a av (ds : list wld_auxv) dnul drest :
  Forall (fun e => a_type e <> AT_NULL) ds ->
  a_type dnul = AT_NULL ->
  forall m n dc,
  exists m' n',
    delete_loop a (ds ++ dnul :: drest) m av (Z.of_nat n) dc
    = Some (m', Z.of_nat n', dc + Z.of_nat (n - n'))
    /\ (n' <= n)%nat
    /\ read_auxv a m' av n'
       = fold_left delete_entry (types_of ds) (read_auxv a m av n)
    /\ (forall j, Z.of_nat n <= j ->
                  get_type a m' av j = get_type a m av j
                  /\ get_val a m' av j = get_val a m av j)
    /\ ((n' < n)%nat -> get_type a m' av (Z.of_nat n') = AT_NULL)
    /\ (n' = n -> m' = m).
Proof.
  intros Hds Hnul. induction Hds as [|d ds Hd Hds IH]; intros m n dc.
  - exists m, n. cbn [app delete_loop]. rewrite Hnul. cbn.
    replace (n - n)%nat with 0%nat by lia. rewrite Z.add_0_r.
    repeat split; try reflexivity; lia.
  - cbn [app delete_loop types_of List.map fold_left].
    destruct (Z.eqb_spec (a_type d) AT_NULL); [contradiction|].
    rewrite Nat2Z.id, find_type_index.
    destruct (type_index (read_auxv a m av n) (a_type d)) as [i|] eqn:Hidx.
    + destruct (type_index_bound _ _ _ Hidx) as (e & He & _).
      apply lookup_lt_Some in He. rewrite length_read_auxv in He.
      destruct (Z.ltb_spec (Z.of_nat i) (Z.of_nat n)); [|lia].
      destruct (delete_step a m av n (a_type d) i Hidx)
        as (Hn & Hread & Hnull & Hval & Hframe).
      replace (Z.of_nat n - 1) with (Z.of_nat (n - 1)) in * by lia.
      match goal with
      | |- context [delete_loop a _ ?m3 av _ _] =>
          destruct (IH m3 (n - 1)%nat (dc + 1))
            as (m' & n' & Hloop & Hle & Hr & Hf & Ht & Hsame)
      end.
      exists m', n'. rewrite Hloop. split; [f_equal; f_equal; lia|].
      split; [lia|]. split; [rewrite Hr, Hread; reflexivity|].
      split; [|split].
      * intros j Hj. destruct (Hf j ltac:(lia)) as [-> ->].
        apply Hframe. lia.
      * intros _. destruct (decide (n' < n - 1)%nat) as [Hlt|Hge].
        -- apply Ht. exact Hlt.
        -- assert (n' = n - 1)%nat by lia. subst n'.
           rewrite (Hsame eq_refl). exact Hnull.
      * intros ->. lia.
    + destruct (Z.ltb_spec (Z.of_nat n) (Z.of_nat n)); [lia|].
      destruct (IH m n dc) as (m' & n' & Hloop & Hrest).
      exists m', n'. rewrite Hloop. split; [reflexivity|].
      unfold delete_entry at 2. rewrite Hidx. exact Hrest.
Qed.

Lemma count_new_returns a av (ns : list wld_auxv) nnul nrest :
  Forall (fun e => a_type e <> AT_NULL) ns ->
  a_type nnul = AT_NULL ->
  forall m av_count new_count,
  exists c, count_new a (ns ++ nnul :: nrest) m av av_count new_count = Some c.
Proof.
  intros Hns Hnul. induction Hns as [|e ns He Hns IH]; intros m n c.
  - exists c. cbn [app count_new]. rewrite Hnul. reflexivity.
  - cbn [app count_new].
    destruct (Z.eqb_spec (a_type e) AT_NULL); [contradiction|]. apply IH.
Qed.

(** The two copying loops move the bytes, whether or not the areas
    overlap, when run in the direction the source chooses. *)
Lemma copy_forward_spec n (m : mem) dst src i :
  dst < src ->
  forall q,
    copy_forward n m dst src i q
    = if (dst + i <=? q) && (q <? dst + i + Z.of_nat n)
      then m (q - dst + src) else m q.
Proof.
  intros Hlt. revert m i. induction n as [|n IH]; intros m i q.
  - cbn [copy_forward].
    destruct (Z.leb_spec (dst + i) q);
      destruct (Z.ltb_spec q (dst + i + Z.of_nat 0));
      cbn [andb]; try reflexivity; lia.
  - cbn [copy_forward]. rewrite IH.
    destruct (Z.leb_spec (dst + (i + 1)) q);
      destruct (Z.ltb_spec q (dst + (i + 1) + Z.of_nat n));
      destruct (Z.leb_spec (dst + i) q);
      destruct (Z.ltb_spec q (dst + i + Z.of_nat (S n)));
      cbn [andb]; try lia;
      repeat match goal with
             | |- context [?x =? ?y] => destruct (Z.eqb_spec x y)
             end;
      try reflexivity; try lia; f_equal; lia.
Qed.

Lemma copy_backward_spec n (m : mem) dst src :
  src < dst ->
  forall q,
    copy_backward n m dst src q
    = if (dst <=? q) && (q <? dst + Z.of_nat n)
      then m (q - dst + src) else m q.
Proof.
  intros Hlt. revert m. induction n as [|n IH]; intros m q.
  - cbn [copy_backward].
    destruct (Z.leb_spec dst q); destruct (Z.ltb_spec q (dst + Z.of_nat 0));
      cbn [andb]; try reflexivity; lia.
  - cbn [copy_backward]. rewrite IH.
    destruct (Z.leb_spec dst q);
      destruct (Z.ltb_spec q (dst + Z.of_nat n));
      destruct (Z.ltb_spec q (dst + Z.of_nat (S n)));
      cbn [andb]; try lia;
      repeat match goal with
             | |- context [?x =? ?y] => destruct (Z.eqb_spec x y)
             end;
      try reflexivity; try lia; f_equal; lia.
Qed.

Lemma to_int_small x : - 2 ^ 31 <= x < 2 ^ 31 -> to_int x = x.
Proof. intros H. unfold to_int. rewrite Z.mod_small; lia. Qed.

(** After the move the entries [0 .. n] -- the terminator included -- are
    found at [av + (dst - stack)], whichever way the stack top moved. *)
Lemma moved_entries a (m : mem) av n stack dst :
  stack <= av ->
  av + (Z.of_nat n + 1) * auxv_size a - stack < 2 ^ 31 ->
  let len := to_int (av + (Z.of_nat n + 1) * auxv_size a - stack) in
  let m2 :=
    if dst <? stack then copy_forward (Z.to_nat len) m dst stack 0
    else if stack <? dst then copy_backward (Z.to_nat len) m dst stack
    else m in
  forall j, 0 <= j <= Z.of_nat n ->
    get_type a m2 (av + (dst - stack)) j = get_type a m av j
    /\ get_val a m2 (av + (dst - stack)) j = get_val a m av j.
Proof.
  intros Hle Hlen len m2 j Hj.
  pose proof (word_bytes_pos a) as HW. pose proof (word_size_bytes a) as HS.
  assert (Hsz : auxv_size a = 2 * word_bytes a) by reflexivity.
  assert (Hlen' : len = av + (Z.of_nat n + 1) * auxv_size a - stack).
  { unfold len. apply to_int_small. nia. }
  assert (Hm2 : forall q,
             dst <= q < dst + len -> m2 q = m (q - dst + stack)).
  { intros q Hq. unfold m2.
    destruct (Z.ltb_spec dst stack).
    - rewrite copy_forward_spec by assumption.
      rewrite Z2Nat.id by lia.
      destruct (Z.leb_spec (dst + 0) q); destruct (Z.ltb_spec q (dst + 0 + len));
        cbn [andb]; reflexivity || lia.
    - destruct (Z.ltb_spec stack dst).
      + rewrite copy_backward_spec by assumption.
        rewrite Z2Nat.id by lia.
        destruct (Z.leb_spec dst q); destruct (Z.ltb_spec q (dst + len));
          cbn [andb]; reflexivity || lia.
      + f_equal. lia. }
  unfold get_type, get_val, load_word.
  split; apply load_bytes_ext; intros i Hi; rewrite Hm2 by nia; f_equal; lia.
Qed.

(** One round of the setting loop, in memory and on the list. *)
Lemma set_step_found a m av n e i :
  type_index (read_auxv a m av n) (a_type e) = Some i ->
  let m1 := set_val a m av (Z.of_nat i) (a_val e) in
  read_auxv a m1 av n = set_entry a (read_auxv a m av n) e
  /\ (forall j, Z.of_nat n <= j ->
                get_type a m1 av j = get_type a m av j
                /\ get_val a m1 av j = get_val a m av j).
Proof.
  intros Hidx m1.
  destruct (type_index_bound _ _ _ Hidx) as (e0 & He0 & Ht).
  pose proof (lookup_lt_Some _ _ _ He0) as Hi. rewrite length_read_auxv in Hi.
  rewrite read_auxv_lookup in He0 by assumption.
  inversion He0; subst e0; clear He0. cbn [entry_at a_type] in Ht.
  split.
  - unfold set_entry. rewrite Hidx. apply read_auxv_eq.
    + rewrite length_insert, length_read_auxv. reflexivity.
    + intros j Hj. unfold entry_at. unfold m1.
      rewrite get_type_set_val, get_val_set_val.
      destruct (Z.eqb_spec (Z.of_nat i) (Z.of_nat j)) as [E|E].
      * apply Nat2Z.inj in E. subst j.
        rewrite list_lookup_insert_eq by (rewrite length_read_auxv; lia).
        rewrite <- Ht. rewrite (wrap_word a) by apply get_type_word.
        reflexivity.
      * rewrite list_lookup_insert_ne by (intros ->; apply E; reflexivity).
        apply read_auxv_lookup. lia.
  - intros j Hj. unfold m1. rewrite get_type_set_val, get_val_set_val.
    destruct (Z.eqb_spec (Z.of_nat i) j); [lia|]. split; reflexivity.
Qed.

Lemma set_step_append a m av n e :
  let m1 := set_type a m av (Z.of_nat n) (a_type e) in
  let m2 := set_val a m1 av (Z.of_nat n) (a_val e) in
  read_auxv a m2 av (S n)
  = read_auxv a m av n
    ++ [{| a_type := wrap a (a_type e); a_val := wrap a (a_val e) |}]
  /\ (forall j, Z.of_nat (S n) <= j ->
                get_type a m2 av j = get_type a m av j
                /\ get_val a m2 av j = get_val a m av j).
Proof.
  intros m1 m2.
  assert (Gt : forall j, get_type a m2 av j
               = if Z.of_nat n =? j then wrap a (a_type e)
                 else get_type a m av j).
  { intros j. unfold m2, m1. rewrite get_type_set_val, get_type_set_type.
    reflexivity. }
  assert (Gv : forall j, get_val a m2 av j
               = if Z.of_nat n =? j then wrap a (a_val e)
                 else get_val a m av j).
  { intros j. unfold m2, m1. rewrite get_val_set_val, get_val_set_type.
    reflexivity. }
  split.
  - apply read_auxv_eq.
    + rewrite length_app, length_read_auxv. cbn. lia.
    + intros j Hj. unfold entry_at. rewrite Gt, Gv.
      destruct (Z.eqb_spec (Z.of_nat n) (Z.of_nat j)) as [E|E].
      * apply Nat2Z.inj in E. subst j.
        rewrite lookup_app_r by (rewrite length_read_auxv; lia).
        rewrite length_read_auxv, Nat.sub_diag. reflexivity.
      * rewrite lookup_app_l by (rewrite length_read_auxv; lia).
        apply read_auxv_lookup. lia.
  - intros j Hj. rewrite Gt, Gv.
    destruct (Z.eqb_spec (Z.of_nat n) j); [lia|]. split; reflexivity.
Qed.

(** The setting loop, for a vector [new_av] that is terminated. *)
Lemma set_loop_spec a av (ns : list wld_auxv) nnul nrest :
  Forall (fun e => a_type e <> AT_NULL) ns ->
  a_type nnul = AT_NULL ->
  forall m n,
  exists m' n',
    set_loop a (ns ++ nnul :: nrest) m av (Z.of_nat n) = Some (m', Z.of_nat n')
    /\ (n <= n')%nat
    /\ read_auxv a m' av n'
       = fold_left (set_entry a) ns (read_auxv a m av n)
    /\ (forall j, Z.of_nat n' <= j ->
                  get_type a m' av j = get_type a m av j
                  /\ get_val a m' av j = get_val a m av j).
Proof.
  intros Hns Hnul. induction Hns as [|e ns He Hns IH]; intros m n.
  - exists m, n. cbn [app set_loop]. rewrite Hnul. cbn.
    repeat split; reflexivity || lia.
  - cbn [app set_loop fold_left].
    destruct (Z.eqb_spec (a_type e) AT_NULL); [contradiction|].
    rewrite Nat2Z.id, find_type_index.
    destruct (type_index (read_auxv a m av n) (a_type e)) as [i|] eqn:Hidx.
    + destruct (type_index_bound _ _ _ Hidx) as (e0 & He0 & _).
      apply lookup_lt_Some in He0. rewrite length_read_auxv in He0.
      destruct (Z.ltb_spec (Z.of_nat i) (Z.of_nat n)); [|lia].
      destruct (set_step_found a m av n e i Hidx) as (Hread & Hframe).
      destruct (IH (set_val a m av (Z.of_nat i) (a_val e)) n)
        as (m' & n' & Hloop & Hle & Hr & Hf).
      exists m', n'. rewrite Hloop. split; [reflexivity|].
      split; [lia|]. split; [rewrite Hr, Hread; reflexivity|].
      intros j Hj. destruct (Hf j Hj) as [-> ->]. apply Hframe. lia.
    + destruct (Z.ltb_spec (Z.of_nat n) (Z.of_nat n)); [lia|].
      destruct (set_step_append a m av n e) as (Hread & Hframe).
      replace (Z.of_nat n + 1) with (Z.of_nat (S n)) by lia.
      match goal with
      | |- context [set_loop a _ ?m2 av _] =>
          destruct (IH m2 (S n)) as (m' & n' & Hloop & Hle & Hr & Hf)
      end.
      exists m', n'. rewrite Hloop. split; [reflexivity|].
      split; [lia|]. split.
      * rewrite Hr, Hread. f_equal.
        unfold set_entry. rewrite Hidx. reflexivity.
      * intros j Hj. destruct (Hf j Hj) as [-> ->]. apply Hframe. lia.
Qed.

Lemma count_auxv_finds a m av n0 :
  (forall j, (j < n0)%nat -> get_type a m av (Z.of_nat j) <> AT_NULL) ->
  get_type a m av (Z.of_nat n0) = AT_NULL ->
  forall fuel j, (j <= n0)%nat -> (n0 - j < fuel)%nat ->
    count_auxv a fuel m av (Z.of_nat j) = Some (Z.of_nat n0).
Proof.
  intros Hbefore Hnull. induction fuel as [|fuel IH]; intros j Hj Hfuel; [lia|].
  cbn [count_auxv]. destruct (Z.eqb_spec (get_type a m av (Z.of_nat j)) AT_NULL).
  - destruct (decide (j = n0)) as [->|Hne]; [reflexivity|].
    exfalso. apply (Hbefore j); [lia | assumption].
  - destruct (decide (j = n0)) as [->|Hne]; [contradiction|].
    replace (Z.of_nat j + 1) with (Z.of_nat (S j)) by lia.
    apply IH; lia.
Qed.

Lemma new_stack_top_aligned a src new_count delete_count :
  Z.land (new_stack_top a src new_count delete_count) 15 = 0.
Proof.
  unfold new_stack_top, and_not. rewrite <- Z.land_assoc.
  replace (Z.land (Z.lxor (word_mod a - 1) 15) 15) with 0
    by (destruct a; reflexivity).
  apply Z.land_0_r.
Qed.

(** *** [set_auxiliary_values] as a whole *)

(** For a vector terminated at index [n0], enough fuel to find the
    terminator, terminated vectors [delete_av] and [new_av], and a stack
    top that lies at or below the vector and within reach of an [int]:
    the call returns; the new stack top is a multiple of 16; the entries
    of the rewritten vector are those of the list obtained by the
    deletions and then the settings; when nothing was appended, the entry
    after them has type [AT_NULL]; when nothing was deleted either, it
    still has the value of the old terminator. *)
Lemma set_auxiliary_values_spec a fuel m av stack n0
      (ds : list wld_auxv) dnul drest (ns : list wld_auxv) nnul nrest :
  (forall j, (j < n0)%nat -> get_type a m av (Z.of_nat j) <> AT_NULL) ->
  get_type a m av (Z.of_nat n0) = AT_NULL ->
  (n0 < fuel)%nat ->
  Forall (fun e => a_type e <> AT_NULL) ds -> a_type dnul = AT_NULL ->
  Forall (fun e => a_type e <> AT_NULL) ns -> a_type nnul = AT_NULL ->
  stack <= av ->
  av + (Z.of_nat n0 + 1) * auxv_size a - stack < 2 ^ 31 ->
  let kept := fold_left delete_entry (types_of ds) (read_auxv a m av n0) in
  let final := fold_left (set_entry a) ns kept in
  exists s,
    set_auxiliary_values a fuel m av (ns ++ nnul :: nrest)
      (ds ++ dnul :: drest) stack = Some s
    /\ Z.land (s_stack s) 15 = 0
    /\ s_count s = Z.of_nat (length final)
    /\ read_auxv a (s_mem s) (s_av s) (length final) = final
    /\ (length final = length kept ->
        get_type a (s_mem s) (s_av s) (s_count s) = AT_NULL)
    /\ (length kept = n0 -> length final = n0 ->
        get_val a (s_mem s) (s_av s) (s_count s)
        = get_val a m av (Z.of_nat n0)).
Proof.
  intros Hbefore Hnull Hfuel Hds Hdnul Hns Hnnul Hstack Hreach kept final.
  unfold set_auxiliary_values.
  change 0 with (Z.of_nat 0) at 1.
  rewrite (count_auxv_finds a m av n0 Hbefore Hnull fuel 0%nat) by lia.
  destruct (delete_loop_spec a av ds dnul drest Hds Hdnul m n0 0)
    as (m1 & n1 & Hdel & Hle & Hkept & _ & Hterm & Hsame).
  rewrite Hdel.
  destruct (count_new_returns a av ns nnul nrest Hns Hnnul m1
              (Z.of_nat n1) 0) as (c & Hc).
  rewrite Hc.
  set (dst := new_stack_top a stack c (0 + Z.of_nat (n0 - n1))).
  pose proof (word_bytes_pos a) as HW.
  assert (Hsz : auxv_size a = 2 * word_bytes a) by reflexivity.
  pose proof (moved_entries a m1 av n1 stack dst Hstack ltac:(nia)) as Hmoved.
  cbv zeta in Hmoved.
  match goal with
  | |- context [set_loop a _ ?m2 ?av' _] =>
      set (mm := m2) in *; set (av2 := av') in *
  end.
  assert (Hread2 : read_auxv a mm av2 n1 = kept).
  { unfold kept. rewrite <- Hkept. apply read_auxv_eq.
    - apply length_read_auxv.
    - intros i Hi. rewrite read_auxv_lookup by assumption.
      unfold entry_at. destruct (Hmoved (Z.of_nat i) ltac:(lia)) as [-> ->].
      reflexivity. }
  destruct (set_loop_spec a av2 ns nnul nrest Hns Hnnul mm n1)
    as (m3 & n3 & Hset & Hle3 & Hfinal & Hframe).
  rewrite Hset. rewrite Hread2 in Hfinal. fold final in Hfinal.
  assert (Hn3 : length final = n3)
    by (rewrite <- Hfinal; apply length_read_auxv).
  assert (Hn1 : length kept = n1)
    by (rewrite <- Hread2; apply length_read_auxv).
  eexists. split; [reflexivity|]. cbn [s_stack s_count s_mem s_av].
  split; [apply new_stack_top_aligned|].
  split; [rewrite Hn3; reflexivity|].
  split; [rewrite Hn3; exact Hfinal|].
  rewrite Hn3, Hn1. clearbody final kept. clear Hfinal Hread2 Hn3 Hn1.
  split.
  - intros Hlen. subst n3.
    destruct (Hframe (Z.of_nat n1) ltac:(lia)) as [-> _].
    destruct (Hmoved (Z.of_nat n1) ltac:(lia)) as [-> _].
    destruct (decide (n1 < n0)%nat) as [Hlt|Hge].
    + apply Hterm. exact Hlt.
    + assert (n1 = n0) by lia. subst n1. rewrite (Hsame eq_refl).
      exact Hnull.
  - intros Hk Hf. subst n1 n3.
    destruct (Hframe (Z.of_nat n0) ltac:(lia)) as [_ ->].
    destruct (Hmoved (Z.of_nat n0) ltac:(lia)) as [_ ->].
    rewrite (Hsame eq_refl). reflexivity.
Qed.

(** *** The list of entries *)

Lemma type_index_lookup (l : list wld_auxv) t i :
  type_index l t = Some i -> exists x, l !! i = Some x /\ a_type x = t.
Proof. apply type_index_bound. Qed.

(** A deletion removes one entry of the deleted type and keeps all the
    others, in some order. *)
Lemma delete_entry_perm (l : list wld_auxv) t i x :
  type_index l t = Some i ->
  l !! i = Some x ->
  Permutation (x :: delete_entry l t) l.
Proof.
  intros Hidx Hx. unfold delete_entry. rewrite Hidx.
  pose proof (lookup_lt_Some _ _ _ Hx) as Hi.
  destruct (exists_last (l := l)) as (l0 & y & ->);
    [intros ->; cbn in Hi; lia|].
  rewrite length_app in *. cbn [length] in *.
  replace (length l0 + 1 - 1)%nat with (length l0) by lia.
  rewrite list_lookup_middle by reflexivity.
  destruct (decide (i = length l0)) as [->|Hne].
  - rewrite list_lookup_middle in Hx by reflexivity. inversion Hx; subst.
    rewrite insert_middle. rewrite take_app_length.
    apply Permutation_cons_append.
  - rewrite lookup_app_l in Hx by lia.
    rewrite insert_app_l by lia.
    rewrite take_app_length' by (rewrite length_insert; reflexivity).
    pose proof (take_drop_middle l0 i x Hx) as Hsplit.
    rewrite <- Hsplit at 2.
    rewrite <- Hsplit at 1.
    assert (Hlen : length (take i l0) = i) by (rewrite length_take; lia).
    rewrite <- Hlen at 1. rewrite insert_middle.
    rewrite <- app_assoc. cbn [app].
    etransitivity; [apply Permutation_middle|].
    apply Permutation_app_head. apply perm_skip.
    apply Permutation_cons_append.
Qed.

Lemma delete_entry_absent (l : list wld_auxv) t :
  type_index l t = None -> delete_entry l t = l.
Proof. intros H. unfold delete_entry. rewrite H. reflexivity. Qed.

Lemma occurrences_delete_entry (l : list wld_auxv) t u :
  occurrences u (types_of (delete_entry l t))
  = if Z.eq_dec t u then (occurrences u (types_of l) - 1)%nat
    else occurrences u (types_of l).
Proof.
  destruct (type_index l t) as [i|] eqn:Hidx.
  - destruct (type_index_lookup _ _ _ Hidx) as (x & Hx & Ht).
    pose proof (delete_entry_perm l t i x Hidx Hx) as Hp.
    apply (Permutation_map a_type) in Hp.
    pose proof (proj1 (Permutation_count_occ Z.eq_dec _ _) Hp u) as Hc.
    cbn [List.map] in Hc. unfold occurrences, types_of.
    rewrite <- Hc. rewrite Ht.
    destruct (Z.eq_dec t u) as [->|Hne].
    + rewrite count_occ_cons_eq by reflexivity. lia.
    + rewrite count_occ_cons_neq by assumption. reflexivity.
  - rewrite delete_entry_absent by assumption.
    destruct (Z.eq_dec t u) as [->|]; [|reflexivity].
    apply type_index_none in Hidx.
    apply (count_occ_not_In Z.eq_dec) in Hidx.
    unfold occurrences. rewrite Hidx. reflexivity.
Qed.

(** After all the deletions a type occurs as often as before, less the
    number of times it was asked to be deleted. *)
Lemma occurrences_after_deletions (ts : list Z) :
  forall (l : list wld_auxv) u,
    occurrences u (types_of (fold_left delete_entry ts l))
    = (occurrences u (types_of l) - occurrences u ts)%nat.
Proof.
  induction ts as [|t ts IH]; intros l u; cbn [fold_left].
  - unfold occurrences at 3. cbn. lia.
  - rewrite IH, occurrences_delete_entry.
    assert (Hcons : occurrences u (t :: ts)
                    = if Z.eq_dec t u then S (occurrences u ts)
                      else occurrences u ts).
    { unfold occurrences. cbn [count_occ]. reflexivity. }
    rewrite Hcons. destruct (Z.eq_dec t u); lia.
Qed.

Lemma wrap_is_word a x : is_word a (wrap a x).
Proof. apply Z.mod_pos_bound. destruct a; reflexivity. Qed.

Lemma read_auxv_word_typed a m av n : word_typed a (read_auxv a m av n).
Proof.
  apply Forall_forall. intros e He. apply list_elem_of_In in He.
  unfold read_auxv in He. apply in_map_iff in He as (i & <- & _).
  apply get_type_word.
Qed.

Lemma delete_entry_word_typed a (l : list wld_auxv) t :
  word_typed a l -> word_typed a (delete_entry l t).
Proof.
  intros Hl. destruct (type_index l t) as [i|] eqn:Hidx.
  - destruct (type_index_lookup _ _ _ Hidx) as (x & Hx & _).
    pose proof (delete_entry_perm l t i x Hidx Hx) as Hp.
    unfold word_typed in *. rewrite <- Hp in Hl.
    inversion Hl; assumption.
  - rewrite delete_entry_absent; assumption.
Qed.

Lemma deletions_word_typed a (ts : list Z) :
  forall l, word_typed a l -> word_typed a (fold_left delete_entry ts l).
Proof.
  induction ts as [|t ts IH]; intros l Hl; cbn [fold_left]; [assumption|].
  apply IH. apply delete_entry_word_typed. assumption.
Qed.

Lemma set_entry_types a (l : list wld_auxv) e :
  word_typed a l ->
  types_of (set_entry a l e)
  = match type_index l (a_type e) with
    | Some _ => types_of l
    | None => types_of l ++ [wrap a (a_type e)]
    end.
Proof.
  intros Hl. unfold set_entry.
  destruct (type_index l (a_type e)) as [i|] eqn:Hidx.
  - destruct (type_index_lookup _ _ _ Hidx) as (x & Hx & Ht).
    unfold types_of.
    change (@List.map) with (@fmap list _).
    rewrite list_fmap_insert. cbn [a_type].
    apply list_insert_id. rewrite list_lookup_fmap, Hx. cbn.
    f_equal. rewrite Ht. symmetry. apply wrap_word. rewrite <- Ht.
    unfold word_typed in Hl. rewrite Forall_forall in Hl.
    apply Hl. apply list_elem_of_lookup. exists i. exact Hx.
  - unfold types_of. rewrite List.map_app. reflexivity.
Qed.

Lemma set_entry_word_typed a (l : list wld_auxv) e :
  word_typed a l -> word_typed a (set_entry a l e).
Proof.
  intros Hl. unfold word_typed. apply Forall_forall. intros x Hx.
  apply list_elem_of_In in Hx.
  assert (Ht : In (a_type x) (types_of (set_entry a l e)))
    by (apply in_map; exact Hx).
  rewrite set_entry_types in Ht by assumption.
  assert (Hold : In (a_type x) (types_of l) -> is_word a (a_type x)).
  { intros Hin. apply in_map_iff in Hin as (y & Hy & Hin). rewrite <- Hy.
    unfold word_typed in Hl. rewrite Forall_forall in Hl.
    apply Hl. apply list_elem_of_In. exact Hin. }
  destruct (type_index l (a_type e)); [auto|].
  apply in_app_or in Ht as [Ht | [<- | []]]; [auto | apply wrap_is_word].
Qed.

Lemma settings_word_typed a (ns : list wld_auxv) :
  forall l, word_typed a l -> word_typed a (fold_left (set_entry a) ns l).
Proof.
  induction ns as [|e ns IH]; intros l Hl; cbn [fold_left]; [assumption|].
  apply IH. apply set_entry_word_typed. assumption.
Qed.

(** Settings whose types are all present append nothing. *)
Lemma settings_present a (ns : list wld_auxv) :
  forall l,
    word_typed a l ->
    (forall e, In e ns -> In (a_type e) (types_of l)) ->
    types_of (fold_left (set_entry a) ns l) = types_of l.
Proof.
  induction ns as [|e ns IH]; intros l Hl Hin; cbn [fold_left]; [reflexivity|].
  assert (He : types_of (set_entry a l e) = types_of l).
  { rewrite set_entry_types by assumption.
    destruct (type_index l (a_type e)) eqn:Hidx; [reflexivity|].
    apply type_index_none in Hidx. exfalso. apply Hidx. apply Hin. left.
    reflexivity. }
  rewrite IH; [exact He | apply set_entry_word_typed; assumption |].
  intros e' He'. rewrite He. apply Hin. right. exact He'.
Qed.

Lemma length_types_of (l : list wld_auxv) : length (types_of l) = length l.
Proof. apply length_map. Qed.






Lemma deletions_keep_type (ts : list Z) (l : list wld_auxv) t :
  In t (types_of l) -> ~ In t ts ->
  In t (types_of (fold_left delete_entry ts l)).
Proof.
  intros Hin Hnot.
  apply (count_occ_In Z.eq_dec). apply (count_occ_In Z.eq_dec) in Hin.
  apply (count_occ_not_In Z.eq_dec) in Hnot.
  pose proof (occurrences_after_deletions ts l t) as H.
  unfold occurrences in H. lia.
Qed.


Lemma sample_auxv_terminated :
  (forall j, (j < 4)%nat ->
             get_type X86_64 sample_mem sample_av (Z.of_nat j) <> AT_NULL)
  /\ get_type X86_64 sample_mem sample_av (Z.of_nat 4) = AT_NULL.
Proof.
  split.
  - intros j Hj.
    destruct j as [|[|[|[|j]]]]; [| | | |lia]; vm_compute; discriminate.
  - vm_compute. reflexivity.
Qed.






(** ** [find_symbol] *)

(** [wld_strcmp] returns 0 exactly when the string in memory is the
    requested one. *)
Lemma wld_strcmp_zero m p var :
  Forall (fun c => 0 < c < 256) var ->
  (wld_strcmp m p var =? 0) = string_at m p var.
Proof.
  intros Hvar. revert p.
  induction Hvar as [|c var Hc Hvar IH]; intros p; cbn [wld_strcmp string_at].
  - assert (Hb : 0 <= load8 m p < 256)
      by (unfold load8; apply Z.mod_pos_bound; lia).
    unfold signed_char.
    destruct (Z.ltb_spec (load8 m p) 128);
      destruct (Z.eqb_spec (load8 m p) 0); lia.
  - assert (Hb : 0 <= load8 m p < 256)
      by (unfold load8; apply Z.mod_pos_bound; lia).
    destruct (Z.eqb_spec (load8 m p) 0) as [H0|H0].
    + destruct (Z.eqb_spec (load8 m p) c) as [Hc'|Hc']; [lia|].
      cbn [andb]. unfold signed_char.
      destruct (Z.ltb_spec c 128); apply Z.eqb_neq; lia.
    + destruct (Z.eqb_spec (load8 m p) c) as [Hc'|Hc']; cbn [andb].
      * apply IH.
      * unfold signed_char.
        destruct (Z.ltb_spec (load8 m p) 128); destruct (Z.ltb_spec c 128);
          apply Z.eqb_neq; lia.
Qed.

Lemma sym_matches_exports a m t var type idx :
  Forall (fun c => 0 < c < 256) var ->
  sym_matches a m t var type idx = exports a m t var type idx.
Proof.
  intros Hvar. unfold sym_matches, exports.
  rewrite (wld_strcmp_zero _ _ _ Hvar). reflexivity.
Qed.

(** A walk returns the first symbol of the chain that passes its test. *)
Lemma elf_chain_loop_find a fuel m t chains var type idx l :
  elf_chain fuel m chains idx = Some l ->
  elf_chain_loop a fuel m t chains var type idx
  = Some (List.find (sym_matches a m t var type) l).
Proof.
  revert idx l. induction fuel as [|fuel IH]; intros idx l; [discriminate|].
  cbn [elf_chain elf_chain_loop].
  destruct (idx =? 0).
  - intros [= <-]. reflexivity.
  - destruct (elf_chain fuel m chains (load32 m (chains + 4 * idx)))
      as [l'|] eqn:Hl'; [|discriminate].
    cbn [option_map]. intros [= <-]. cbn [List.find].
    destruct (sym_matches a m t var type idx); [reflexivity|].
    apply IH, Hl'.
Qed.

Lemma gnu_chain_loop_find a fuel m t chains hash var type idx l :
  gnu_chain fuel m chains idx = Some l ->
  gnu_chain_loop a fuel m t chains hash var type idx
  = Some (List.find
            (fun i => gnu_hash_matches m chains hash i
                      && sym_matches a m t var type i) l).
Proof.
  revert idx l. induction fuel as [|fuel IH]; intros idx l; [discriminate|].
  cbn [gnu_chain gnu_chain_loop].
  destruct (Z.land (gnu_chain_word m chains idx) 1 =? 0).
  - destruct (gnu_chain fuel m chains ((idx + 1) mod 2 ^ 32))
      as [l'|] eqn:Hl'; [|discriminate].
    cbn [option_map]. intros [= <-]. cbn [List.find].
    destruct (gnu_hash_matches m chains hash idx
              && sym_matches a m t var type idx); [reflexivity|].
    apply IH, Hl'.
  - intros [= <-]. cbn [List.find].
    destruct (gnu_hash_matches m chains hash idx
              && sym_matches a m t var type idx); reflexivity.
Qed.

Lemma find_filter {A} (f g : A -> bool) (l : list A) :
  List.find f (List.filter g l) = List.find (fun i => g i && f i) l.
Proof.
  induction l as [|x l IH]; [reflexivity|].
  cbn [List.filter List.find].
  destruct (g x); cbn [List.find andb]; [|exact IH].
  destruct (f x); [reflexivity|exact IH].
Qed.

Lemma find_ext {A} (f g : A -> bool) (l : list A) :
  (forall x, f x = g x) -> List.find f l = List.find g l.
Proof.
  intros H. induction l as [|x l IH]; [reflexivity|].
  cbn [List.find]. rewrite H, IH. reflexivity.
Qed.

Lemma lookup_elf_hash_indexed a fuel m t var type l :
  Forall (fun c => 0 < c < 256) var ->
  elf_indexed fuel m t var = Some l ->
  lookup_elf_hash a fuel m t var type
  = Some (List.find (exports a m t var type) l).
Proof.
  intros Hvar. unfold elf_indexed, lookup_elf_hash.
  destruct (load32 m (hashtab t) =? 0); [discriminate|].
  intros Hl. rewrite (elf_chain_loop_find _ _ _ _ _ _ _ _ _ Hl).
  f_equal. apply find_ext. intros x. apply sym_matches_exports, Hvar.
Qed.

Lemma lookup_gnu_hash_indexed a fuel m t var type l :
  Forall (fun c => 0 < c < 256) var ->
  gnu_indexed a fuel m t var = Some l ->
  lookup_gnu_hash a fuel m t var type
  = Some (List.find (exports a m t var type) l).
Proof.
  intros Hvar. unfold gnu_indexed, lookup_gnu_hash.
  destruct (load32 m (gnu_hashtab t) =? 0); [discriminate|].
  destruct (gnu_first a m t var =? 0).
  - intros [= <-]. reflexivity.
  - destruct (gnu_chain fuel m (gnu_chains a m t) (gnu_first a m t var))
      as [l'|] eqn:Hl'; [|discriminate].
    cbn [option_map]. intros [= <-].
    rewrite (gnu_chain_loop_find _ _ _ _ _ _ _ _ _ _ Hl'), find_filter.
    f_equal. apply find_ext. intros x.
    rewrite (sym_matches_exports _ _ _ _ _ _ Hvar). reflexivity.
Qed.

(** With a symbol table and a string table, the lookup returns the
    address of the first listed symbol that matches. *)
Lemma lookup_symbol_indexed a fuel m t l_addr var type l :
  Forall (fun c => 0 < c < 256) var ->
  symtab t <> 0 -> strings t <> 0 ->
  indexed a fuel m t var = Some l ->
  lookup_symbol a fuel m t l_addr var type
  = Some (symbol_address a m t l_addr (List.find (exports a m t var type) l)).
Proof.
  intros Hvar Hsym Hstr. unfold indexed, lookup_symbol.
  destruct (Z.eqb_spec (symtab t) 0); [contradiction|].
  destruct (Z.eqb_spec (strings t) 0); [contradiction|].
  cbn [orb].
  destruct (negb (gnu_hashtab t =? 0)).
  - intros Hl. rewrite (lookup_gnu_hash_indexed _ _ _ _ _ _ _ Hvar Hl).
    destruct (List.find (exports a m t var type) l); reflexivity.
  - destruct (negb (hashtab t =? 0)).
    + intros Hl. rewrite (lookup_elf_hash_indexed _ _ _ _ _ _ _ Hvar Hl).
      destruct (List.find (exports a m t var type) l); reflexivity.
    + intros [= <-]. reflexivity.
Qed.

Lemma lookup_symbol_missing a fuel m t l_addr var type :
  symtab t = 0 \/ strings t = 0 ->
  lookup_symbol a fuel m t l_addr var type = Some 0.
Proof.
  intros H. unfold lookup_symbol.
  destruct (Z.eqb_spec (symtab t) 0); [reflexivity|].
  destruct (Z.eqb_spec (strings t) 0); [reflexivity|].
  destruct H; contradiction.
Qed.

(** Two lists with the same matching members, of which there is at most
    one, have the same first match. *)
Lemma find_unique {A} (f : A -> bool) (l1 l2 : list A) :
  (forall x, f x = true -> In x l1 <-> In x l2) ->
  (forall x y, In x l1 -> In y l1 -> f x = true -> f y = true -> x = y) ->
  List.find f l1 = List.find f l2.
Proof.
  intros Hsame Huniq.
  destruct (List.find f l1) as [x|] eqn:H1;
    destruct (List.find f l2) as [y|] eqn:H2; try reflexivity.
  - apply List.find_some in H1 as [Hx Hfx]. apply List.find_some in H2 as [Hy Hfy].
    f_equal. apply Huniq; try assumption. apply (Hsame y Hfy), Hy.
  - apply List.find_some in H1 as [Hx Hfx].
    pose proof (List.find_none _ _ H2 x (proj1 (Hsame x Hfx) Hx)). congruence.
  - apply List.find_some in H2 as [Hy Hfy].
    pose proof (List.find_none _ _ H1 y (proj2 (Hsame y Hfy) Hy)). congruence.
Qed.

Lemma find_symbol_tables a fuel m map var type t :
  dynamic_of a m map <> 0 ->
  read_dynamic a fuel m (l_addr map) (dynamic_of a m map) no_tables = Some t ->
  find_symbol a fuel m map var type
  = lookup_symbol a fuel m t (l_addr map) var type.
Proof.
  intros Hdyn Ht. unfold find_symbol.
  destruct (Z.eqb_spec (dynamic_of a m map) 0); [contradiction|].
  rewrite Ht. reflexivity.
Qed.

Lemma elf_indexed_without_gnu fuel m t var :
  elf_indexed fuel m (without_gnu t) var = elf_indexed fuel m t var.
Proof. reflexivity. Qed.

Lemma indexed_gnu a fuel m t var :
  gnu_hashtab t <> 0 -> indexed a fuel m t var = gnu_indexed a fuel m t var.
Proof.
  intros H. unfold indexed.
  destruct (Z.eqb_spec (gnu_hashtab t) 0); [contradiction|reflexivity].
Qed.

Lemma indexed_classical a fuel m t var :
  hashtab t <> 0 ->
  indexed a fuel m (without_gnu t) var = elf_indexed fuel m t var.
Proof.
  intros H. unfold indexed. cbn [without_gnu gnu_hashtab hashtab Z.eqb negb].
  destruct (Z.eqb_spec (hashtab t) 0); [contradiction|reflexivity].
Qed.

(** C4 (amended).  For a name [var] of non-zero bytes:
    [find_symbol] returns null when the image has no dynamic section, and
    when its dynamic section names no symbol table or no string table.
    Otherwise it returns [st_value] plus the load bias of the first
    symbol, among those the hash table in use lists for the name, that is
    global and has the requested type and name, and null when no listed
    symbol is such (the GNU table is used when there is one, else the
    classical table, and with neither the result is null).  For an image
    with both tables, the result is the one obtained through the
    classical table alone when both tables list the same matching
    symbols and at most one listed symbol matches. *)
Theorem find_symbol_result a fuel m map map' var type :
  Forall (fun c => 0 < c < 256) var ->
  (dynamic_of a m map = 0 -> find_symbol a fuel m map var type = Some 0) /\
  (forall t,
     dynamic_of a m map <> 0 ->
     read_dynamic a fuel m (l_addr map) (dynamic_of a m map) no_tables
     = Some t ->
     (symtab t = 0 \/ strings t = 0 ->
      find_symbol a fuel m map var type = Some 0) /\
     (forall l,
        symtab t <> 0 -> strings t <> 0 ->
        indexed a fuel m t var = Some l ->
        find_symbol a fuel m map var type
        = Some (symbol_address a m t (l_addr map)
                  (List.find (exports a m t var type) l))) /\
     (forall le lg,
        symtab t <> 0 -> strings t <> 0 ->
        hashtab t <> 0 -> gnu_hashtab t <> 0 ->
        dynamic_of a m map' <> 0 -> l_addr map' = l_addr map ->
        read_dynamic a fuel m (l_addr map') (dynamic_of a m map') no_tables
        = Some (without_gnu t) ->
        elf_indexed fuel m t var = Some le ->
        gnu_indexed a fuel m t var = Some lg ->
        (forall s, exports a m t var type s = true -> In s le <-> In s lg) ->
        (forall s s', In s le -> In s' le ->
                      exports a m t var type s = true ->
                      exports a m t var type s' = true -> s = s') ->
        find_symbol a fuel m map var type
        = find_symbol a fuel m map' var type)).
Proof.
  intros Hvar. split.
  - intros Hdyn. unfold find_symbol. rewrite Hdyn. reflexivity.
  - intros t Hdyn Ht.
    rewrite (find_symbol_tables _ _ _ _ _ _ _ Hdyn Ht).
    split; [apply lookup_symbol_missing|]. split.
    + intros l Hsym Hstr Hl. apply lookup_symbol_indexed; assumption.
    + intros le lg Hsym Hstr Hhash Hgnu Hdyn' Haddr Ht' Hle Hlg Hsame Huniq.
      rewrite (find_symbol_tables _ _ _ _ _ _ _ Hdyn' Ht'), Haddr.
      rewrite (lookup_symbol_indexed _ _ _ t _ _ _ lg Hvar Hsym Hstr)
        by (rewrite indexed_gnu; assumption).
      rewrite (lookup_symbol_indexed _ _ _ (without_gnu t) _ _ _ le Hvar
                 Hsym Hstr)
        by (rewrite indexed_classical; assumption).
      f_equal.
      change (symbol_address a m t (l_addr map)
                (List.find (exports a m t var type) lg)
              = symbol_address a m t (l_addr map)
                  (List.find (exports a m t var type) le)).
      f_equal. symmetry. apply find_unique; assumption.
Qed.

Lemma find_symbol_result_witness :
  find_symbol X86_64 10 image_two_names map_gnu name_foo STT_OBJECT
  = Some (sample_bias + 0x4010)
  /\ find_symbol X86_64 10 image_two_names map_gnu name_foo STT_OBJECT
     = find_symbol X86_64 10 image_two_names map_classical name_foo STT_OBJECT.
Proof.
  assert (Hvar : Forall (fun c => 0 < c < 256) name_foo)
    by (vm_compute; repeat constructor).
  destruct (find_symbol_result X86_64 10 image_two_names map_gnu map_classical
              name_foo STT_OBJECT Hvar) as [_ H].
  destruct (H (sample_tables true)) as (_ & Hfound & Hsame);
    [vm_compute; discriminate | vm_compute; reflexivity |].
  split.
  - rewrite (Hfound [1]);
      [reflexivity | vm_compute; discriminate | vm_compute; discriminate
      | vm_compute; reflexivity].
  - apply (Hsame [2; 1] [1]);
      [vm_compute; discriminate | vm_compute; discriminate
      | vm_compute; discriminate | vm_compute; discriminate
      | vm_compute; discriminate | vm_compute; reflexivity
      | vm_compute; reflexivity | vm_compute; reflexivity
      | vm_compute; reflexivity | |].
    + intros s Hs. split.
      * intros [<-|[<-|[]]];
          [vm_compute in Hs; discriminate Hs|left; reflexivity].
      * intros [<-|[]]. right; left; reflexivity.
    + intros s s' [<-|[<-|[]]] [<-|[<-|[]]] Hs Hs';
        try reflexivity; vm_compute in Hs; vm_compute in Hs'; discriminate.
Defined.

(** Both tables of [image_same_name] list the two global objects named
    foo, and both tables of [image_import] are as the formats prescribe
    (the GNU table starts at the first defined symbol), yet the lookup
    through the classical table and the lookup through the GNU table
    return different results; in [image_import] a global object named
    foo is present and the lookup through the GNU table returns null. *)
Lemma find_symbol_depends_on_table :
  (elf_indexed 10 image_same_name (sample_tables true) name_foo = Some [2; 1]
   /\ gnu_indexed X86_64 10 image_same_name (sample_tables true) name_foo
      = Some [1; 2]
   /\ find_symbol X86_64 10 image_same_name map_classical name_foo STT_OBJECT
      = Some (sample_bias + 0x4020)
   /\ find_symbol X86_64 10 image_same_name map_gnu name_foo STT_OBJECT
      = Some (sample_bias + 0x4010))
  /\ (exports X86_64 image_import (sample_tables true) name_foo STT_OBJECT 1
      = true
      /\ find_symbol X86_64 10 image_import map_classical name_foo STT_OBJECT
         = Some sample_bias
      /\ find_symbol X86_64 10 image_import map_gnu name_foo STT_OBJECT
         = Some 0).
Proof. vm_compute. repeat split; reflexivity. Qed.

(** ** Numbers in hexadecimal: written by [wld_vsprintf], read by
    [preload_reserve] *)

Lemma hex_chars_digit (k : nat) :
  (k < 16)%nat ->
  is_hex_digit (nth k hex_chars 0) = true
  /\ digit_value (nth k hex_chars 0) = Z.of_nat k.
Proof.
  intros Hk.
  do 16 (destruct k as [|k]; [vm_compute; split; reflexivity|]). lia.
Qed.

Lemma nibble_range x i : 0 <= Z.land (Z.shiftr x i) 15 < 16.
Proof.
  change 15 with (Z.ones 4). rewrite Z.land_ones by lia.
  apply Z.mod_pos_bound. lia.
Qed.

Lemma hex_loop_all_hex n x : all_hex (hex_loop n x).
Proof.
  induction n as [|n IH]; cbn [hex_loop]; constructor; [|exact IH].
  pose proof (nibble_range x (Z.of_nat n * 4)).
  apply hex_chars_digit. lia.
Qed.

Lemma hex_number_from_hex_loop n x acc :
  0 <= x ->
  hex_number_from (hex_loop n x) acc = acc * 16 ^ Z.of_nat n + x mod 16 ^ Z.of_nat n.
Proof.
  intros Hx. revert acc. induction n as [|n IH]; intros acc.
  - cbn [hex_loop hex_number_from]. change (16 ^ Z.of_nat 0) with 1.
    rewrite Z.mod_1_r. lia.
  - cbn [hex_loop hex_number_from]. rewrite IH.
    pose proof (nibble_range x (Z.of_nat n * 4)) as Hn.
    destruct (hex_chars_digit (Z.to_nat (Z.land (Z.shiftr x (Z.of_nat n * 4)) 15))
                ltac:(lia)) as [_ Hd].
    rewrite Hd, Z2Nat.id by lia.
    change 15 with (Z.ones 4). rewrite Z.land_ones by lia.
    rewrite Z.shiftr_div_pow2 by lia.
    replace (2 ^ (Z.of_nat n * 4)) with (16 ^ Z.of_nat n)
      by (rewrite Z.mul_comm, Z.pow_mul_r by lia; reflexivity).
    change (2 ^ 4) with 16.
    rewrite Nat2Z.inj_succ, Z.pow_succ_r by lia.
    rewrite (Z.mul_comm 16 (16 ^ Z.of_nat n)).
    rewrite (Z.rem_mul_r x (16 ^ Z.of_nat n) 16) by lia.
    ring.
Qed.

Lemma hex_number_hex_ulong a x : hex_number (hex_ulong a x) = wrap a x.
Proof.
  unfold hex_number, hex_ulong.
  rewrite hex_number_from_hex_loop
    by (apply Z.mod_pos_bound; destruct a; reflexivity).
  replace (16 ^ Z.of_nat (Z.to_nat (2 * word_bytes a))) with (word_mod a)
    by (destruct a; reflexivity).
  unfold wrap. rewrite Z.mod_mod by (destruct a; discriminate). lia.
Qed.

Lemma hex_number_hex_uint x : hex_number (hex_uint x) = x mod 2 ^ 32.
Proof.
  unfold hex_number, hex_uint.
  rewrite hex_number_from_hex_loop by (apply Z.mod_pos_bound; lia).
  change (16 ^ Z.of_nat 8) with (2 ^ 32).
  rewrite Z.mod_mod by lia. lia.
Qed.

Lemma wrap_idem a x : wrap a (wrap a x) = wrap a x.
Proof. unfold wrap. apply Z.mod_mod. destruct a; discriminate. Qed.

(** X1.  The digits [wld_vsprintf] writes for [%p] and [%lx] are read
    back by the parsing loop of [preload_reserve] as the number printed
    (modulo the word size), and a range printed as [%p-%p] is read back
    as the same two bounds, the first one rounded down to a page; the
    eight digits of [%x] denote the argument modulo 2^32. *)
Theorem parse_loop_reads_printed_numbers a g x y start first :
  parse_loop a g (hex_ulong a x) 0 start first = Some (wrap a x, start, first)
  /\ parse_loop a g (hex_ulong a x ++ ch "-" :: hex_ulong a y) 0 0 true
     = Some (wrap a y, and_not a (wrap a x) (page_mask g), false)
  /\ all_hex (hex_uint x)
  /\ hex_number (hex_uint x) = x mod 2 ^ 32.
Proof.
  split; [|split; [|split]].
  - rewrite parse_loop_all_hex by apply hex_loop_all_hex.
    rewrite hex_number_hex_ulong, wrap_idem. reflexivity.
  - rewrite parse_loop_range by apply hex_loop_all_hex.
    unfold parsed_start. rewrite !hex_number_hex_ulong, !wrap_idem.
    reflexivity.
  - apply hex_loop_all_hex.
  - apply hex_number_hex_uint.
Qed.

(** ** The hash functions *)

Lemma elf_hash_step_range h1 :
  0 <= h1 < 2 ^ 32 ->
  let hi := Z.land h1 0xf0000000 in
  0 <= Z.lxor (Z.lxor h1 hi) (Z.shiftr hi 24) < 2 ^ 28.
Proof.
  intros Hh hi.
  set (r := Z.lxor (Z.lxor h1 hi) (Z.shiftr hi 24)).
  assert (Hhigh : forall n, 32 <= n -> Z.testbit h1 n = false).
  { intros n Hn. rewrite <- (Z.mod_small h1 (2 ^ 32)) by lia.
    apply Z.mod_pow2_bits_high. lia. }
  assert (Hr : r = r mod 2 ^ 28).
  { apply Z.bits_inj'. intros n Hn.
    destruct (Z.lt_ge_cases n 28) as [Hlt|Hge].
    - rewrite Z.mod_pow2_bits_low by lia. reflexivity.
    - rewrite Z.mod_pow2_bits_high by lia.
      unfold r, hi.
      rewrite !Z.lxor_spec, Z.shiftr_spec, !Z.land_spec by lia.
      rewrite (Hhigh (n + 24)) by lia.
      destruct (Z.lt_ge_cases n 32) as [Hlt|Hge'].
      + assert (Hn4 : n = 28 \/ n = 29 \/ n = 30 \/ n = 31) by lia.
        destruct Hn4 as [Hn4 | [Hn4 | [Hn4 | Hn4]]]; subst n;
          match goal with
          | |- context [Z.testbit 4026531840 ?k] =>
              change (Z.testbit 4026531840 k) with true
          end;
          match goal with
          | |- context [Z.testbit h1 ?k] => destruct (Z.testbit h1 k)
          end; reflexivity.
      + rewrite (Hhigh n) by lia. reflexivity. }
  rewrite Hr. apply Z.mod_pos_bound. lia.
Qed.

Lemma elf_hash_loop_range name :
  forall hash, 0 <= hash < 2 ^ 28 -> 0 <= elf_hash_loop name hash < 2 ^ 28.
Proof.
  induction name as [|c name IH]; intros hash Hh; [exact Hh|].
  cbn [elf_hash_loop]. apply IH.
  apply elf_hash_step_range. apply Z.mod_pos_bound. lia.
Qed.

Lemma gnu_hash_loop_range name :
  forall h, 0 <= h < 2 ^ 32 -> 0 <= gnu_hash_loop name h < 2 ^ 32.
Proof.
  induction name as [|c name IH]; intros h Hh; [exact Hh|].
  cbn [gnu_hash_loop]. apply IH. apply Z.mod_pos_bound. lia.
Qed.

(** X2.  Whatever the name, [wld_elf_hash] returns a value below 2^28:
    the four top bits of the 32-bit hash are folded back and cleared in
    every round.  [gnu_hash] returns a 32-bit value, and appending a
    character multiplies the hash by 33 and adds the character, modulo
    2^32. *)
Theorem hash_ranges (name : list Z) (c : Z) :
  0 <= wld_elf_hash name < 2 ^ 28
  /\ 0 <= gnu_hash name < 2 ^ 32
  /\ gnu_hash (name ++ [c]) = (gnu_hash name * 33 + c) mod 2 ^ 32.
Proof.
  split; [|split].
  - apply elf_hash_loop_range. lia.
  - apply gnu_hash_loop_range. unfold gnu_hash. lia.
  - unfold gnu_hash. generalize 5381.
    induction name as [|d name IH]; intros h; [reflexivity|].
    cbn [app gnu_hash_loop]. apply IH.
Qed.

(** ** Rounding to pages *)

Lemma word_mod_pow2 a : word_mod a = 2 ^ word_bits a.
Proof. reflexivity. Qed.

Lemma word_bits_pos a : 0 < word_bits a.
Proof. destruct a; reflexivity. Qed.

(** [x & ~mask] for a mask of [k] low bits clears these bits. *)
Lemma and_not_low_bits a x k :
  0 <= k <= word_bits a ->
  0 <= x < word_mod a ->
  and_not a x (2 ^ k - 1) = x - x mod 2 ^ k.
Proof.
  intros Hk Hx. unfold and_not.
  pose proof (word_bits_pos a) as Hw.
  assert (Hhigh : forall n, word_bits a <= n -> Z.testbit x n = false).
  { intros n Hn. rewrite <- (Z.mod_small x (2 ^ word_bits a)) by exact Hx.
    apply Z.mod_pow2_bits_high. lia. }
  replace (x - x mod 2 ^ k) with (Z.shiftl (Z.shiftr x k) k).
  2:{ rewrite Z.shiftl_mul_pow2, Z.shiftr_div_pow2 by lia.
      pose proof (Z.div_mod x (2 ^ k) ltac:(lia)). lia. }
  rewrite word_mod_pow2.
  replace (2 ^ word_bits a - 1) with (Z.ones (word_bits a))
    by (rewrite Z.ones_equiv; lia).
  replace (2 ^ k - 1) with (Z.ones k) by (rewrite Z.ones_equiv; lia).
  apply Z.bits_inj'. intros n Hn.
  rewrite Z.land_spec, Z.lxor_spec, !Z.testbit_ones_nonneg by lia.
  destruct (Z.ltb_spec n k) as [Hlt|Hge].
  - rewrite Z.shiftl_spec_low by lia.
    destruct (Z.ltb_spec n (word_bits a)); [|lia].
    cbn. apply andb_false_r.
  - rewrite Z.shiftl_spec, Z.shiftr_spec by lia.
    replace (n - k + k) with n by lia.
    destruct (Z.ltb_spec n (word_bits a)) as [Hlt|Hge'].
    + cbn. apply andb_true_r.
    + rewrite (Hhigh n) by lia. reflexivity.
Qed.

Lemma wrap_range a x : 0 <= wrap a x < word_mod a.
Proof. apply Z.mod_pos_bound. destruct a; reflexivity. Qed.

(** X3.  With a page size of 2^k bytes, the start [preload_reserve] takes
    from the digits before the dash is the number rounded down to a page
    boundary, and the end it takes from the digits after the dash is the
    number rounded up to a page boundary (when the rounding does not
    leave the word). *)
Theorem parsed_bounds_page_aligned a g k (s : list Z) :
  page_mask g = 2 ^ k - 1 ->
  0 <= k <= word_bits a ->
  let v := wrap a (hex_number s) in
  parsed_start a g s mod page_size g = 0
  /\ parsed_start a g s <= v < parsed_start a g s + page_size g
  /\ (v + page_mask g < word_mod a ->
      parsed_end a g s mod page_size g = 0
      /\ v <= parsed_end a g s < v + page_size g).
Proof.
  intros Hmask Hk v. unfold parsed_start, parsed_end, page_size.
  fold v. rewrite Hmask.
  replace (2 ^ k - 1 + 1) with (2 ^ k) by lia.
  assert (Hpos : 0 < 2 ^ k) by (apply Z.pow_pos_nonneg; lia).
  pose proof (wrap_range a (hex_number s)) as Hv. fold v in Hv.
  rewrite (and_not_low_bits a v k Hk Hv).
  pose proof (Z.mod_pos_bound v (2 ^ k) Hpos) as Hm.
  split; [|split].
  - rewrite Zminus_mod, Z.mod_mod, Z.sub_diag by lia. apply Z.mod_0_l. lia.
  - lia.
  - intros Hfit.
    assert (Hw : wrap a (v + (2 ^ k - 1)) = v + (2 ^ k - 1))
      by (unfold wrap; apply Z.mod_small; lia).
    rewrite Hw.
    rewrite (and_not_low_bits a (v + (2 ^ k - 1)) k Hk) by lia.
    pose proof (Z.mod_pos_bound (v + (2 ^ k - 1)) (2 ^ k) Hpos) as Hm'.
    split.
    + rewrite Zminus_mod, Z.mod_mod, Z.sub_diag by lia. apply Z.mod_0_l. lia.
    + split; [|lia].
      (* the rounded value is a multiple of the page size above v - 1 *)
      pose proof (Z.div_mod (v + (2 ^ k - 1)) (2 ^ k) ltac:(lia)) as Hd.
      pose proof (Z.div_mod v (2 ^ k) ltac:(lia)) as Hd'.
      assert (Hq : v / 2 ^ k <= (v + (2 ^ k - 1)) / 2 ^ k)
        by (apply Z.div_le_mono; lia).
      destruct (Z.eq_dec (v mod 2 ^ k) 0) as [Hz|Hnz]; [nia|].
      assert (v / 2 ^ k + 1 <= (v + (2 ^ k - 1)) / 2 ^ k).
      { apply Z.div_le_lower_bound; [lia|]. nia. }
      nia.
Qed.

Lemma parsed_bounds_page_aligned_witness :
  parsed_start X86_64 sample_globals (bytes_of_string "12345")
  mod page_size sample_globals = 0
  /\ parsed_end X86_64 sample_globals (bytes_of_string "12345")
     mod page_size sample_globals = 0.
Proof.
  destruct (parsed_bounds_page_aligned X86_64 sample_globals 12
              (bytes_of_string "12345") eq_refl ltac:(split; discriminate))
    as (H1 & _ & H2).
  split; [exact H1|]. apply H2. reflexivity.
Defined.

Lemma and_not_range a x m : 0 <= x < word_mod a -> 0 <= and_not a x m < word_mod a.
Proof.
  intros Hx. unfold and_not.
  set (r := Z.land x (Z.lxor (word_mod a - 1) m)).
  pose proof (word_bits_pos a) as Hw.
  assert (Hr : r = r mod 2 ^ word_bits a).
  { apply Z.bits_inj'. intros n Hn.
    destruct (Z.lt_ge_cases n (word_bits a)) as [Hlt|Hge].
    - rewrite Z.mod_pow2_bits_low by lia. reflexivity.
    - rewrite Z.mod_pow2_bits_high by lia. unfold r.
      rewrite Z.land_spec.
      rewrite <- (Z.mod_small x (2 ^ word_bits a)) by exact Hx.
      rewrite Z.mod_pow2_bits_high by lia. reflexivity. }
  rewrite Hr. apply Z.mod_pos_bound. apply Z.pow_pos_nonneg; lia.
Qed.

(** ** [wld_strncmp] and [wld_memset] *)

Lemma load8_range m p : 0 <= load8 m p < 256.
Proof. unfold load8. apply Z.mod_pos_bound. lia. Qed.

Lemma signed_char_diff x y :
  0 <= x < 256 -> 0 <= y < 256 ->
  (signed_char x - signed_char y =? 0) = (x =? y).
Proof.
  intros Hx Hy. unfold signed_char.
  destruct (Z.ltb_spec x 128); destruct (Z.ltb_spec y 128);
    destruct (Z.eqb_spec x y); apply Z.eqb_eq || apply Z.eqb_neq; lia.
Qed.

Lemma strncmp_loop_prefix m c (key : list Z) :
  Forall (fun c => 0 < c < 256) (c :: key) ->
  forall p,
    (strncmp_loop (length key) m p (c :: key) =? 0)
    = starts_with m p (c :: key).
Proof.
  revert c. induction key as [|d key IH]; intros c Hkey p.
  - cbn [length strncmp_loop hd starts_with].
    apply Forall_cons in Hkey as [Hc _].
    rewrite signed_char_diff by (apply load8_range || lia).
    rewrite andb_true_r. reflexivity.
  - apply Forall_cons in Hkey as [Hc Hkey].
    cbn [length strncmp_loop hd tl].
    change (starts_with m p (c :: d :: key))
      with ((load8 m p =? c) && starts_with m (p + 1) (d :: key)).
    pose proof (load8_range m p) as Hb.
    destruct (Z.eqb_spec (load8 m p) 0) as [H0|H0]; cbn [negb andb].
    + destruct (Z.eqb_spec (load8 m p) c) as [Hc'|Hc']; [lia|].
      cbn [andb]. rewrite signed_char_diff by lia. apply Z.eqb_neq. lia.
    + destruct (Z.eqb_spec (load8 m p) c) as [Hc'|Hc']; cbn [andb].
      * apply IH, Hkey.
      * rewrite signed_char_diff by lia. apply Z.eqb_neq. exact Hc'.
Qed.

Lemma strncmp_loop_strcmp m (str2 : list Z) :
  forall k p,
    (length str2 <= k)%nat ->
    strncmp_loop k m p str2 = wld_strcmp m p str2.
Proof.
  induction str2 as [|c str2 IH]; intros k p Hk.
  - cbn [wld_strcmp]. destruct k as [|k]; cbn [strncmp_loop hd].
    + change (signed_char 0) with 0. lia.
    + destruct (Z.eqb_spec (load8 m p) 0) as [H0|H0]; cbn [negb andb];
        change (signed_char 0) with 0; lia.
  - cbn [length] in Hk. destruct k as [|k]; [lia|].
    cbn [strncmp_loop wld_strcmp hd tl].
    destruct (Z.eqb_spec (load8 m p) 0) as [H0|H0]; cbn [negb andb].
    + rewrite H0. reflexivity.
    + destruct (Z.eqb_spec (load8 m p) c); [|reflexivity].
      apply IH. lia.
Qed.

(** X4.  [wld_strncmp] with a length of 0 returns 0 whatever the
    strings.  With the length of the key -- a non-empty string of
    non-zero bytes -- it returns 0 exactly when the string in memory
    starts with the key.  With any greater length it returns what
    [wld_strcmp] returns. *)
Theorem wld_strncmp_tests_prefix m p (key : list Z) :
  Forall (fun c => 0 < c < 256) key ->
  key <> [] ->
  wld_strncmp m p key 0 = 0
  /\ (wld_strncmp m p key (Z.of_nat (length key)) =? 0) = starts_with m p key
  /\ (forall len, Z.of_nat (length key) < len ->
                  wld_strncmp m p key len = wld_strcmp m p key).
Proof.
  intros Hkey Hne. split; [reflexivity|]. split.
  - destruct key as [|c key]; [contradiction|].
    unfold wld_strncmp. cbn [length].
    destruct (Z.leb_spec (Z.of_nat (S (length key))) 0); [lia|].
    replace (Z.to_nat (Z.of_nat (S (length key)) - 1)) with (length key) by lia.
    apply strncmp_loop_prefix, Hkey.
  - intros len Hlen. unfold wld_strncmp.
    destruct (Z.leb_spec len 0); [lia|].
    apply strncmp_loop_strcmp. lia.
Qed.

Lemma wld_strncmp_tests_prefix_witness :
  (wld_strncmp (put_bytes zero_mem 100 (bytes_of_string "PATH=/bin")) 100
     (bytes_of_string "PATH=") 5 =? 0) = true
  /\ (wld_strncmp (put_bytes zero_mem 100 (bytes_of_string "PATH=/bin")) 100
        (bytes_of_string "HOME=") 5 =? 0) = false.
Proof.
  split.
  - destruct (wld_strncmp_tests_prefix
                (put_bytes zero_mem 100 (bytes_of_string "PATH=/bin")) 100
                (bytes_of_string "PATH="))
      as (_ & H & _);
      [vm_compute; repeat constructor | discriminate |].
    change 5 with (Z.of_nat (length (bytes_of_string "PATH="))).
    rewrite H. vm_compute. reflexivity.
  - destruct (wld_strncmp_tests_prefix
                (put_bytes zero_mem 100 (bytes_of_string "PATH=/bin")) 100
                (bytes_of_string "HOME="))
      as (_ & H & _);
      [vm_compute; repeat constructor | discriminate |].
    change 5 with (Z.of_nat (length (bytes_of_string "HOME="))).
    rewrite H. vm_compute. reflexivity.
Defined.

Lemma memset_loop_spec len :
  forall m dst val q,
    memset_loop len m dst val q
    = if (dst <=? q) && (q <? dst + Z.of_nat len) then val mod 256 else m q.
Proof.
  induction len as [|len IH]; intros m dst val q.
  - cbn [memset_loop].
    destruct (Z.leb_spec dst q); destruct (Z.ltb_spec q (dst + Z.of_nat 0));
      cbn [andb]; try reflexivity; lia.
  - cbn [memset_loop]. rewrite IH. unfold store_bytes.
    destruct (Z.leb_spec (dst + 1) q);
      destruct (Z.ltb_spec q (dst + 1 + Z.of_nat len));
      destruct (Z.leb_spec dst q);
      destruct (Z.ltb_spec q (dst + Z.of_nat (S len)));
      destruct (Z.ltb_spec q (dst + Z.of_nat 1));
      cbn [andb]; try reflexivity; try lia.
    replace (q - dst) with 0 by lia. rewrite Z.pow_0_r, Z.div_1_r.
    reflexivity.
Qed.

(** X5.  [wld_memset] returns [dest]; afterwards each of the [len] bytes
    from [dest] on holds the low byte of [val], and every other byte of
    the memory is as before. *)
Theorem wld_memset_fills m dest val len q :
  0 <= len ->
  snd (wld_memset m dest val len) = dest
  /\ load8 (fst (wld_memset m dest val len)) q
     = if (dest <=? q) && (q <? dest + len) then val mod 256 else load8 m q.
Proof.
  intros Hlen. split; [reflexivity|].
  unfold wld_memset, load8. cbn [fst].
  rewrite memset_loop_spec, Z2Nat.id by exact Hlen.
  destruct ((dest <=? q) && (q <? dest + len)); [|reflexivity].
  apply Z.mod_mod. lia.
Qed.

Lemma wld_memset_fills_witness :
  load8 (fst (wld_memset (put_bytes zero_mem 10 [1; 2; 3; 4]) 11 0x1ff 2)) 12
  = 255
  /\ load8 (fst (wld_memset (put_bytes zero_mem 10 [1; 2; 3; 4]) 11 0x1ff 2)) 13
     = 4.
Proof.
  split.
  - rewrite (proj2 (wld_memset_fills (put_bytes zero_mem 10 [1; 2; 3; 4])
                      11 0x1ff 2 12 ltac:(discriminate))).
    reflexivity.
  - rewrite (proj2 (wld_memset_fills (put_bytes zero_mem 10 [1; 2; 3; 4])
                      11 0x1ff 2 13 ltac:(discriminate))).
    reflexivity.
Defined.

(** ** [get_auxiliary] and [is_in_preload_range] *)

Lemma get_type_next a m av i :
  get_type a m (av + auxv_size a) i = get_type a m av (i + 1).
Proof. unfold get_type. f_equal. ring. Qed.

Lemma get_val_next a m av i :
  get_val a m (av + auxv_size a) i = get_val a m av (i + 1).
Proof. unfold get_val. f_equal. ring. Qed.

Lemma read_auxv_next a m av n :
  read_auxv a m av (S n)
  = {| a_type := get_type a m av 0; a_val := get_val a m av 0 |}
    :: read_auxv a m (av + auxv_size a) n.
Proof.
  unfold read_auxv. cbn [List.seq List.map]. f_equal.
  rewrite <- List.seq_shift, List.map_map.
  apply List.map_ext. intros i.
  rewrite get_type_next, get_val_next.
  replace (Z.of_nat (S i)) with (Z.of_nat i + 1) by lia. reflexivity.
Qed.

(** A loop that walks the vector up to the first entry of the wanted
    type, in terms of the entries before the terminator. *)
Lemma walk_auxv {R} a m (found : Z -> option R) (none : option R)
      (loop : nat -> Z -> option R) t :
  (forall fuel av,
      loop (S fuel) av
      = if get_type a m av 0 =? AT_NULL then none
        else if get_type a m av 0 =? t then found (get_val a m av 0)
        else loop fuel (av + auxv_size a)) ->
  forall n0 fuel av,
    (forall j, (j < n0)%nat -> get_type a m av (Z.of_nat j) <> AT_NULL) ->
    get_type a m av (Z.of_nat n0) = AT_NULL ->
    (n0 < fuel)%nat ->
    loop fuel av
    = match first_of_type (read_auxv a m av n0) t with
      | Some v => found v
      | None => none
      end.
Proof.
  intros Hloop. induction n0 as [|n0 IH]; intros fuel av Hnz Hnull Hfuel.
  - destruct fuel as [|fuel]; [lia|]. rewrite Hloop.
    change (Z.of_nat 0) with 0 in Hnull. rewrite Hnull. reflexivity.
  - destruct fuel as [|fuel]; [lia|]. rewrite Hloop, read_auxv_next.
    cbn [first_of_type a_type a_val].
    pose proof (Hnz 0%nat ltac:(lia)) as H0. change (Z.of_nat 0) with 0 in H0.
    destruct (Z.eqb_spec (get_type a m av 0) AT_NULL); [contradiction|].
    destruct (get_type a m av 0 =? t); [reflexivity|].
    apply IH; [| |lia].
    + intros j Hj. rewrite get_type_next.
      replace (Z.of_nat j + 1) with (Z.of_nat (S j)) by lia.
      apply Hnz. lia.
    + rewrite get_type_next.
      replace (Z.of_nat n0 + 1) with (Z.of_nat (S n0)) by lia.
      exact Hnull.
Qed.

(** X6.  On a vector of [n0] entries followed by an [AT_NULL] entry,
    [get_auxiliary] returns the value of the first entry of the type,
    converted to [int], and the default value when no entry has the
    type. *)
Theorem get_auxiliary_first_entry a fuel m av n0 type def_val :
  (forall j, (j < n0)%nat -> get_type a m av (Z.of_nat j) <> AT_NULL) ->
  get_type a m av (Z.of_nat n0) = AT_NULL ->
  (n0 < fuel)%nat ->
  get_auxiliary a fuel m av type def_val
  = Some match first_of_type (read_auxv a m av n0) (wrap a type) with
         | Some v => to_int v
         | None => def_val
         end.
Proof.
  intros Hnz Hnull Hfuel.
  rewrite (walk_auxv a m (fun v => Some (to_int v)) (Some def_val)
             (fun fuel av => get_auxiliary a fuel m av type def_val)
             (wrap a type) ltac:(reflexivity) n0 fuel av Hnz Hnull Hfuel).
  destruct (first_of_type _ _); reflexivity.
Qed.

Lemma get_auxiliary_first_entry_witness :
  get_auxiliary X86_64 10 sample_mem sample_av AT_PAGESZ 1 = Some 4096
  /\ get_auxiliary X86_64 10 sample_mem sample_av AT_UID 1000 = Some 1000.
Proof.
  destruct sample_auxv_terminated as [Hnz Hnull].
  split.
  - rewrite (get_auxiliary_first_entry X86_64 10 sample_mem sample_av 4
               AT_PAGESZ 1 Hnz Hnull ltac:(lia)).
    vm_compute. reflexivity.
  - rewrite (get_auxiliary_first_entry X86_64 10 sample_mem sample_av 4
               AT_UID 1000 Hnz Hnull ltac:(lia)).
    vm_compute. reflexivity.
Defined.

(** *** Setting a value, then getting it *)

Lemma first_of_type_none (l : list wld_auxv) t :
  ~ In t (types_of l) -> first_of_type l t = None.
Proof.
  induction l as [|x l IH]; intros Hin; [reflexivity|].
  cbn [first_of_type]. cbn [types_of List.map In] in Hin.
  destruct (Z.eqb_spec (a_type x) t) as [Heq|Hne]; [tauto|].
  apply IH. unfold types_of. tauto.
Qed.

Lemma first_of_type_insert (l : list wld_auxv) ty v t i :
  type_index l ty = Some i ->
  first_of_type (<[i := {| a_type := ty; a_val := v |}]> l) t
  = if ty =? t then Some v else first_of_type l t.
Proof.
  revert i. induction l as [|x l IH]; intros i; [discriminate|].
  cbn [type_index].
  destruct (Z.eqb_spec (a_type x) ty) as [Heq|Hne].
  - intros [= <-]. subst ty. cbn.
    destruct (a_type x =? t); reflexivity.
  - destruct (type_index l ty) as [i'|] eqn:Hi; [|discriminate].
    cbn [option_map]. intros [= <-].
    change (<[S i' := {| a_type := ty; a_val := v |}]> (x :: l))
      with (x :: <[i' := {| a_type := ty; a_val := v |}]> l).
    cbn [first_of_type]. rewrite (IH i' eq_refl).
    destruct (Z.eqb_spec (a_type x) t) as [Hx|Hx]; [|reflexivity].
    destruct (Z.eqb_spec ty t); [congruence|reflexivity].
Qed.

Lemma type_index_some (l : list wld_auxv) t :
  In t (types_of l) -> exists i, type_index l t = Some i.
Proof.
  intros Hin. destruct (type_index l t) as [i|] eqn:Hi; [eauto|].
  apply type_index_none in Hi. contradiction.
Qed.

Lemma type_index_word a (l : list wld_auxv) t i :
  word_typed a l -> type_index l t = Some i -> is_word a t.
Proof.
  intros Hl Hi. apply type_index_bound in Hi as (e & He & <-).
  unfold word_typed in Hl. rewrite Forall_forall in Hl.
  apply Hl. eapply list_elem_of_lookup_2, He.
Qed.

Lemma first_of_type_set_entry a (l : list wld_auxv) e t :
  word_typed a l ->
  In (a_type e) (types_of l) ->
  first_of_type (set_entry a l e) t
  = if a_type e =? t then Some (wrap a (a_val e)) else first_of_type l t.
Proof.
  intros Hl Hin. destruct (type_index_some l _ Hin) as [i Hi].
  unfold set_entry. rewrite Hi.
  rewrite (wrap_word a (a_type e)) by (eapply type_index_word; eassumption).
  apply first_of_type_insert, Hi.
Qed.

Lemma first_of_type_settings a (ns2 : list wld_auxv) t :
  forall l,
    word_typed a l ->
    (forall e, In e ns2 -> In (a_type e) (types_of l)) ->
    ~ In t (types_of ns2) ->
    first_of_type (fold_left (set_entry a) ns2 l) t = first_of_type l t.
Proof.
  induction ns2 as [|e ns2 IH]; intros l Hl Hpres Hnot; [reflexivity|].
  cbn [fold_left]. cbn [types_of List.map In] in Hnot.
  assert (He : In (a_type e) (types_of l)) by (apply Hpres; left; reflexivity).
  rewrite IH.
  - rewrite first_of_type_set_entry by assumption.
    destruct (Z.eqb_spec (a_type e) t); [tauto|reflexivity].
  - apply set_entry_word_typed, Hl.
  - intros e' He'. rewrite set_entry_types by exact Hl.
    destruct (type_index_some l _ He) as [i ->].
    apply Hpres. right. exact He'.
  - unfold types_of. tauto.
Qed.

Lemma first_of_type_last_setting a (ns1 ns2 : list wld_auxv) e :
  forall l,
    word_typed a l ->
    (forall x, In x (ns1 ++ e :: ns2) -> In (a_type x) (types_of l)) ->
    ~ In (a_type e) (types_of ns2) ->
    first_of_type (fold_left (set_entry a) (ns1 ++ e :: ns2) l) (a_type e)
    = Some (wrap a (a_val e)).
Proof.
  intros l Hl Hpres Hnot.
  rewrite fold_left_app. cbn [fold_left].
  assert (Hty : types_of (fold_left (set_entry a) ns1 l) = types_of l).
  { apply settings_present; [exact Hl|].
    intros x Hx. apply Hpres, in_or_app. left. exact Hx. }
  assert (Hw : word_typed a (fold_left (set_entry a) ns1 l))
    by (apply settings_word_typed, Hl).
  assert (He : In (a_type e) (types_of (fold_left (set_entry a) ns1 l))).
  { rewrite Hty. apply Hpres, in_or_app. right. left. reflexivity. }
  rewrite first_of_type_settings.
  - rewrite first_of_type_set_entry by assumption.
    rewrite Z.eqb_refl. reflexivity.
  - apply set_entry_word_typed, Hw.
  - intros x Hx. rewrite set_entry_types by exact Hw.
    destruct (type_index_some _ _ He) as [i ->].
    rewrite Hty. apply Hpres, in_or_app. right. right. exact Hx.
  - exact Hnot.
Qed.

Lemma delete_entry_sub (l : list wld_auxv) t x :
  In x (delete_entry l t) -> In x l.
Proof.
  destruct (type_index l t) as [i|] eqn:Hi.
  - destruct (type_index_lookup l t i Hi) as (y & Hy & _).
    intros Hx.
    apply (Permutation_in x (delete_entry_perm l t i y Hi Hy)).
    right. exact Hx.
  - rewrite delete_entry_absent by exact Hi. tauto.
Qed.

Lemma deletions_sub (ts : list Z) :
  forall (l : list wld_auxv) x, In x (fold_left delete_entry ts l) -> In x l.
Proof.
  induction ts as [|t ts IH]; intros l x Hx; [exact Hx|].
  cbn [fold_left] in Hx. eapply delete_entry_sub, IH, Hx.
Qed.

Lemma length_delete_entry (l : list wld_auxv) t :
  (length (delete_entry l t) <= length l)%nat.
Proof.
  unfold delete_entry.
  destruct (type_index l t); [|lia].
  destruct (l !! (length l - 1)%nat); [|lia].
  rewrite length_take, length_insert. lia.
Qed.

Lemma length_deletions (ts : list Z) :
  forall l : list wld_auxv,
    (length (fold_left delete_entry ts l) <= length l)%nat.
Proof.
  induction ts as [|t ts IH]; intros l; [cbn; lia|].
  cbn [fold_left]. pose proof (IH (delete_entry l t)).
  pose proof (length_delete_entry l t). lia.
Qed.

(** The entries of the vector are not [AT_NULL] when the list read from
    it holds no [AT_NULL] type. *)
Lemma read_auxv_types a m av n (l : list wld_auxv) :
  read_auxv a m av n = l ->
  ~ In AT_NULL (types_of l) ->
  forall j, (j < n)%nat -> get_type a m av (Z.of_nat j) <> AT_NULL.
Proof.
  intros Hl Hnot j Hj Hnull. apply Hnot. subst l.
  unfold types_of. apply in_map_iff.
  exists (entry_at a m av j). split; [exact Hnull|].
  apply list_elem_of_In. eapply list_elem_of_lookup_2.
  apply read_auxv_lookup. exact Hj.
Qed.

Lemma read_auxv_no_null a m av n :
  (forall j, (j < n)%nat -> get_type a m av (Z.of_nat j) <> AT_NULL) ->
  ~ In AT_NULL (types_of (read_auxv a m av n)).
Proof.
  intros Hnz Hin. unfold types_of in Hin. apply in_map_iff in Hin.
  destruct Hin as (e & He & Hin).
  apply list_elem_of_In, list_elem_of_lookup_1 in Hin as [i Hi].
  assert (Hlt : (i < n)%nat).
  { apply lookup_lt_Some in Hi. rewrite length_read_auxv in Hi. exact Hi. }
  rewrite read_auxv_lookup in Hi by exact Hlt. injection Hi as <-.
  exact (Hnz i Hlt He).
Qed.


(** X7.  When every entry of [new_av] replaces an entry the vector
    keeps (its type is in the vector and is not deleted), then after
    [set_auxiliary_values] a call of [get_auxiliary] on the rewritten
    vector returns, for the type of an entry of [new_av], the value
    that entry set (of the last such entry, as an [int]); and for a
    deleted type that the vector held no more often than [delete_av]
    names it, it returns the default value. *)
Theorem get_auxiliary_after_set_auxiliary_values :
  forall a fuel m av stack n0
         (ds : list wld_auxv) dnul drest (ns : list wld_auxv) nnul nrest,
    (forall j, (j < n0)%nat -> get_type a m av (Z.of_nat j) <> AT_NULL) ->
    get_type a m av (Z.of_nat n0) = AT_NULL ->
    (n0 < fuel)%nat ->
    Forall (fun e => a_type e <> AT_NULL) ds -> a_type dnul = AT_NULL ->
    Forall (fun e => a_type e <> AT_NULL) ns -> a_type nnul = AT_NULL ->
    stack <= av ->
    av + (Z.of_nat n0 + 1) * auxv_size a - stack < 2 ^ 31 ->
    (forall e, In e ns ->
               In (a_type e) (types_of (read_auxv a m av n0))
               /\ ~ In (a_type e) (types_of ds)) ->
    exists s,
      set_auxiliary_values a fuel m av (ns ++ nnul :: nrest)
        (ds ++ dnul :: drest) stack = Some s
      /\ (forall ns1 e ns2 def_val,
             ns = ns1 ++ e :: ns2 -> ~ In (a_type e) (types_of ns2) ->
             get_auxiliary a fuel (s_mem s) (s_av s) (a_type e) def_val
             = Some (to_int (wrap a (a_val e))))
      /\ (forall t def_val,
             In t (types_of ds) -> is_word a t ->
             (occurrences t (types_of (read_auxv a m av n0))
              <= occurrences t (types_of ds))%nat ->
             get_auxiliary a fuel (s_mem s) (s_av s) t def_val
             = Some def_val).
Proof.
  intros a fuel m av stack n0 ds dnul drest ns nnul nrest
         Hnz Hnull Hfuel Hds Hdnul Hns Hnnul Hstack Hlen Hrepl.
  destruct (set_auxiliary_values_spec a fuel m av stack n0 ds dnul drest
              ns nnul nrest Hnz Hnull Hfuel Hds Hdnul Hns Hnnul Hstack Hlen)
    as (s & Hs & _ & Hcount & Hread & Hterm & _).
  set (orig := read_auxv a m av n0) in *.
  set (kept := fold_left delete_entry (types_of ds) orig) in *.
  set (final := fold_left (set_entry a) ns kept) in *.
  assert (Hw : word_typed a kept)
    by (apply deletions_word_typed, read_auxv_word_typed).
  assert (Hpres : forall e, In e ns -> In (a_type e) (types_of kept)).
  { intros e He. destruct (Hrepl e He). apply deletions_keep_type; assumption. }
  assert (Hty : types_of final = types_of kept)
    by (apply settings_present; assumption).
  assert (Hlenf : length final = length kept)
    by (rewrite <- (length_types_of final), Hty; apply length_types_of).
  assert (Hsmall : (length final < fuel)%nat).
  { pose proof (length_deletions (types_of ds) orig) as Hle.
    unfold orig in Hle at 2. rewrite length_read_auxv in Hle.
    fold kept in Hle. lia. }
  assert (Hnonnull : ~ In AT_NULL (types_of final)).
  { rewrite Hty. intros Hin. apply (read_auxv_no_null a m av n0 Hnz).
    fold orig. unfold types_of in *. apply in_map_iff in Hin.
    destruct Hin as (x & Hx & Hin). apply in_map_iff.
    exists x. split; [exact Hx|]. eapply deletions_sub, Hin. }
  assert (Hget : forall t def_val,
             get_auxiliary a fuel (s_mem s) (s_av s) t def_val
             = match first_of_type final (wrap a t) with
               | Some v => Some (to_int v)
               | None => Some def_val
               end).
  { intros t def_val. rewrite <- Hread.
    apply (walk_auxv a (s_mem s) (fun v => Some (to_int v)) (Some def_val)
             (fun fuel av => get_auxiliary a fuel (s_mem s) av t def_val)
             (wrap a t) ltac:(reflexivity)).
    - apply (read_auxv_types a _ _ _ final Hread Hnonnull).
    - rewrite <- Hcount. apply Hterm, Hlenf.
    - exact Hsmall. }
  exists s. split; [exact Hs|]. split.
  - intros ns1 e ns2 def_val Hsplit Hlast. rewrite Hget.
    assert (Hin : In (a_type e) (types_of kept)).
    { apply Hpres. rewrite Hsplit. apply in_or_app. right. left. reflexivity. }
    destruct (type_index_some kept _ Hin) as [i Hi].
    rewrite (wrap_word a (a_type e)) by (eapply type_index_word; eassumption).
    unfold final. rewrite Hsplit.
    rewrite first_of_type_last_setting; [reflexivity|exact Hw| |exact Hlast].
    intros x Hx. apply Hpres. rewrite Hsplit. exact Hx.
  - intros t def_val Ht Hword Hocc. rewrite Hget, (wrap_word a t Hword).
    rewrite first_of_type_none; [reflexivity|].
    rewrite Hty. intros Hin.
    assert (Hnot : ~ In t (types_of kept)).
    { apply (count_occ_not_In Z.eq_dec).
      pose proof (occurrences_after_deletions (types_of ds) orig t) as Ho.
      fold kept in Ho. unfold occurrences in *. lia. }
    contradiction.
Qed.

Lemma get_auxiliary_after_set_auxiliary_values_witness :
  exists s,
    set_auxiliary_values X86_64 100 sample_mem sample_av sample_new
      sample_delete sample_stack = Some s
    /\ get_auxiliary X86_64 100 (s_mem s) (s_av s) AT_PAGESZ 0 = Some 8192
    /\ get_auxiliary X86_64 100 (s_mem s) (s_av s) AT_SYSINFO_EHDR 7 = Some 7.
Proof.
  destruct sample_auxv_terminated as [Hnz Hnull].
  destruct (get_auxiliary_after_set_auxiliary_values X86_64 100 sample_mem
              sample_av sample_stack 4
              [ {| a_type := AT_SYSINFO; a_val := 0 |};
                {| a_type := AT_SYSINFO_EHDR; a_val := 0 |} ]
              null_entry []
              [ {| a_type := AT_PAGESZ; a_val := 8192 |} ] null_entry [])
    as (s & Hs & Hset & Hdel).
  - exact Hnz.
  - exact Hnull.
  - lia.
  - repeat constructor; discriminate.
  - reflexivity.
  - repeat constructor; discriminate.
  - reflexivity.
  - vm_compute. discriminate.
  - vm_compute. reflexivity.
  - intros e [<-|[]]. split.
    + vm_compute. tauto.
    + vm_compute. intros [H|[H|[]]]; discriminate H.
  - exists s. split; [exact Hs|]. split.
    + apply (Hset [] {| a_type := AT_PAGESZ; a_val := 8192 |} [] 0 eq_refl).
      intros [].
    + apply (Hdel AT_SYSINFO_EHDR 7).
      * vm_compute. tauto.
      * vm_compute. split; [discriminate|reflexivity].
      * vm_compute. lia.
Defined.

(** ** [is_addr_reserved] *)

Lemma is_addr_reserved_ranges a (l : list wine_preload_info) t rest p :
  Forall (fun r => size r <> 0) l ->
  size t = 0 ->
  is_addr_reserved a (l ++ t :: rest) p = Some (existsb (covers a p) l).
Proof.
  intros Hl Ht. induction Hl as [|r l Hr Hl IH].
  - cbn [app is_addr_reserved existsb]. rewrite Ht. reflexivity.
  - cbn [app is_addr_reserved existsb].
    destruct (Z.eqb_spec (size r) 0); [contradiction|].
    destruct (covers a p r); [reflexivity|exact IH].
Qed.

Lemma remove_preload_range_result (l : list wine_preload_info) t rest i :
  Forall (fun r => size r <> 0) l ->
  size t = 0 ->
  (i < length l)%nat ->
  remove_preload_range (l ++ t :: rest) i
  = Some (take i l ++ drop (S i) l ++ t :: t :: rest).
Proof.
  intros Hl Ht Hi.
  destruct (lookup_lt_is_Some_2 l i Hi) as [x Hx].
  pose proof (take_drop_middle l i x Hx) as Hsplit.
  assert (Hlen : length (take i l) = i) by (rewrite length_take; lia).
  assert (Hnz : Forall (fun r => size r <> 0) (x :: drop (S i) l)).
  { rewrite <- Hsplit in Hl. apply Forall_app in Hl. tauto. }
  unfold remove_preload_range.
  replace (l ++ t :: rest)
    with (take i l ++ x :: drop (S i) l ++ t :: rest)
    by (rewrite <- Hsplit at 3; rewrite <- app_assoc; reflexivity).
  pose proof (remove_loop_shift
                (length (take i l ++ x :: drop (S i) l ++ t :: rest))
                (take i l) (drop (S i) l) rest x t Hnz Ht) as H.
  rewrite Hlen in H. apply H.
  rewrite length_app. cbn [length]. rewrite length_app. lia.
Qed.

(** X8.  On a list whose ranges [l] are followed by a terminator, an
    address is reserved exactly when one of the ranges holds it; the
    entries after the terminator are never looked at.  After
    [remove_preload_range] has removed the range at [i], an address is
    reserved exactly when one of the other ranges holds it: in
    particular an address that only the removed range held is no longer
    reserved, and no address becomes reserved. *)
Theorem is_addr_reserved_after_remove a (l : list wine_preload_info) t rest i :
  Forall (fun r => size r <> 0) l ->
  size t = 0 ->
  (i < length l)%nat ->
  exists info',
    remove_preload_range (l ++ t :: rest) i = Some info'
    /\ forall p,
        is_addr_reserved a (l ++ t :: rest) p = Some (existsb (covers a p) l)
        /\ is_addr_reserved a info' p
           = Some (existsb (covers a p) (take i l ++ drop (S i) l))
        /\ (is_addr_reserved a info' p = Some true ->
            is_addr_reserved a (l ++ t :: rest) p = Some true).
Proof.
  intros Hl Ht Hi.
  exists (take i l ++ drop (S i) l ++ t :: t :: rest).
  split; [apply remove_preload_range_result; assumption|].
  intros p.
  assert (Hkept : Forall (fun r => size r <> 0) (take i l ++ drop (S i) l)).
  { apply Forall_app. split; [apply Forall_take|apply Forall_drop]; exact Hl. }
  rewrite (is_addr_reserved_ranges a l t rest p Hl Ht).
  rewrite (app_assoc (take i l)).
  rewrite (is_addr_reserved_ranges a _ t (t :: rest) p Hkept Ht).
  split; [reflexivity|]. split; [reflexivity|].
  intros [= H]. f_equal.
  destruct (lookup_lt_is_Some_2 l i Hi) as [x Hx].
  replace (existsb (covers a p) l)
    with (existsb (covers a p) (take i l ++ x :: drop (S i) l))
    by (rewrite (take_drop_middle l i x Hx); reflexivity).
  rewrite existsb_app in *. cbn [existsb].
  destruct (existsb (covers a p) (take i l)); [reflexivity|].
  cbn [orb] in *. rewrite H. apply orb_true_r.
Qed.

Lemma is_addr_reserved_after_remove_witness :
  exists info',
    remove_preload_range (preload_info_init I386) 4 = Some info'
    /\ is_addr_reserved I386 (preload_info_init I386) 0x7ffff000 = Some true
    /\ is_addr_reserved I386 info' 0x7ffff000 = Some false.
Proof.
  destruct (is_addr_reserved_after_remove I386
              (take 5 (preload_info_init I386))
              {| addr := 0; size := 0 |} [ {| addr := 0; size := 0 |} ] 4)
    as (info' & Hrem & Hres).
  - repeat constructor; discriminate.
  - reflexivity.
  - cbn. lia.
  - exists info'. split; [exact Hrem|].
    destruct (Hres 0x7ffff000) as (H1 & H2 & _).
    split; [exact H1|exact H2].
Defined.

(** *** Reserving a range, then asking for its addresses *)

Lemma low_memory_loop_above a (l : list wine_preload_info) z rest start end_ :
  Forall (fun r => size r <> 0) l ->
  size z = 0 ->
  start < end_ ->
  (forall r, In r l -> addr r <= low_memory_limit ->
             wrap a (addr r + size r) <= start) ->
  forall i,
  exists j,
    (j <= length l)%nat
    /\ low_memory_loop a (l ++ z :: rest) i start end_
       = Some ((i + j)%nat, (start, end_)).
Proof.
  intros Hl Hz Hlt. induction Hl as [|r l Hr Hl IH]; intros Hlow i.
  - exists 0%nat. split; [cbn; lia|].
    cbn [app low_memory_loop]. rewrite Hz, Nat.add_0_r. reflexivity.
  - cbn [app low_memory_loop].
    destruct (Z.eqb_spec (size r) 0); [contradiction|].
    destruct (Z.ltb_spec low_memory_limit (addr r)) as [Hhigh|Hlo].
    + exists 0%nat. split; [cbn; lia|]. rewrite Nat.add_0_r. reflexivity.
    + pose proof (Hlow r ltac:(left; reflexivity) Hlo) as Hend.
      destruct (Z.leb_spec end_ (wrap a (addr r + size r))); [lia|].
      destruct (Z.ltb_spec start (wrap a (addr r + size r))); [lia|].
      destruct (IH ltac:(intros r' Hr'; apply Hlow; right; exact Hr') (S i))
        as (j & Hj & Hloop).
      exists (S j). split; [cbn; lia|].
      rewrite Hloop. replace (i + S j)%nat with (S i + j)%nat by lia.
      reflexivity.
Qed.

Lemma skip_to_end_ranges (l : list wine_preload_info) z rest i :
  Forall (fun r => size r <> 0) l ->
  size z = 0 ->
  skip_to_end (l ++ z :: rest) i = Some (i + length l)%nat.
Proof.
  intros Hl Hz. revert i. induction Hl as [|r l Hr Hl IH]; intros i.
  - cbn [app skip_to_end length]. rewrite Hz, Nat.add_0_r. reflexivity.
  - cbn [app skip_to_end length].
    destruct (Z.eqb_spec (size r) 0); [contradiction|].
    rewrite IH. f_equal. lia.
Qed.

Lemma record_range_above a (l : list wine_preload_info) z rest start end_ :
  Forall (fun r => size r <> 0) l ->
  size z = 0 ->
  start < end_ ->
  (forall r, In r l -> addr r <= low_memory_limit ->
             wrap a (addr r + size r) <= start) ->
  record_range a (l ++ z :: rest) start end_
  = Returns [] (l ++ {| addr := start; size := wrap a (end_ - start) |} :: rest).
Proof.
  intros Hl Hz Hlt Hlow. unfold record_range.
  destruct (low_memory_loop_above a l z rest start end_ Hl Hz Hlt Hlow 0%nat)
    as (j & Hj & ->).
  cbn [Nat.add].
  rewrite drop_app_le by exact Hj.
  rewrite skip_to_end_ranges by (try apply Forall_drop; assumption).
  rewrite length_drop.
  replace (j + (length l - j))%nat with (length l) by lia.
  rewrite insert_middle. reflexivity.
Qed.

(** X9.  For a list whose ranges [l] are followed by two entries of
    size zero, and a string START-END whose bounds, once rounded, form a
    non-empty range that does not overlap the preloader and starts at
    or above the end of every low memory area of the list:
    [preload_reserve] writes nothing and records the range in the first
    of the two entries; afterwards the ranges of the list are [l] and
    the new range, and an address is reserved exactly when a range of
    [l] holds it or it lies between the two bounds. *)
Theorem is_addr_reserved_after_preload_reserve
        a g (s1 s2 : list Z) (l : list wine_preload_info) z1 z2 rest :
  all_hex s1 -> all_hex s2 ->
  Forall (fun r => size r <> 0) l ->
  size z1 = 0 -> size z2 = 0 ->
  let start := parsed_start a g s1 in
  let end_ := parsed_end a g s2 in
  start < end_ ->
  ~ (preloader_start g < end_ /\ start <= preloader_end g) ->
  (forall r, In r l -> addr r <= low_memory_limit ->
             wrap a (addr r + size r) <= start) ->
  exists info',
    preload_reserve a g (s1 ++ ch "-" :: s2) (l ++ z1 :: z2 :: rest)
    = Returns [] info'
    /\ ranges_of info'
       = l ++ [ {| addr := start; size := end_ - start |} ]
    /\ forall p,
        is_addr_reserved a info' p
        = Some (existsb (covers a p) l || ((start <=? p) && (p <? end_))).
Proof.
  intros H1 H2 Hl Hz1 Hz2 start end_ Hlt Hpre Hlow.
  assert (Hs : 0 <= start < word_mod a)
    by (apply and_not_range, wrap_range).
  assert (He : 0 <= end_ < word_mod a)
    by (apply and_not_range, wrap_range).
  assert (Hsize : wrap a (end_ - start) = end_ - start)
    by (apply Z.mod_small; lia).
  set (new := {| addr := start; size := end_ - start |}).
  exists (l ++ new :: z2 :: rest).
  assert (Hnew : Forall (fun r => size r <> 0) (l ++ [new])).
  { apply Forall_app. split; [exact Hl|].
    constructor; [cbn [size new]; lia|constructor]. }
  split; [|split].
  - rewrite preload_reserve_range by assumption.
    fold start end_. rewrite sanity_checks_pass by assumption.
    rewrite bind_ret. cbn [fst snd].
    rewrite record_range_above by assumption.
    rewrite Hsize. reflexivity.
  - replace (l ++ new :: z2 :: rest) with ((l ++ [new]) ++ z2 :: rest)
      by (rewrite <- app_assoc; reflexivity).
    apply ranges_of_app; assumption.
  - intros p.
    replace (l ++ new :: z2 :: rest) with ((l ++ [new]) ++ z2 :: rest)
      by (rewrite <- app_assoc; reflexivity).
    rewrite is_addr_reserved_ranges by assumption.
    rewrite existsb_app. cbn [existsb]. rewrite orb_false_r.
    unfold covers at 2. cbn [addr size new].
    replace (start + (end_ - start)) with end_ by lia.
    rewrite (wrap_word a end_ He). reflexivity.
Qed.

Lemma is_addr_reserved_after_preload_reserve_witness :
  exists info',
    preload_reserve X86_64 sample_globals
      (bytes_of_string "68000123-7000FFff") (preload_info_init X86_64)
    = Returns [] info'
    /\ is_addr_reserved X86_64 info' 0x6fffffff = Some true
    /\ is_addr_reserved X86_64 info' 0x70010000 = Some false.
Proof.
  destruct (is_addr_reserved_after_preload_reserve X86_64 sample_globals
              (bytes_of_string "68000123") (bytes_of_string "7000FFff")
              (take 4 (preload_info_init X86_64))
              {| addr := 0; size := 0 |} {| addr := 0; size := 0 |} [])
    as (info' & Hres & _ & Hp).
  - apply all_hex_decide. reflexivity.
  - apply all_hex_decide. reflexivity.
  - repeat constructor; discriminate.
  - reflexivity.
  - reflexivity.
  - vm_compute. reflexivity.
  - vm_compute. intros [H _]. discriminate H.
  - intros r [<-|[<-|[<-|[<-|[]]]]] Hr; vm_compute; vm_compute in Hr;
      congruence.
  - exists info'. split; [exact Hres|].
    rewrite !Hp. split; vm_compute; reflexivity.
Defined.

(** ** [is_in_preload_range] and the sysinfo values *)






(** ** [map_so_lib]: files it refuses, and what a return means *)



(** ** [wld_vsprintf]: what is not a conversion *)

(** X12.  After a ['%'], a character [c] that selects no conversion
    (it is none of [x], [p], [s], and not an [l] followed by [x]) is
    dropped together with the ['%']; the character [d] after it is
    copied as it is and no argument is consumed.  When the format ends
    right after [c], the function reads past the end of the format.  A
    format that ends with a lone ['%'] gives the text before it. *)
Theorem wld_vsprintf_no_conversion a c d (text rest : list Z) args :
  c <> ch_x -> c <> ch_p -> c <> ch_s -> (c <> ch_l \/ d <> ch_x) ->
  forallb (fun c => negb (c =? ch_percent)) text = true ->
  wld_vsprintf a (ch_percent :: c :: d :: rest) args
  = option_map (cons d) (wld_vsprintf a rest args)
  /\ wld_vsprintf a (text ++ [ch_percent; c]) args = None
  /\ wld_vsprintf a (text ++ [ch_percent]) args = Some text.
Proof.
  intros Hx Hp Hs Hl Htext.
  assert (Hsel : forall p2,
             hd 0 p2 = d \/ p2 = [] ->
             wld_vsprintf a (ch_percent :: c :: p2) args
             = match p2 with
               | d' :: p3 => option_map (cons d') (wld_vsprintf a p3 args)
               | [] => None
               end).
  { intros p2 Hp2. cbn [wld_vsprintf]. rewrite Z.eqb_refl.
    destruct (Z.eqb_spec c ch_x); [contradiction|].
    destruct (Z.eqb_spec c ch_p); [contradiction|].
    destruct (Z.eqb_spec c ch_s); [contradiction|].
    destruct (Z.eqb_spec c ch_l) as [Hcl|Hcl]; cbn [andb]; [|reflexivity].
    destruct p2 as [|d' p3]; [reflexivity|].
    cbn [hd] in *. destruct Hp2 as [->|Hp2]; [|discriminate].
    destruct (Z.eqb_spec d ch_x); [|reflexivity].
    destruct Hl; contradiction. }
  split; [apply (Hsel (d :: rest)); left; reflexivity|].
  assert (Hlit : forall tail r,
             wld_vsprintf a tail args = r ->
             wld_vsprintf a (text ++ tail) args
             = option_map (app text) r).
  { intros tail r <-. clear Hsel. induction text as [|t text IH].
    - cbn [app]. destruct (wld_vsprintf a tail args); reflexivity.
    - cbn [forallb] in Htext. apply andb_true_iff in Htext as [Ht Htext].
      cbn [app wld_vsprintf].
      destruct (t =? ch_percent); [discriminate|].
      rewrite (IH Htext).
      destruct (wld_vsprintf a tail args); reflexivity. }
  split.
  - rewrite (Hlit [ch_percent; c] None); [reflexivity|].
    apply (Hsel []). right. reflexivity.
  - rewrite (Hlit [ch_percent] (Some [])); [|reflexivity].
    cbn [option_map]. rewrite app_nil_r. reflexivity.
Qed.

Lemma wld_vsprintf_no_conversion_witness :
  wld_vsprintf I386 (bytes_of_string "%d%x") [VInt 7]
  = Some (bytes_of_string "%x")
  /\ wld_vsprintf I386 (bytes_of_string "50%") [] = Some (bytes_of_string "50").
Proof.
  split.
  - change (wld_vsprintf I386
              (ch_percent :: ch "d" :: ch_percent :: bytes_of_string "x")
              [VInt 7]
            = Some (bytes_of_string "%x")).
    rewrite (proj1 (wld_vsprintf_no_conversion I386 (ch "d") ch_percent
                      [] (bytes_of_string "x") [VInt 7]
                      ltac:(discriminate) ltac:(discriminate)
                      ltac:(discriminate) ltac:(left; discriminate)
                      eq_refl)).
    reflexivity.
  - apply (proj2 (proj2 (wld_vsprintf_no_conversion I386 (ch "d") 0
                           (bytes_of_string "50") [] []
                           ltac:(discriminate) ltac:(discriminate)
                           ltac:(discriminate) ltac:(left; discriminate)
                           eq_refl))).
Defined.

(** *** A call that returns *)









(** ** [wld_start]: the reservations *)

Lemma bind_emit_returns {B} e (k : unit -> outcome B) tr x :
  k tt = Returns tr x -> bind (emit e) k = Returns (e :: tr) x.
Proof. intros H. unfold bind, emit. rewrite H. reflexivity. Qed.

Lemma format_reserve_warning a (r : wine_preload_info) :
  format_message a fmt_reserve_warning
    [VInt (addr r); VInt (wrap a (addr r + size r))]
  = Some (reserve_warning a r).
Proof.
  unfold format_message.
  change (wld_vsprintf a (bytes_of_string fmt_reserve_warning)
            [VInt (addr r); VInt (wrap a (addr r + size r))])
    with (Some (reserve_warning a r)).
  cbv beta iota. unfold reserve_warning.
  repeat (rewrite length_app).
  pose proof (length_hex_ulong a (addr r)).
  pose proof (length_hex_ulong a (wrap a (addr r + size r))).
  repeat match goal with
         | |- context [length (bytes_of_string ?s)] =>
             let v := eval vm_compute in (length (bytes_of_string s)) in
             change (length (bytes_of_string s)) with v
         end.
  unfold buffer_size.
  match goal with
  | |- (if ?x <? ?y then _ else _) = _ => destruct (Z.ltb_spec x y)
  end; [reflexivity | lia].
Qed.

Lemma print_reserve_warning a (r : wine_preload_info) :
  wld_printf a fmt_reserve_warning
    [VInt (addr r); VInt (wrap a (addr r + size r))]
  = emit (EvWrite 2 (reserve_warning a r)).
Proof. unfold wld_printf. rewrite format_reserve_warning. reflexivity. Qed.

Lemma reserve_loop_ranges a k pargc av t (l : list wine_preload_info) :
  size t = 0 ->
  Forall (fun r => size r <> 0) l ->
  forall fuel pre rest,
    (length l < fuel)%nat ->
    exists rest',
      reserve_loop a fuel k pargc av (pre ++ l ++ t :: rest) (length pre)
      = Returns (flat_map (reserve_calls a k pargc av) l)
          (pre ++ List.filter (stays_reserved a k pargc av) l ++ t :: rest')
      /\ length (List.filter (stays_reserved a k pargc av) l ++ t :: rest')
         = length (l ++ t :: rest).
Proof.
  intros Ht Hl. induction Hl as [|r l Hr Hl IH]; intros fuel pre rest Hfuel.
  - destruct fuel as [|fuel]; [cbn in Hfuel; lia|].
    exists rest. cbn [app reserve_loop flat_map List.filter].
    rewrite lookup_app_r, Nat.sub_diag by lia. cbn [lookup list_lookup].
    rewrite Ht. split; reflexivity.
  - destruct fuel as [|fuel]; [cbn in Hfuel; lia|].
    cbn [length] in Hfuel.
    cbn [reserve_loop]. cbn [app].
    rewrite lookup_app_r, Nat.sub_diag by lia. cbn [lookup list_lookup].
    destruct (Z.eqb_spec (size r) 0); [contradiction|].
    assert (Hrem : remove_preload_range (pre ++ r :: l ++ t :: rest)
                     (length pre)
                   = Some (pre ++ l ++ t :: t :: rest)).
    { unfold remove_preload_range. apply remove_loop_shift.
      - constructor; assumption.
      - exact Ht.
      - rewrite length_app. cbn [length]. rewrite length_app. lia. }
    cbn [flat_map List.filter].
    destruct (holds_stack a pargc av r) eqn:E1;
      [|destruct (mmap_fails a k r) eqn:E2].
    + replace (reserve_calls a k pargc av r) with (@nil event)
        by (unfold reserve_calls; rewrite E1; reflexivity).
      replace (stays_reserved a k pargc av r) with false
        by (unfold stays_reserved; rewrite E1; reflexivity).
      rewrite Hrem.
      destruct (IH fuel pre (t :: rest) ltac:(lia)) as (rest' & Hloop & Hlen).
      exists rest'. split; [exact Hloop|].
      rewrite Hlen. repeat (rewrite length_app || cbn [length]). lia.
    + replace (stays_reserved a k pargc av r) with false
        by (unfold stays_reserved; rewrite E1, E2; reflexivity).
      destruct (IH fuel pre (t :: rest) ltac:(lia))
        as (rest' & Hloop & Hlen).
      exists rest'. split.
      * unfold reserve_calls. rewrite E1, E2. cbn [andb app].
        apply bind_emit_returns. rewrite Hrem.
        destruct (0x10000 <=? addr r).
        -- rewrite print_reserve_warning.
           apply bind_emit_returns. exact Hloop.
        -- rewrite bind_ret. exact Hloop.
      * rewrite Hlen. repeat (rewrite length_app || cbn [length]). lia.
    + replace (stays_reserved a k pargc av r) with true
        by (unfold stays_reserved; rewrite E1, E2; reflexivity).
      destruct (IH fuel (pre ++ [r]) rest ltac:(lia))
        as (rest' & Hloop & Hlen).
      exists rest'. split.
      * unfold reserve_calls. rewrite E1, E2. cbn [andb app].
        apply bind_emit_returns.
        rewrite length_app in Hloop. cbn [length] in Hloop.
        rewrite Nat.add_1_r in Hloop.
        rewrite <- !app_assoc in Hloop. cbn [app] in Hloop.
        exact Hloop.
      * repeat (rewrite length_app in * || cbn [length] in * ). lia.
Qed.

(** X14.  On a list whose ranges [l] are followed by a terminator, the
    reservation loop of [wld_start] returns.  It asks the kernel once
    for every range that does not hold the stack, in the order of the
    list, with [PROT_NONE] at the fixed address of the range; a range
    that holds the stack is not asked for.  A warning is written only
    for a refused range at or above 0x10000.  The ranges left in the
    list are those the kernel granted, in their order, and the list
    keeps its length. *)
Theorem reserve_ranges_keeps_granted a k pargc av
        (l : list wine_preload_info) t rest :
  Forall (fun r => size r <> 0) l ->
  size t = 0 ->
  exists info',
    reserve_ranges a k pargc av (l ++ t :: rest)
    = Returns (flat_map (reserve_calls a k pargc av) l) info'
    /\ ranges_of info' = List.filter (stays_reserved a k pargc av) l
    /\ length info' = length (l ++ t :: rest)
    /\ List.filter is_mapping (flat_map (reserve_calls a k pargc av) l)
       = List.map reserve_call
           (List.filter (fun r => negb (holds_stack a pargc av r)) l).
Proof.
  intros Hl Ht.
  destruct (reserve_loop_ranges a k pargc av t l Ht Hl
              (S (length (l ++ t :: rest))) [] rest)
    as (rest' & Hloop & Hlen).
  { rewrite length_app. cbn [length]. lia. }
  exists (List.filter (stays_reserved a k pargc av) l ++ t :: rest').
  split; [exact Hloop|]. split; [|split; [exact Hlen|]].
  - apply ranges_of_app; [|exact Ht].
    apply Forall_forall. intros r Hr.
    apply list_elem_of_In, filter_In in Hr as [Hr _].
    rewrite Forall_forall in Hl. apply Hl, list_elem_of_In, Hr.
  - clear. induction l as [|r l IH]; [reflexivity|].
    cbn [flat_map List.filter]. rewrite List.filter_app, IH.
    unfold reserve_calls.
    destruct (holds_stack a pargc av r); cbn [negb]; [reflexivity|].
    cbn [List.filter is_mapping reserve_call].
    destruct (mmap_fails a k r && (65536 <=? addr r)); reflexivity.
Qed.

Lemma reserve_ranges_keeps_granted_witness :
  exists info',
    reserve_ranges I386 refusing_kernel 0x7ffd0010 0x7ffd0048
      (preload_info_init I386)
    = Returns
        [ EvMmap 0 0x1000 PROT_NONE reserve_flags (-1) 0;
          EvMmap 0x1000 0xf000 PROT_NONE reserve_flags (-1) 0;
          EvMmap 0x10000 0x100000 PROT_NONE reserve_flags (-1) 0;
          EvMmap 0x110000 0x67ef0000 PROT_NONE reserve_flags (-1) 0;
          EvWrite 2
            (bytes_of_string
               ("preloader: Warning: failed to reserve range 00110000-68000000"
                ++ newline)) ]
        info'
    /\ ranges_of info'
       = [ {| addr := 0x1000; size := 0xf000 |};
           {| addr := 0x10000; size := 0x100000 |} ].
Proof.
  destruct (reserve_ranges_keeps_granted I386 refusing_kernel
              0x7ffd0010 0x7ffd0048 (take 5 (preload_info_init I386))
              {| addr := 0; size := 0 |} [ {| addr := 0; size := 0 |} ])
    as (info' & Hrun & Hranges & _).
  - repeat constructor; discriminate.
  - reflexivity.
  - exists info'. split; [exact Hrun|exact Hranges].
Defined.

(** ** [wld_start]: the arguments and the environment *)

Lemma read_words_next a m p n :
  read_words a m p (S n) = load_word a m p :: read_words a m (p + word_bytes a) n.
Proof.
  unfold read_words. cbn [List.seq List.map]. f_equal.
  - f_equal. change (Z.of_nat 0) with 0. ring.
  - rewrite <- List.seq_shift, List.map_map.
    apply List.map_ext. intros i. f_equal. lia.
Qed.

Lemma reserve_key_test m s :
  (wld_strncmp m s reserve_key (Z.of_nat (length reserve_key)) =? 0)
  = starts_with m s reserve_key.
Proof.
  unfold wld_strncmp.
  change (Z.of_nat (length reserve_key) <=? 0) with false. cbv iota.
  change (Z.to_nat (Z.of_nat (length reserve_key) - 1)) with 18%nat.
  apply (strncmp_loop_prefix m (ch "W")
           (bytes_of_string "INEPRELOADRESERVE=")).
  vm_compute. repeat constructor.
Qed.

Lemma scan_environment_entries a m (es : list Z) :
  Forall (fun s => s <> 0) es ->
  forall fuel p reserve,
    read_words a m p (length es) = es ->
    load_word a m (p + Z.of_nat (length es) * word_bytes a) = 0 ->
    (length es < fuel)%nat ->
    scan_environment a fuel m p reserve
    = Some (fold_left (take_reserve m) es reserve,
            p + Z.of_nat (length es) * word_bytes a).
Proof.
  intros Hes. induction Hes as [|s es Hs Hes IH];
    intros fuel p reserve Hread Hend Hfuel.
  - destruct fuel as [|fuel]; [cbn in Hfuel; lia|].
    cbn [scan_environment length fold_left] in *.
    change (Z.of_nat 0) with 0 in *.
    replace (p + 0 * word_bytes a) with p in * by ring.
    rewrite Hend. reflexivity.
  - destruct fuel as [|fuel]; [cbn in Hfuel; lia|].
    cbn [length] in *. rewrite read_words_next in Hread.
    injection Hread as Hfirst Hrest.
    cbn [scan_environment fold_left]. rewrite Hfirst.
    destruct (Z.eqb_spec s 0); [contradiction|].
    rewrite reserve_key_test.
    rewrite (IH fuel (p + word_bytes a)); [|exact Hrest| |lia].
    + unfold take_reserve at 2. do 2 f_equal. lia.
    + rewrite <- Hend. f_equal. lia.
Qed.

Lemma find_app_first {A} (f : A -> bool) (l1 l2 : list A) :
  List.find f (l1 ++ l2)
  = match List.find f l1 with
    | Some x => Some x
    | None => List.find f l2
    end.
Proof.
  induction l1 as [|x l1 IH]; [reflexivity|].
  cbn [app List.find]. destruct (f x); [reflexivity|exact IH].
Qed.

(** The last string that starts with the key decides. *)
Lemma fold_take_reserve m (es : list Z) reserve :
  fold_left (take_reserve m) es reserve
  = match List.find (fun s => starts_with m s reserve_key) (rev es) with
    | Some s => s + Z.of_nat (length reserve_key)
    | None => reserve
    end.
Proof.
  revert reserve. induction es as [|s es IH]; intros reserve; [reflexivity|].
  cbn [fold_left rev]. rewrite IH, find_app_first.
  destruct (List.find _ (rev es)); [reflexivity|].
  cbn [List.find]. unfold take_reserve.
  destruct (starts_with m s reserve_key); reflexivity.
Qed.

Lemma format_usage a (argv0 : list Z) :
  (length argv0 <= 220)%nat ->
  format_message a fmt_usage [VStr argv0] = Some (usage_message argv0).
Proof.
  intros Hlen. unfold format_message.
  change (wld_vsprintf a (bytes_of_string fmt_usage) [VStr argv0])
    with (Some (usage_message argv0)).
  cbv beta iota. unfold usage_message.
  repeat (rewrite length_app).
  repeat match goal with
         | |- context [length (bytes_of_string ?s)] =>
             let v := eval vm_compute in (length (bytes_of_string s)) in
             change (length (bytes_of_string s)) with v
         end.
  unfold buffer_size.
  match goal with
  | |- (if ?x <? ?y then _ else _) = _ => destruct (Z.ltb_spec x y)
  end; [reflexivity | lia].
Qed.


(** X15.  The first statements of [wld_start].  With fewer than two
    arguments the process ends with status 1 after the usage message
    that names [argv[0]].  Otherwise, for an environment of the strings
    [es] followed by a null pointer and a vector that ends with
    [AT_NULL]: nothing is written; [av] is the address after the null
    pointer of the environment; [reserve] points after the key of the
    last environment string that starts with [WINEPRELOADRESERVE=] and
    is null when there is none; the page size is the value of the first
    [AT_PAGESZ] entry (as an [int]) and 4096 when there is none, and
    the page mask is one less. *)
Theorem wld_start_arguments_result a fuel m stack start_ end_ :
  let pargc := load_word a m stack in
  let argc := to_long a (load_word a m pargc) in
  let argv := pargc + word_bytes a in
  let envp := argv + (argc + 1) * word_bytes a in
  (argc < 2 ->
   forall argv0,
     read_string fuel m (load_word a m argv) = Some argv0 ->
     (length argv0 <= 220)%nat ->
     wld_start_arguments a fuel m stack start_ end_
     = Exits [EvWrite 2 (usage_message argv0)] 1)
  /\ (2 <= argc ->
      forall (es : list Z) n0,
        let av := envp + (Z.of_nat (length es) + 1) * word_bytes a in
        read_words a m envp (length es) = es ->
        Forall (fun s => s <> 0) es ->
        load_word a m (envp + Z.of_nat (length es) * word_bytes a) = 0 ->
        (forall j, (j < n0)%nat -> get_type a m av (Z.of_nat j) <> AT_NULL) ->
        get_type a m av (Z.of_nat n0) = AT_NULL ->
        (length es < fuel)%nat -> (n0 < fuel)%nat ->
        exists frame,
          wld_start_arguments a fuel m stack start_ end_ = Returns [] frame
          /\ f_pargc frame = pargc /\ f_argv frame = argv
          /\ f_av frame = av
          /\ f_reserve frame
             = match List.find (fun s => starts_with m s reserve_key)
                               (rev es) with
               | Some s => s + Z.of_nat (length reserve_key)
               | None => 0
               end
          /\ f_page_size frame
             = wrap a match first_of_type (read_auxv a m av n0) AT_PAGESZ with
                      | Some v => to_int v
                      | None => 4096
                      end
          /\ page_mask (f_globals frame) = wrap a (f_page_size frame - 1)).
Proof.
  intros pargc argc argv envp. split.
  - intros Hargc argv0 Hstr Hlen. unfold wld_start_arguments.
    fold pargc. fold argc. fold argv.
    destruct (Z.ltb_spec argc 2); [|lia].
    rewrite Hstr. unfold fatal_error. rewrite format_usage by exact Hlen.
    reflexivity.
  - intros Hargc es n0 av Hread Hes Hend Hnz Hnull Hfes Hfn.
    unfold wld_start_arguments.
    fold pargc. fold argc. fold argv. fold envp.
    destruct (Z.ltb_spec argc 2); [lia|].
    rewrite bind_ret.
    rewrite (scan_environment_entries a m es Hes fuel envp 0 Hread Hend Hfes).
    replace (envp + Z.of_nat (length es) * word_bytes a + word_bytes a)
      with av by (unfold av; ring).
    rewrite (walk_auxv a m (fun v => Some (to_int v)) (Some 4096)
               (fun fuel av => get_auxiliary a fuel m av AT_PAGESZ 4096)
               (wrap a AT_PAGESZ) ltac:(reflexivity) n0 fuel av Hnz Hnull Hfn).
    replace (wrap a AT_PAGESZ) with AT_PAGESZ by (destruct a; reflexivity).
    rewrite fold_take_reserve.
    destruct (first_of_type (read_auxv a m av n0) AT_PAGESZ);
      eexists; (split; [reflexivity|]); cbn [f_pargc f_argv f_av f_reserve
        f_page_size f_globals page_mask]; repeat split.
Qed.

Lemma wld_start_arguments_result_witness :
  exists frame,
    wld_start_arguments X86_64 100 sample_stack_mem 0x7ffd0000
      0x7d400123 0x7d7ef000
    = Returns [] frame
    /\ f_av frame = 0x7ffd0048
    /\ f_reserve frame = 0x7ffd0f43
    /\ f_page_size frame = 4096.
Proof.
  destruct (proj2 (wld_start_arguments_result X86_64 100 sample_stack_mem
                     0x7ffd0000 0x7d400123 0x7d7ef000)
              ltac:(vm_compute; discriminate)
              [0x7ffd0f20; 0x7ffd0f30] 4%nat)
    as (frame & Hrun & _ & _ & Hav & Hres & Hps & _).
  - vm_compute. reflexivity.
  - repeat constructor; discriminate.
  - vm_compute. reflexivity.
  - intros j Hj.
    assert (Hc : j = 0%nat \/ j = 1%nat \/ j = 2%nat \/ j = 3%nat) by lia.
    destruct Hc as [Hc|[Hc|[Hc|Hc]]]; subst j; vm_compute; discriminate.
  - vm_compute. reflexivity.
  - cbn. lia.
  - lia.
  - exists frame. split; [exact Hrun|].
    rewrite Hav, Hres, Hps. repeat split; vm_compute; reflexivity.
Defined.

(** ** [set_process_name] *)

Lemma string_at_next m p (s : list Z) :
  Forall (fun c => 0 < c < 256) s ->
  string_at m p s = true ->
  (load8 m p =? 0) = bool_decide (s = []).
Proof.
  intros Hs H. destruct s as [|c s]; cbn [string_at] in H.
  - rewrite H. reflexivity.
  - apply andb_true_iff in H as [Hc _]. apply Z.eqb_eq in Hc.
    apply Forall_cons in Hs as [Hc0 _].
    rewrite Hc. destruct (Z.eqb_spec c 0); [lia|reflexivity].
Qed.

Lemma name_loop_string m (s : list Z) :
  Forall (fun c => 0 < c < 256) s ->
  forall fuel p name,
    string_at m p s = true ->
    (length s < fuel)%nat ->
    name_loop fuel m p name
    = Some match after_last_slash s with
           | Some k => p + Z.of_nat k
           | None => name
           end.
Proof.
  intros Hs. induction Hs as [|c s Hc Hs IH]; intros fuel p name Hat Hfuel.
  - destruct fuel as [|fuel]; [cbn in Hfuel; lia|].
    cbn [name_loop after_last_slash]. cbn [string_at] in Hat.
    rewrite Hat. reflexivity.
  - destruct fuel as [|fuel]; [cbn in Hfuel; lia|].
    cbn [length] in Hfuel. cbn [string_at] in Hat.
    apply andb_true_iff in Hat as [Hpc Hat]. apply Z.eqb_eq in Hpc.
    cbn [name_loop after_last_slash]. rewrite Hpc.
    destruct (Z.eqb_spec c 0); [lia|].
    rewrite (string_at_next m (p + 1) s Hs Hat).
    rewrite (IH fuel (p + 1)) by (assumption || lia).
    destruct (after_last_slash s) as [k|].
    + f_equal. lia.
    + destruct ((c =? ch "/") && negb (bool_decide (s = [])));
        reflexivity.
Qed.

Lemma after_last_slash_some (s : list Z) k :
  after_last_slash s = Some k ->
  (0 < k < length s)%nat
  /\ s !! (k - 1)%nat = Some (ch "/")
  /\ after_last_slash (drop k s) = None.
Proof.
  revert k. induction s as [|c s IH]; intros k; [discriminate|].
  cbn [after_last_slash].
  destruct (after_last_slash s) as [k'|] eqn:Hk'.
  - intros [= <-]. destruct (IH k' eq_refl) as (Hlt & Hsl & Hnone).
    cbn [length]. split; [lia|]. split; [|exact Hnone].
    replace (S k' - 1)%nat with (S (k' - 1)) by lia. exact Hsl.
  - destruct (Z.eqb_spec c (ch "/")) as [->|]; [|discriminate].
    destruct (bool_decide (s = [])) eqn:Hempty; [discriminate|].
    intros [= <-]. apply bool_decide_eq_false in Hempty.
    cbn [length]. split.
    + destruct s; [contradiction|cbn [length]; lia].
    + split; [reflexivity|exact Hk'].
Qed.

Lemma after_last_slash_none (s : list Z) :
  after_last_slash s = None -> ~ In (ch "/") (removelast s).
Proof.
  induction s as [|c s IH]; [intros _ []|].
  cbn [after_last_slash].
  destruct (after_last_slash s) as [k'|]; [discriminate|].
  intros H. destruct s as [|d s]; [intros []|].
  change (removelast (c :: d :: s)) with (c :: removelast (d :: s)).
  intros [Hc|Hin]; [|exact (IH eq_refl Hin)].
  rewrite Hc, Z.eqb_refl in H. discriminate H.
Qed.

(** X16.  The name [set_process_name] gives to [prctl] points into
    [argv[1]]: at its start, or right after a ['/'] of it; the part of
    the string from there on is not empty (unless the string is) and has
    no ['/'] except possibly as its last character.  When [prctl] fails
    the memory is left as it was. *)
Theorem set_process_name_short_name a fuel prctl m argc argv (s : list Z) :
  let argv1 := load_word a m (argv + word_bytes a) in
  Forall (fun c => 0 < c < 256) s ->
  string_at m argv1 s = true ->
  (length s < fuel)%nat ->
  exists k : nat,
    name_loop fuel m argv1 argv1 = Some (argv1 + Z.of_nat k)
    /\ (k = 0%nat \/ s !! (k - 1)%nat = Some (ch "/"))
    /\ (s <> [] -> (k < length s)%nat)
    /\ ~ In (ch "/") (removelast (drop k s))
    /\ (prctl (argv1 + Z.of_nat k) = -1 ->
        set_process_name a fuel prctl m argc argv
        = Some (argv1 + Z.of_nat k, m))
    /\ (forall name m',
           set_process_name a fuel prctl m argc argv = Some (name, m') ->
           name = argv1 + Z.of_nat k).
Proof.
  intros argv1 Hs Hat Hfuel.
  pose proof (name_loop_string m s Hs fuel argv1 argv1 Hat Hfuel) as Hloop.
  assert (Hrun : forall k : nat,
             name_loop fuel m argv1 argv1 = Some (argv1 + Z.of_nat k) ->
             (prctl (argv1 + Z.of_nat k) = -1 ->
              set_process_name a fuel prctl m argc argv
              = Some (argv1 + Z.of_nat k, m))
             /\ (forall name m',
                    set_process_name a fuel prctl m argc argv
                    = Some (name, m') ->
                    name = argv1 + Z.of_nat k)).
  { intros k Hk. unfold set_process_name. fold argv1. rewrite Hk. split.
    - intros ->. reflexivity.
    - intros name m'. destruct (prctl _ =? -1); [congruence|].
      destruct (string_end _ _ _); [congruence|discriminate]. }
  destruct (after_last_slash s) as [k|] eqn:Hk.
  - destruct (after_last_slash_some s k Hk) as (Hlt & Hsl & Hnone).
    exists k. split; [exact Hloop|]. split; [right; exact Hsl|].
    split; [lia|]. split; [apply after_last_slash_none, Hnone|].
    apply Hrun, Hloop.
  - assert (Hloop' : name_loop fuel m argv1 argv1
                     = Some (argv1 + Z.of_nat 0))
      by (rewrite Hloop; f_equal; change (Z.of_nat 0) with 0; ring).
    exists 0%nat.
    split; [exact Hloop'|]. split; [left; reflexivity|].
    split; [destruct s; [contradiction|cbn [length]; lia]|].
    split; [apply after_last_slash_none, Hk|].
    apply Hrun, Hloop'.
Qed.

Lemma set_process_name_short_name_witness :
  exists k : nat,
    name_loop 100 sample_stack_mem 0x7ffd0f10 0x7ffd0f10
    = Some (0x7ffd0f10 + Z.of_nat k)
    /\ drop k (bytes_of_string "/usr/bin/wine") = bytes_of_string "wine".
Proof.
  destruct (set_process_name_short_name X86_64 100 (fun _ => 0)
              sample_stack_mem 2 0x7ffd0018 (bytes_of_string "/usr/bin/wine"))
    as (k & Hloop & _).
  - vm_compute. repeat constructor.
  - vm_compute. reflexivity.
  - vm_compute. lia.
  - exists k. split; [exact Hloop|].
    assert (Hk : k = 9%nat).
    { change (load_word X86_64 sample_stack_mem
                (0x7ffd0018 + word_bytes X86_64)) with 0x7ffd0f10 in Hloop.
      assert (Hc : name_loop 100 sample_stack_mem 0x7ffd0f10 0x7ffd0f10
                   = Some (0x7ffd0f10 + 9)) by (vm_compute; reflexivity).
      rewrite Hc in Hloop. injection Hloop as Hloop. lia. }
    rewrite Hk. vm_compute. reflexivity.
Defined.

(** *** Moving the arguments down *)

Lemma string_end_string m (s : list Z) :
  Forall (fun c => 0 < c < 256) s ->
  forall fuel p,
    string_at m p s = true ->
    (length s < fuel)%nat ->
    string_end fuel m p = Some (p + Z.of_nat (length s)).
Proof.
  intros Hs. induction Hs as [|c s Hc Hs IH]; intros fuel p Hat Hfuel.
  - destruct fuel as [|fuel]; [cbn in Hfuel; lia|].
    cbn [string_end length]. cbn [string_at] in Hat. rewrite Hat.
    f_equal. change (Z.of_nat 0) with 0. ring.
  - destruct fuel as [|fuel]; [cbn in Hfuel; lia|].
    cbn [length] in *. cbn [string_at] in Hat.
    apply andb_true_iff in Hat as [Hpc Hat]. apply Z.eqb_eq in Hpc.
    cbn [string_end]. rewrite Hpc.
    destruct (Z.eqb_spec c 0); [lia|].
    rewrite (IH fuel (p + 1)) by (assumption || lia). f_equal. lia.
Qed.

Lemma string_at_ext m m' p p' (s : list Z) :
  (forall j, 0 <= j <= Z.of_nat (length s) ->
             load8 m' (p' + j) = load8 m (p + j)) ->
  string_at m' p' s = string_at m p s.
Proof.
  revert p p'. induction s as [|c s IH]; intros p p' H.
  - cbn [string_at]. pose proof (H 0 ltac:(cbn; lia)) as H0.
    rewrite !Z.add_0_r in H0. rewrite H0. reflexivity.
  - cbn [string_at]. pose proof (H 0 ltac:(cbn [length]; lia)) as H0.
    rewrite !Z.add_0_r in H0. rewrite H0. f_equal.
    apply IH. intros j Hj.
    replace (p' + 1 + j) with (p' + (1 + j)) by ring.
    replace (p + 1 + j) with (p + (1 + j)) by ring.
    apply H. cbn [length]. lia.
Qed.

Lemma shift_down_spec n :
  forall (m : mem) p off q,
    0 < off ->
    shift_down n m p off q
    = if (p - off <=? q) && (q <? p - off + Z.of_nat n)
      then m (q + off) else m q.
Proof.
  induction n as [|n IH]; intros m p off q Hoff.
  - cbn [shift_down].
    destruct (Z.leb_spec (p - off) q);
      destruct (Z.ltb_spec q (p - off + Z.of_nat 0));
      cbn [andb]; try reflexivity; lia.
  - cbn [shift_down]. rewrite IH by exact Hoff.
    destruct (Z.leb_spec (p + 1 - off) q);
      destruct (Z.ltb_spec q (p + 1 - off + Z.of_nat n));
      destruct (Z.leb_spec (p - off) q);
      destruct (Z.ltb_spec q (p - off + Z.of_nat (S n)));
      cbn [andb]; try lia;
      repeat match goal with
             | |- context [?x =? ?y] => destruct (Z.eqb_spec x y)
             end;
      try reflexivity; try lia; f_equal; lia.
Qed.

Lemma load_word_ext a (m1 m2 : mem) p :
  (forall q, p <= q < p + word_bytes a -> m1 q = m2 q) ->
  load_word a m1 p = load_word a m2 p.
Proof.
  intros H. unfold load_word. apply load_bytes_ext. intros i Hi.
  apply H. rewrite word_size_bytes in Hi. lia.
Qed.

Lemma load_store_word a m p v :
  load_word a (store_word a m p v) p = wrap a v.
Proof.
  unfold load_word, store_word. rewrite load_store_same, word_mod_bytes.
  reflexivity.
Qed.

Lemma adjust_argv_spec a n :
  forall (m : mem) argv i off,
    (forall q, q < argv + i * word_bytes a
               \/ argv + (i + Z.of_nat n) * word_bytes a <= q ->
               adjust_argv a n m argv i off q = m q)
    /\ (forall j, i <= j < i + Z.of_nat n ->
                  load_word a (adjust_argv a n m argv i off)
                    (argv + j * word_bytes a)
                  = wrap a (load_word a m (argv + j * word_bytes a) - off)).
Proof.
  pose proof (word_bytes_pos a) as HW.
  induction n as [|n IH]; intros m argv i off.
  - split; [reflexivity|]. intros j Hj. lia.
  - cbn [adjust_argv].
    set (m1 := store_word a m (argv + i * word_bytes a)
                 (load_word a m (argv + i * word_bytes a) - off)).
    destruct (IH m1 argv (i + 1) off) as [Hout Hin].
    assert (Hm1 : forall q, q < argv + i * word_bytes a
                            \/ argv + (i + 1) * word_bytes a <= q ->
                            m1 q = m q).
    { intros q Hq. unfold m1, store_word. apply store_bytes_outside.
      rewrite word_size_bytes. lia. }
    split.
    + intros q Hq. rewrite Hout by nia. apply Hm1. nia.
    + intros j Hj. destruct (Z.eq_dec j i) as [->|Hne].
      * rewrite (load_word_ext a _ m1) by (intros q Hq; apply Hout; nia).
        unfold m1. apply load_store_word.
      * rewrite Hin by lia. f_equal. f_equal.
        apply load_word_ext. intros q Hq. apply Hm1. nia.
Qed.


Lemma string_at_nul m (s : list Z) :
  forall p, string_at m p s = true -> load8 m (p + Z.of_nat (length s)) = 0.
Proof.
  induction s as [|c s IH]; intros p Hat; cbn [string_at] in Hat.
  - apply Z.eqb_eq in Hat. cbn [length].
    change (Z.of_nat 0) with 0. rewrite Z.add_0_r. exact Hat.
  - apply andb_true_iff in Hat as [_ Hat].
    specialize (IH (p + 1) Hat). cbn [length].
    replace (p + Z.of_nat (S (length s)))
      with (p + 1 + Z.of_nat (length s)) by lia.
    exact IH.
Qed.

(** X17.  When [prctl] succeeds, [set_process_name] moves the strings of
    the arguments down by the distance [off] between [argv[1]] and
    [argv[0]].  For arguments laid out as the kernel leaves them (the
    strings from [argv[1]] to the end of the last one lie above
    [argv[0]], and the array of pointers lies outside them): the call
    returns; every pointer [argv[i]], [1 <= i < argc], is lowered by
    [off] and points to the string it pointed to before; the [off] bytes
    below the old end are zero; [argv[0]] still holds its old pointer,
    where the string of [argv[1]] now starts. *)
Theorem set_process_name_moves_arguments
        a fuel prctl m argc argv (s1 slast : list Z) :
  let argv0 := load_word a m argv in
  let argv1 := load_word a m (argv + word_bytes a) in
  let last := load_word a m (argv + (argc - 1) * word_bytes a) in
  let off := argv1 - argv0 in
  let end_ := last + Z.of_nat (length slast) in
  2 <= argc ->
  0 < off < 2 ^ 32 ->
  Forall (fun c => 0 < c < 256) s1 -> string_at m argv1 s1 = true ->
  (length s1 < fuel)%nat ->
  Forall (fun c => 0 < c < 256) slast -> string_at m last slast = true ->
  (length slast < fuel)%nat ->
  argv1 <= last ->
  (argv + argc * word_bytes a <= argv0 \/ end_ <= argv) ->
  (forall n, prctl n <> -1) ->
  exists name m',
    set_process_name a fuel prctl m argc argv = Some (name, m')
    /\ (forall i (s : list Z),
           1 <= i < argc ->
           let old := load_word a m (argv + i * word_bytes a) in
           string_at m old s = true ->
           argv1 <= old -> old + Z.of_nat (length s) <= end_ ->
           load_word a m' (argv + i * word_bytes a) = old - off
           /\ string_at m' (old - off) s = true)
    /\ (forall q, end_ - off <= q < end_ -> load8 m' q = 0)
    /\ load_word a m' argv = argv0.
Proof.
  intros argv0 argv1 last off end_ Hargc Hoff Hs1 Hat1 Hf1 Hsl Hatl Hfl
         Hlast Hdisj Hprctl.
  pose proof (word_bytes_pos a) as HW.
  pose proof (name_loop_string m s1 Hs1 fuel argv1 argv1 Hat1 Hf1) as Hname.
  pose proof (string_end_string m slast Hsl fuel last Hatl Hfl) as Hend.
  fold end_ in Hend.
  set (m1 := shift_down (Z.to_nat (end_ - argv1 + 1)) m argv1 off).
  set (m2 := fst (wld_memset m1 (end_ - off) 0 off)).
  set (m3 := adjust_argv a (Z.to_nat (argc - 1)) m2 argv 1 off).
  assert (Hrun : exists name,
             set_process_name a fuel prctl m argc argv = Some (name, m3)).
  { unfold set_process_name. fold argv1. fold last. fold argv0.
    rewrite Hname.
    match goal with
    | |- context [prctl ?n =? -1] =>
        destruct (Z.eqb_spec (prctl n) (-1)) as [Hp|_];
          [exfalso; exact (Hprctl n Hp)|]
    end.
    rewrite Hend. fold off. rewrite (Z.mod_small off) by lia.
    eexists. reflexivity. }
  destruct Hrun as [name Hrun]. exists name, m3.
  split; [exact Hrun|].
  assert (Hlen : 0 <= Z.of_nat (length slast)) by lia.
  (* the bytes after the two copies *)
  assert (Hm2 : forall q,
             m2 q = if (end_ - off <=? q) && (q <? end_) then 0
                    else if (argv0 <=? q) && (q <? end_ - off)
                         then m (q + off) else m q).
  { intros q. unfold m2, wld_memset. cbn [fst].
    rewrite memset_loop_spec, Z2Nat.id by lia.
    replace (end_ - off + off) with end_ by ring.
    destruct ((end_ - off <=? q) && (q <? end_)) eqn:Hz; [reflexivity|].
    unfold m1. rewrite shift_down_spec by lia.
    rewrite Z2Nat.id by (unfold end_; lia).
    replace (argv1 - off) with argv0 by (unfold off; ring).
    replace (argv0 + (end_ - argv1 + 1)) with (end_ - off + 1)
      by (unfold off; ring).
    destruct (Z.leb_spec argv0 q); destruct (Z.ltb_spec q (end_ - off + 1));
      destruct (Z.ltb_spec q (end_ - off)); cbn [andb]; try reflexivity;
      try lia. }
  destruct (adjust_argv_spec a (Z.to_nat (argc - 1)) m2 argv 1 off)
    as [Hout Hin].
  rewrite Z2Nat.id in Hout, Hin by lia.
  replace (1 + (argc - 1)) with argc in Hout, Hin by ring.
  assert (Harray : forall q, argv <= q < argv + argc * word_bytes a ->
                             m2 q = m q).
  { intros q Hq. rewrite Hm2.
    destruct (Z.leb_spec (end_ - off) q); destruct (Z.ltb_spec q end_);
      destruct (Z.leb_spec argv0 q); destruct (Z.ltb_spec q (end_ - off));
      cbn [andb]; try reflexivity; lia. }
  assert (Hstrings : forall q, argv0 <= q < end_ -> m3 q = m2 q).
  { intros q Hq. apply Hout. nia. }
  split; [|split].
  - intros i s Hi old Hats Hlow Hhigh. split.
    + unfold m3. rewrite Hin by lia.
      rewrite (load_word_ext a m2 m) by (intros q Hq; apply Harray; nia).
      fold old. apply wrap_word.
      pose proof (load_word_range a m argv) as H0. fold argv0 in H0.
      pose proof (load_word_range a m (argv + i * word_bytes a)) as Hi'.
      fold old in Hi'. unfold is_word in *. unfold off. lia.
    + rewrite <- Hats. apply string_at_ext. intros j Hj.
      unfold load8. rewrite Hstrings by (unfold off; lia).
      rewrite Hm2.
      destruct (Z.leb_spec (end_ - off) (old - off + j));
        destruct (Z.ltb_spec (old - off + j) end_); cbn [andb]; try lia.
      * (* the terminator of the last string *)
        assert (Hj' : j = Z.of_nat (length s)) by lia.
        assert (Hnul : load8 m (old + j) = 0).
        { subst j. apply string_at_nul, Hats. }
        unfold load8 in Hnul. rewrite Hnul. reflexivity.
      * destruct (Z.leb_spec argv0 (old - off + j));
          destruct (Z.ltb_spec (old - off + j) (end_ - off)); cbn [andb];
          try (unfold off in *; lia).
        f_equal. f_equal. ring.
  - intros q Hq. unfold load8. rewrite Hstrings by lia. rewrite Hm2.
    destruct (Z.leb_spec (end_ - off) q); destruct (Z.ltb_spec q end_);
      cbn [andb]; try lia. reflexivity.
  - unfold m3.
    rewrite (load_word_ext a _ m2) by (intros q Hq; apply Hout; lia).
    apply load_word_ext. intros q Hq. apply Harray. nia.
Qed.

Lemma set_process_name_moves_arguments_witness :
  exists name m',
    set_process_name X86_64 100 (fun _ => 0) sample_stack_mem 2 0x7ffd0018
    = Some (name, m')
    /\ load_word X86_64 m' 0x7ffd0020 = 0x7ffd0f00
    /\ string_at m' 0x7ffd0f00 (bytes_of_string "/usr/bin/wine") = true.
Proof.
  destruct (set_process_name_moves_arguments X86_64 100 (fun _ => 0)
              sample_stack_mem 2 0x7ffd0018
              (bytes_of_string "/usr/bin/wine")
              (bytes_of_string "/usr/bin/wine"))
    as (name & m' & Hrun & Hargs & _).
  - lia.
  - vm_compute. split; reflexivity.
  - vm_compute. repeat constructor.
  - vm_compute. reflexivity.
  - vm_compute. lia.
  - vm_compute. repeat constructor.
  - vm_compute. reflexivity.
  - vm_compute. lia.
  - vm_compute. discriminate.
  - left. vm_compute. discriminate.
  - discriminate.
  - exists name, m'. split; [exact Hrun|].
    destruct (Hargs 1 (bytes_of_string "/usr/bin/wine") ltac:(lia))
      as [Hptr Hstr].
    + vm_compute. reflexivity.
    + vm_compute. discriminate.
    + vm_compute. discriminate.
    + split; [exact Hptr|exact Hstr].
Defined.

(** ** [map_so_lib]: the geometry of a load command *)

Lemma round_down_bounds x k :
  0 <= k ->
  (x - x mod 2 ^ k) mod 2 ^ k = 0
  /\ x - x mod 2 ^ k <= x < x - x mod 2 ^ k + 2 ^ k.
Proof.
  intros Hk.
  assert (Hpos : 0 < 2 ^ k) by (apply Z.pow_pos_nonneg; lia).
  pose proof (Z.mod_pos_bound x (2 ^ k) Hpos). split; [|lia].
  rewrite Zminus_mod, Z.mod_mod, Z.sub_diag by lia. apply Z.mod_0_l. lia.
Qed.

Lemma round_up_bounds x k :
  0 <= k ->
  let r := x + (2 ^ k - 1) - (x + (2 ^ k - 1)) mod 2 ^ k in
  r mod 2 ^ k = 0 /\ x <= r < x + 2 ^ k.
Proof.
  intros Hk r.
  destruct (round_down_bounds (x + (2 ^ k - 1)) k Hk) as [Hm Hb].
  fold r in Hm, Hb. split; [exact Hm|]. split; [|lia].
  assert (Hpos : 0 < 2 ^ k) by (apply Z.pow_pos_nonneg; lia).
  apply Z.mod_divide in Hm; [|lia]. destruct Hm as [q Hq].
  pose proof (Z.div_mod x (2 ^ k) ltac:(lia)) as Hd.
  pose proof (Z.mod_pos_bound x (2 ^ k) Hpos) as Hr.
  destruct (Z.eq_dec (x mod 2 ^ k) 0) as [Hz|Hnz]; [nia|].
  assert (x / 2 ^ k < q) by nia. nia.
Qed.

Lemma land_low_bits x k : 0 <= k -> Z.land x (2 ^ k - 1) = x mod 2 ^ k.
Proof.
  intros Hk. replace (2 ^ k - 1) with (Z.ones k)
    by (rewrite Z.ones_equiv; lia).
  apply Z.land_ones, Hk.
Qed.

Lemma wrap_mod_pow2 a x k :
  0 <= k <= word_bits a -> wrap a x mod 2 ^ k = x mod 2 ^ k.
Proof.
  intros Hk. unfold wrap. rewrite word_mod_pow2.
  apply Z.mod_mod_divide.
  exists (2 ^ (word_bits a - k)). rewrite <- Z.pow_add_r by lia.
  f_equal. lia.
Qed.

Lemma pow2_word a k : 0 <= k <= word_bits a -> wrap a (2 ^ k - 1) = 2 ^ k - 1.
Proof.
  intros Hk. apply Z.mod_small. rewrite word_mod_pow2.
  assert (0 < 2 ^ k) by (apply Z.pow_pos_nonneg; lia).
  assert (2 ^ k <= 2 ^ word_bits a) by (apply Z.pow_le_mono_r; lia).
  lia.
Qed.

(** X18.  For a [PT_LOAD] header whose alignment is a power of two that
    the page size divides: when the address and the file offset are
    congruent modulo the alignment, the header is accepted without a
    call or a message and gives one more load command, whose [mapstart]
    and [mapoff] are the address and the offset rounded down to the
    alignment -- so that the byte of the file at [p_offset] lands at the
    address [p_vaddr] -- and whose [mapend] is the end of the file data
    rounded up to a page; when they are not congruent, the process ends
    with status 1 after a message that starts with the file name. *)
Theorem scan_phdr_load_command a g name ph l cmds k kp :
  p_type ph = PT_LOAD ->
  p_align ph = 2 ^ k -> page_mask g = 2 ^ kp - 1 ->
  0 <= kp <= k -> k <= word_bits a ->
  is_word a (p_vaddr ph) -> is_word a (p_offset ph) ->
  ((p_vaddr ph - p_offset ph) mod 2 ^ k = 0 ->
   exists c,
     scan_phdr a g name ph (l, cmds) = Returns [] (l, cmds ++ [c])
     /\ mapstart c mod 2 ^ k = 0 /\ mapoff c mod 2 ^ k = 0
     /\ 0 <= p_vaddr ph - mapstart c < 2 ^ k
     /\ p_vaddr ph - mapstart c = p_offset ph - mapoff c
     /\ (p_vaddr ph + p_filesz ph + page_mask g < word_mod a ->
         0 <= p_vaddr ph + p_filesz ph ->
         dataend c = p_vaddr ph + p_filesz ph
         /\ mapend c mod page_size g = 0
         /\ dataend c <= mapend c < dataend c + page_size g))
  /\ ((p_vaddr ph - p_offset ph) mod 2 ^ k <> 0 ->
      (length name <= 190)%nat ->
      exists msg,
        scan_phdr a g name ph (l, cmds) = Exits [EvWrite 2 (name ++ msg)] 1).
Proof.
  intros Htype Halign Hmask Hkp Hk Hv Ho.
  assert (Hpos : 0 < 2 ^ k) by (apply Z.pow_pos_nonneg; lia).
  assert (Hpage : Z.land (p_align ph) (page_mask g) = 0).
  { rewrite Halign, Hmask, land_low_bits by lia.
    apply Z.mod_divide; [apply Z.pow_nonzero; lia|].
    exists (2 ^ (k - kp)). rewrite <- Z.pow_add_r by lia. f_equal. lia. }
  assert (Hcong : Z.land (wrap a (p_vaddr ph - p_offset ph))
                    (wrap a (p_align ph - 1))
                  = (p_vaddr ph - p_offset ph) mod 2 ^ k).
  { rewrite Halign, pow2_word, land_low_bits by lia.
    apply wrap_mod_pow2. lia. }
  unfold scan_phdr. rewrite Htype. cbn [Z.eqb Pos.eqb PT_LOAD PT_DYNAMIC PT_PHDR].
  rewrite Hpage, Hcong. cbn [Z.eqb negb]. split.
  - intros Hc. rewrite Hc. cbn [Z.eqb negb].
    eexists. split; [reflexivity|].
    cbn [mapstart mapoff mapend dataend].
    rewrite Halign, pow2_word by lia.
    rewrite !and_not_low_bits by (assumption || lia).
    destruct (round_down_bounds (p_vaddr ph) k ltac:(lia)) as [Hm1 Hb1].
    destruct (round_down_bounds (p_offset ph) k ltac:(lia)) as [Hm2 Hb2].
    split; [exact Hm1|]. split; [exact Hm2|]. split; [lia|]. split.
    + assert (p_vaddr ph mod 2 ^ k = p_offset ph mod 2 ^ k); [|lia].
      rewrite <- (Z.sub_add (p_offset ph) (p_vaddr ph)).
      rewrite Zplus_mod, Hc, Z.add_0_l, Z.mod_mod by lia. reflexivity.
    + intros Hfit Hnn. rewrite Hmask.
      rewrite (wrap_word a (p_vaddr ph + p_filesz ph)) by (unfold is_word; lia).
      rewrite (wrap_word a (p_vaddr ph + p_filesz ph + (2 ^ kp - 1)))
        by (unfold is_word; rewrite <- Hmask;
            assert (0 <= page_mask g)
              by (rewrite Hmask;
                  assert (0 < 2 ^ kp) by (apply Z.pow_pos_nonneg; lia); lia);
            lia).
      rewrite and_not_low_bits
        by (try lia; rewrite <- Hmask;
            assert (0 <= page_mask g)
              by (rewrite Hmask;
                  assert (0 < 2 ^ kp) by (apply Z.pow_pos_nonneg; lia); lia);
            lia).
      unfold page_size. rewrite Hmask.
      replace (2 ^ kp - 1 + 1) with (2 ^ kp) by lia.
      split; [reflexivity|].
      apply (round_up_bounds (p_vaddr ph + p_filesz ph) kp). lia.
  - intros Hc Hname.
    destruct (Z.eqb_spec ((p_vaddr ph - p_offset ph) mod 2 ^ k) 0);
      [contradiction|].
    cbn [negb]. eexists. fatal_with_name. reflexivity.
Qed.

Lemma scan_phdr_load_command_witness :
  exists c,
    scan_phdr X86_64 sample_globals sample_name sample_data (empty_link_map, [])
    = Returns [] (empty_link_map, [c])
    /\ p_vaddr sample_data - mapstart c = p_offset sample_data - mapoff c.
Proof.
  destruct (proj1 (scan_phdr_load_command X86_64 sample_globals sample_name
                     sample_data empty_link_map [] 12 12
                     eq_refl eq_refl eq_refl ltac:(lia) ltac:(vm_compute; discriminate)
                     ltac:(vm_compute; split; [discriminate|reflexivity])
                     ltac:(vm_compute; split; [discriminate|reflexivity]))
              eq_refl)
    as (c & Hrun & _ & _ & _ & Hsame & _).
  exists c. split; [exact Hrun|exact Hsame].
Defined.

(** *** The zero pages of a segment *)

(** X19.  For a segment whose memory is larger than its file data (and
    whose end, rounded up to a page, stays within the word): [zero_fill]
    returns.  It zeroes the bytes from the end of the data to the next
    page boundary -- fewer than a page, and none when the data ends on
    a boundary -- after making the page of the first of these bytes
    writable when the segment is not, and restoring its protection
    afterwards; it maps anonymous memory from that boundary to the end
    of the segment rounded up to a page, when there is any.  The two
    parts are adjacent, so that everything from the end of the data to
    the end of the last page is cleared, and nothing below the end of
    the data is written. *)
Theorem zero_fill_covers a g l c kp :
  page_mask g = 2 ^ kp - 1 -> 0 <= kp <= word_bits a ->
  dataend c < allocend c ->
  let ps := page_size g in
  let zero := l_addr l + dataend c in
  let zend := l_addr l + allocend c in
  0 <= zero -> zend + page_mask g < word_mod a ->
  let page := zero - zero mod ps in
  let zeropage := zero + page_mask g - (zero + page_mask g) mod ps in
  let zeroend := zend + page_mask g - (zend + page_mask g) mod ps in
  let read_only := Z.land (prot c) PROT_WRITE =? 0 in
  zero_fill a g l c
  = Returns
      ((if zero <? zeropage then
          (if read_only
           then [EvMprotect page ps (Z.lor (prot c) PROT_WRITE)] else [])
          ++ EvMemset zero (zeropage - zero)
          :: (if read_only then [EvMprotect page ps (prot c)] else [])
        else [])
       ++ (if zeropage <? zeroend then
             [EvMmap zeropage (zeroend - zeropage) (prot c)
                (Z.lor MAP_ANON (Z.lor MAP_PRIVATE MAP_FIXED)) (-1) 0]
           else []))
      tt
  /\ page <= zero /\ zero <= zeropage <= page + ps
  /\ zeropage - zero < ps
  /\ zeropage <= zeroend /\ zend <= zeroend < zend + ps
  /\ zeropage mod ps = 0 /\ zeroend mod ps = 0.
Proof.
  intros Hmask Hkp Hlt ps zero zend Hzero Hfit page zeropage zeroend read_only.
  assert (Hpos : 0 < 2 ^ kp) by (apply Z.pow_pos_nonneg; lia).
  assert (Hps : ps = 2 ^ kp) by (unfold ps, page_size; lia).
  assert (Hzlt : zero < zend) by (unfold zero, zend; lia).
  destruct (round_down_bounds zero kp ltac:(lia)) as [_ Hb0].
  destruct (round_up_bounds zero kp ltac:(lia)) as [Hm1 Hb1].
  destruct (round_up_bounds zend kp ltac:(lia)) as [Hm2 Hb2].
  rewrite <- Hmask, <- Hps in Hm1, Hb1, Hm2, Hb2. rewrite <- Hps in Hb0.
  fold zeropage in Hm1, Hb1. fold zeroend in Hm2, Hb2. fold page in Hb0.
  assert (Hle : zeropage <= zeroend).
  { apply Z.mod_divide in Hm1; [|lia]. apply Z.mod_divide in Hm2; [|lia].
    destruct Hm1 as [q1 Hq1]. destruct Hm2 as [q2 Hq2].
    destruct (Z.le_gt_cases q1 q2); nia. }
  assert (Hup : zeropage <= page + ps).
  { unfold zeropage, page. rewrite Hmask, <- Hps.
    pose proof (Z.mod_pos_bound zero ps ltac:(lia)).
    pose proof (Z.mod_pos_bound (zero + (ps - 1)) ps ltac:(lia)).
    destruct (Z.eq_dec (zero mod ps) 0) as [Hz|Hnz].
    - lia.
    - assert (Hq : (zero + (ps - 1)) mod ps = zero mod ps - 1).
      { pose proof (Z.div_mod zero ps ltac:(lia)) as Hd.
        symmetry.
        apply (Z.mod_unique _ _ (zero / ps + 1)); [lia|]. lia. }
      lia. }
  split; [|repeat split; lia].
  (* the code's words are these numbers *)
  unfold zero_fill.
  destruct (Z.ltb_spec (dataend c) (allocend c)); [|lia].
  fold zero.
  assert (Hw0 : wrap a zero = zero) by (apply Z.mod_small; lia).
  assert (Hmnn : 0 <= page_mask g) by lia.
  assert (Hw1 : wrap a zend = zend) by (apply Z.mod_small; lia).
  assert (Hw2 : wrap a (zend + page_mask g) = zend + page_mask g)
    by (apply Z.mod_small; lia).
  assert (Hw3 : wrap a (zero + page_mask g) = zero + page_mask g)
    by (apply Z.mod_small; lia).
  fold zend. rewrite Hw0, Hw1, Hw2, Hw3.
  rewrite Hmask.
  rewrite !and_not_low_bits by (rewrite <- ?Hmask; lia).
  rewrite <- Hmask. fold ps. rewrite <- Hps.
  fold zeropage zeroend page.
  destruct (Z.ltb_spec zeroend zeropage); [lia|].
  fold read_only.
  destruct (zero <? zeropage); destruct read_only;
    destruct (zeropage <? zeroend); reflexivity.
Qed.

Lemma zero_fill_covers_witness :
  zero_fill X86_64 sample_globals
    (with_l_addr empty_link_map 0x7f0000000000)
    {| mapstart := 0x3000; mapend := 0x4000; dataend := 0x3400;
       allocend := 0x5800; mapoff := 0x2000; prot := PROT_READ |}
  = Returns
      [ EvMprotect 0x7f0000003000 0x1000 PROT_READ_WRITE;
        EvMemset 0x7f0000003400 0xc00;
        EvMprotect 0x7f0000003000 0x1000 PROT_READ;
        EvMmap 0x7f0000004000 0x2000 PROT_READ
          (Z.lor MAP_ANON (Z.lor MAP_PRIVATE MAP_FIXED)) (-1) 0 ]
      tt.
Proof.
  apply (proj1 (zero_fill_covers X86_64 sample_globals
                  (with_l_addr empty_link_map 0x7f0000000000)
                  {| mapstart := 0x3000; mapend := 0x4000; dataend := 0x3400;
                     allocend := 0x5800; mapoff := 0x2000; prot := PROT_READ |}
                  12 eq_refl ltac:(vm_compute; split; discriminate)
                  eq_refl ltac:(vm_compute; discriminate) eq_refl)).
Defined.

(** ** [set_auxiliary_values]: what lies below the vector *)










(** ** [wld_start]: the values handed to the dynamic linker *)

Lemma first_of_type_some (l : list wld_auxv) t :
  In t (types_of l) -> exists v, first_of_type l t = Some v.
Proof.
  induction l as [|x l IH]; [intros []|].
  cbn [types_of List.map In first_of_type].
  destruct (Z.eqb_spec (a_type x) t) as [|Hne]; [eauto|].
  intros [H|H]; [contradiction|]. apply IH, H.
Qed.

Lemma get_auxiliary_int_value a fuel m av n0 t def_val :
  (forall j, (j < n0)%nat -> get_type a m av (Z.of_nat j) <> AT_NULL) ->
  get_type a m av (Z.of_nat n0) = AT_NULL ->
  (n0 < fuel)%nat ->
  get_auxiliary a fuel m av t def_val
  = Some (int_value (read_auxv a m av n0) (wrap a t) def_val).
Proof.
  intros Hnz Hnull Hfuel. unfold int_value.
  rewrite (walk_auxv a m (fun v => Some (to_int v)) (Some def_val)
             (fun fuel av => get_auxiliary a fuel m av t def_val)
             (wrap a t) ltac:(reflexivity) n0 fuel av Hnz Hnull Hfuel).
  destruct (first_of_type _ _); reflexivity.
Qed.

Ltac not_in_types :=
  cbn; intros H;
  repeat (destruct H as [H|H]; [discriminate H|]); exact H.

(** X21.  When the kernel's vector holds an entry of each of the eleven
    types [wld_start] sets, and none of them is deleted: the array
    [new_av] is built, [set_auxiliary_values] returns, no entry is
    appended and the vector still ends with [AT_NULL].  In the vector
    the dynamic linker receives, [AT_PHDR], [AT_PHNUM] and [AT_ENTRY]
    are those of the main binary's link map, [AT_BASE] is the load
    address of the interpreter, [AT_PHENT] is the size of a program
    header, [AT_PAGESZ] is the page size, and [AT_FLAGS] and the four
    user and group ids are the kernel's values after a passage through
    an [int]. *)
Theorem new_auxv_reaches_vector :
  forall a fuel m av stack n0 (ds : list wld_auxv) dnul drest
         main_binary_map ld_so_map page_size ids,
    (forall j, (j < n0)%nat -> get_type a m av (Z.of_nat j) <> AT_NULL) ->
    get_type a m av (Z.of_nat n0) = AT_NULL ->
    (n0 < fuel)%nat ->
    Forall (fun e => a_type e <> AT_NULL) ds -> a_type dnul = AT_NULL ->
    stack <= av ->
    av + (Z.of_nat n0 + 1) * auxv_size a - stack < 2 ^ 31 ->
    let orig := read_auxv a m av n0 in
    (forall t, In t new_types ->
               In t (types_of orig) /\ ~ In t (types_of ds)) ->
    exists ns s,
      new_auxv a fuel m av main_binary_map ld_so_map page_size ids = Some ns
      /\ set_auxiliary_values a fuel m av ns (ds ++ dnul :: drest) stack
         = Some s
      /\ get_type a (s_mem s) (s_av s) (s_count s) = AT_NULL
      /\ let rewritten :=
           read_auxv a (s_mem s) (s_av s) (Z.to_nat (s_count s)) in
         types_of rewritten
         = types_of (fold_left delete_entry (types_of ds) orig)
         /\ first_of_type rewritten AT_PHDR
            = Some (wrap a (l_phdr main_binary_map))
         /\ first_of_type rewritten AT_PHENT = Some (phdr_size a)
         /\ first_of_type rewritten AT_PHNUM
            = Some (wrap a (l_phnum main_binary_map))
         /\ first_of_type rewritten AT_PAGESZ = Some (wrap a page_size)
         /\ first_of_type rewritten AT_BASE
            = Some (wrap a (l_addr ld_so_map))
         /\ first_of_type rewritten AT_ENTRY
            = Some (wrap a (l_entry main_binary_map))
         /\ (forall t,
                In t [AT_FLAGS; AT_UID; AT_EUID; AT_GID; AT_EGID] ->
                first_of_type rewritten t
                = option_map (fun v => wrap a (to_int v))
                    (first_of_type orig t)).
Proof.
  intros a fuel m av stack n0 ds dnul drest main ld page_size ids
         Hnz Hnull Hfuel Hds Hdnul Hstack Hlen orig Hpresent.
  assert (Hsmall : forall t, In t new_types -> wrap a t = t).
  { intros t Ht. cbn in Ht.
    repeat (destruct Ht as [<-|Ht]; [destruct a; reflexivity|]).
    contradiction. }
  unfold new_auxv.
  rewrite !(get_auxiliary_int_value a fuel m av n0) by assumption.
  fold orig.
  rewrite !Hsmall by (cbn; tauto).
  set (flags := int_value orig AT_FLAGS 0).
  set (uid := int_value orig AT_UID (to_int (id_uid ids))).
  set (euid := int_value orig AT_EUID (to_int (id_euid ids))).
  set (gid := int_value orig AT_GID (to_int (id_gid ids))).
  set (egid := int_value orig AT_EGID (to_int (id_egid ids))).
  set (ns := [ {| a_type := AT_PHDR; a_val := l_phdr main |};
               {| a_type := AT_PHENT; a_val := phdr_size a |};
               {| a_type := AT_PHNUM; a_val := l_phnum main |};
               {| a_type := AT_PAGESZ; a_val := page_size |};
               {| a_type := AT_BASE; a_val := l_addr ld |};
               {| a_type := AT_FLAGS; a_val := flags |};
               {| a_type := AT_ENTRY; a_val := l_entry main |};
               {| a_type := AT_UID; a_val := uid |};
               {| a_type := AT_EUID; a_val := euid |};
               {| a_type := AT_GID; a_val := gid |};
               {| a_type := AT_EGID; a_val := egid |} ]).
  assert (Hns : Forall (fun e => a_type e <> AT_NULL) ns)
    by (repeat constructor; discriminate).
  destruct (set_auxiliary_values_spec a fuel m av stack n0 ds dnul drest
              ns {| a_type := AT_NULL; a_val := 0 |} []
              Hnz Hnull Hfuel Hds Hdnul Hns eq_refl Hstack Hlen)
    as (s & Hs & _ & Hcount & Hread & Hterm & _).
  fold orig in Hread, Hcount, Hterm.
  set (kept := fold_left delete_entry (types_of ds) orig) in *.
  set (final := fold_left (set_entry a) ns kept) in *.
  assert (Hw : word_typed a kept)
    by (apply deletions_word_typed, read_auxv_word_typed).
  assert (Hpres : forall e, In e ns -> In (a_type e) (types_of kept)).
  { intros e He. apply deletions_keep_type; apply Hpresent;
      cbn in He; cbn;
      repeat (destruct He as [<-|He]; [tauto|]); contradiction. }
  assert (Hty : types_of final = types_of kept)
    by (apply settings_present; assumption).
  assert (Hlenf : length final = length kept)
    by (rewrite <- (length_types_of final), Hty; apply length_types_of).
  eexists. exists s. split; [reflexivity|]. split; [exact Hs|].
  split; [apply Hterm, Hlenf|].
  rewrite Hcount, Nat2Z.id, Hread. cbv zeta.
  split; [exact Hty|].
  assert (Hval : forall k e,
             ns !! k = Some e ->
             ~ In (a_type e) (types_of (drop (S k) ns)) ->
             first_of_type final (a_type e) = Some (wrap a (a_val e))).
  { intros k e Hk Hnot. unfold final.
    rewrite <- (take_drop_middle ns k e Hk).
    apply first_of_type_last_setting; [exact Hw| |exact Hnot].
    intros x Hx. apply Hpres. rewrite <- (take_drop_middle ns k e Hk).
    exact Hx. }
  split; [apply (Hval 0%nat _ eq_refl); not_in_types|].
  split.
  { pose proof (Hval 1%nat _ eq_refl ltac:(not_in_types)) as H.
    cbn [a_type a_val] in H. rewrite H. destruct a; reflexivity. }
  split; [apply (Hval 2%nat _ eq_refl); not_in_types|].
  split; [apply (Hval 3%nat _ eq_refl); not_in_types|].
  split; [apply (Hval 4%nat _ eq_refl); not_in_types|].
  split; [apply (Hval 6%nat _ eq_refl); not_in_types|].
  intros t Ht.
  assert (Hin : In t new_types) by (cbn in Ht; cbn; tauto).
  destruct (first_of_type_some orig t (proj1 (Hpresent t Hin))) as [v Hv].
  rewrite Hv. cbn [option_map].
  assert (Hiv : forall d, int_value orig t d = to_int v)
    by (intros d; unfold int_value; rewrite Hv; reflexivity).
  cbn in Ht. destruct Ht as [<-|[<-|[<-|[<-|[<-|[]]]]]].
  - pose proof (Hval 5%nat _ eq_refl ltac:(not_in_types)) as H.
    cbn [a_type a_val] in H. rewrite H. unfold flags. rewrite Hiv. reflexivity.
  - pose proof (Hval 7%nat _ eq_refl ltac:(not_in_types)) as H.
    cbn [a_type a_val] in H. rewrite H. unfold uid. rewrite Hiv. reflexivity.
  - pose proof (Hval 8%nat _ eq_refl ltac:(not_in_types)) as H.
    cbn [a_type a_val] in H. rewrite H. unfold euid. rewrite Hiv. reflexivity.
  - pose proof (Hval 9%nat _ eq_refl ltac:(not_in_types)) as H.
    cbn [a_type a_val] in H. rewrite H. unfold gid. rewrite Hiv. reflexivity.
  - pose proof (Hval 10%nat _ eq_refl ltac:(not_in_types)) as H.
    cbn [a_type a_val] in H. rewrite H. unfold egid. rewrite Hiv. reflexivity.
Qed.

Lemma kernel_auxv_terminated :
  (forall j, (j < 13)%nat ->
             get_type X86_64 kernel_mem sample_av (Z.of_nat j) <> AT_NULL)
  /\ get_type X86_64 kernel_mem sample_av (Z.of_nat 13) = AT_NULL.
Proof.
  split.
  - intros j Hj.
    do 13 (destruct j as [|j]; [vm_compute; discriminate|]). lia.
  - vm_compute. reflexivity.
Qed.

Lemma new_auxv_reaches_vector_witness :
  exists ns s,
    new_auxv X86_64 100 kernel_mem sample_av loaded_binary
      loaded_interpreter 4096 root_ids = Some ns
    /\ set_auxiliary_values X86_64 100 kernel_mem sample_av ns
         sample_delete sample_stack = Some s
    /\ get_type X86_64 (s_mem s) (s_av s) (s_count s) = AT_NULL
    /\ let rewritten :=
         read_auxv X86_64 (s_mem s) (s_av s) (Z.to_nat (s_count s)) in
       first_of_type rewritten AT_PHDR = Some 0x7d400040
       /\ first_of_type rewritten AT_PHNUM = Some 10
       /\ first_of_type rewritten AT_BASE = Some 0x7f000000
       /\ first_of_type rewritten AT_ENTRY = Some 0x7d400890
       /\ first_of_type rewritten AT_UID = Some 1000.
Proof.
  destruct kernel_auxv_terminated as [Hnz Hnull].
  destruct (new_auxv_reaches_vector X86_64 100 kernel_mem sample_av
              sample_stack 13
              [ {| a_type := AT_SYSINFO; a_val := 0 |};
                {| a_type := AT_SYSINFO_EHDR; a_val := 0 |} ]
              null_entry [] loaded_binary loaded_interpreter 4096 root_ids)
    as (ns & s & Hns & Hs & Hterm & _ & Hphdr & _ & Hphnum & _ & Hbase
        & Hentry & Hids).
  - exact Hnz.
  - exact Hnull.
  - lia.
  - repeat constructor; discriminate.
  - reflexivity.
  - vm_compute. discriminate.
  - vm_compute. reflexivity.
  - intros t Ht. split.
    + vm_compute in Ht. vm_compute. tauto.
    + vm_compute in Ht. vm_compute.
      intros [H|[H|[]]]; subst t;
        repeat (destruct Ht as [Ht|Ht]; [discriminate Ht|]); exact Ht.
  - exists ns, s. split; [exact Hns|]. split; [exact Hs|].
    split; [exact Hterm|]. cbv zeta.
    split; [exact Hphdr|]. split; [exact Hphnum|].
    split; [exact Hbase|]. split; [exact Hentry|].
    rewrite (Hids AT_UID) by (cbn; tauto). vm_compute. reflexivity.
Defined.
